(** * bstd: a varint-based binary codec — shallow embedding and properties

    The development embeds the Python reference implementation
    [std/python/bstd.py] (module [Bstd]) and the divergent functions of the
    older port [ports/python/std.py] (module [Port]).

    Modelling conventions
    - a Python [int] is a [Z] (unbounded, so no wrap-around is needed);
      [&], [|], [<<], [>>] are [Z.land], [Z.lor], [Z.shiftl], [Z.shiftr],
      which agree with Python on negative operands too;
    - [bytes] and [bytearray] are [list byte]; a [bytearray] that a function
      mutates is threaded through: the function returns the new offset
      together with the new contents;
    - a cursor (offset) is a [nat]: the data model of the library takes
      offsets to be unsigned, Python's negative indexing is not modelled;
    - a raised exception is the [Raise] constructor of [result]; the
      [UnicodeDecodeError] of [bytes.decode] is the [ValueError] it is a
      subclass of, and the [OverflowError] of [int.to_bytes] is the second
      constructor of [outcome];
    - a [dict] is the list of its items in insertion order;
    - floats and times are embedded as far as their sizes and skip
      functions go: [struct.pack], [struct.unpack] and [datetime] are not
      modelled. *)

From Stdlib Require Import ZArith Lia Bool.
From Stdlib Require Import Strings.Byte.
From stdpp Require Import base list.
From Equations Require Import Equations.

Local Open Scope Z_scope.

(** ** Errors *)

(** [class BencError(Enum)] *)
Inductive BencError : Set :=
| OVERFLOW
| BUF_TOO_SMALL.

(** The exceptions a modelled function can raise: [BencException] carrying
    its [error_type], and the built-in exceptions of the Python operations
    that the code relies on. *)
Inductive exn : Set :=
| BencException (error_type : BencError)
| IndexError
| ValueError
| UnicodeEncodeError.

Inductive result (A : Type) : Type :=
| Ok (a : A)
| Raise (e : exn).
Arguments Ok {A} a.
Arguments Raise {A} e.

#[global] Instance result_ret : MRet result := fun A a => Ok a.

#[global] Instance result_bind : MBind result := fun A B k r =>
  match r with
  | Ok a => k a
  | Raise e => Raise e
  end.

(** ** Bytes and buffers *)

(** The integer a byte of a [bytes] object reads as. *)
Definition int_of_byte (c : byte) : Z := Z.of_N (Byte.to_N c).

(** The byte an integer is stored as in a [bytearray]; Python raises
    [ValueError] outside [range(256)]. *)
Definition byte_of_int (z : Z) : result byte :=
  if (0 <=? z) && (z <? 256) then
    match Byte.of_N (Z.to_N z) with
    | Some c => Ok c
    | None => Raise ValueError
    end
  else Raise ValueError.

(** [len(b)] *)
Definition len (b : list byte) : Z := Z.of_nat (length b).

(** [b[i]] for a non-negative index. *)
Definition getitem (b : list byte) (i : nat) : result Z :=
  match b !! i with
  | Some c => Ok (int_of_byte c)
  | None => Raise IndexError
  end.

(** [b[i] = z] on a [bytearray], for a non-negative index. *)
Definition setitem (b : list byte) (i : nat) (z : Z) : result (list byte) :=
  if decide (i < length b)%nat then
    c ← byte_of_int z; Ok (<[i := c]> b)
  else Raise IndexError.

(** [b[lo:hi] = data] on a [bytearray], for non-negative bounds: the slice
    is clamped to the buffer and replaced by [data]. *)
Definition setslice (b : list byte) (lo hi : nat) (data : list byte) : list byte :=
  take lo b ++ data ++ drop (Nat.max lo hi) b.

(** [b[lo:hi]] on [bytes], for non-negative bounds: the slice is clamped to
    the buffer. *)
Definition getslice (b : list byte) (lo hi : nat) : list byte :=
  drop lo (take hi b).

(** [bytes(ints)]: Python raises [ValueError] for an element outside
    [range(256)]. *)
Fixpoint bytes_of_ints (ints : list Z) : result (list byte) :=
  match ints with
  | [] => Ok []
  | z :: ints' =>
      c ← byte_of_int z;
      cs ← bytes_of_ints ints';
      Ok (c :: cs)
  end.

(** The byte of value [v mod 256]. *)
Definition low_byte (v : Z) : byte :=
  default x00 (Byte.of_N (Z.to_N (v mod 256))).

(** The [length] low bytes of [v] in two's complement, least significant
    first. *)
Fixpoint le_bytes (length : nat) (v : Z) : list byte :=
  match length with
  | O => []
  | S length' => low_byte v :: le_bytes length' (v / 256)
  end.

(** The number a byte string denotes, least significant byte first. *)
Fixpoint le_value (bs : list byte) : Z :=
  match bs with
  | [] => 0
  | c :: bs' => int_of_byte c + 256 * le_value bs'
  end.

(** [v.to_bytes(length, 'little', signed=signed)]; [None] stands for the
    [OverflowError] that Python raises when [v] does not fit. *)
Definition int_to_bytes (v : Z) (length : nat) (signed : bool)
  : option (list byte) :=
  let bits := 8 * Z.of_nat length in
  if signed then
    if (- 2 ^ (bits - 1) <=? v) && (v <? 2 ^ (bits - 1))
    then Some (le_bytes length v) else None
  else
    if (0 <=? v) && (v <? 2 ^ bits)
    then Some (le_bytes length v) else None.

(** [int.from_bytes(bs, 'little', signed=signed)] *)
Definition int_from_bytes (bs : list byte) (signed : bool) : Z :=
  let bits := 8 * Z.of_nat (length bs) in
  let u := le_value bs in
  if signed && (2 ^ (bits - 1) <=? u) then u - 2 ^ bits else u.

(** What a function that calls [int.to_bytes] does: what a [result] can
    say, or the [OverflowError] of [int.to_bytes], which is not among the
    exceptions of [exn]. *)
Inductive outcome (A : Type) : Type :=
| Returns (r : result A)
| OverflowError.
Arguments Returns {A} r.
Arguments OverflowError {A}.

Module Bstd.

(** [MAX_VARINT_LEN = 10] *)
Definition MAX_VARINT_LEN : nat := 10.

(** *** Unsigned varints *)

(** The [while v >= 0x80] loop of [size_uint], from the state [(v, size)].
    Each turn shifts [v] right by seven bits, which takes seven off its
    binary logarithm: the measure under which the loop terminates. *)
Equations? size_uint_while (v size : Z) : Z by wf (Z.to_nat (Z.log2 v)) lt :=
  size_uint_while v size with decide (0x80 <= v) := {
    | left Hv => size_uint_while (Z.shiftr v 7) (size + 1)
    | right _ => size + 1 }.
Proof.
  rewrite Z.log2_shiftr by lia.
  assert (7 <= Z.log2 v) by (apply (Z.log2_le_mono 0x80 v); lia).
  lia.
Qed.

Definition size_uint (value : Z) : Z := size_uint_while value 0.

(** The [while v >= 0x80] loop of [marshal_uint], from the state
    [(v, i, b)]; the result is the returned offset and the buffer as the
    loop leaves it. *)
Equations? marshal_uint_while (v : Z) (i : nat) (b : list byte)
  : result (nat * list byte) by wf (Z.to_nat (Z.log2 v)) lt :=
  marshal_uint_while v i b with decide (0x80 <= v) := {
    | left Hv =>
        if Z.of_nat i >=? len b then Raise (BencException BUF_TOO_SMALL)
        else
          match setitem b i (Z.lor (Z.land v 0x7F) 0x80) with
          | Ok b' => marshal_uint_while (Z.shiftr v 7) (i + 1) b'
          | Raise e => Raise e
          end
    | right _ =>
        if Z.of_nat i >=? len b then Raise (BencException BUF_TOO_SMALL)
        else
          b' ← setitem b i (Z.land v 0x7F);
          Ok ((i + 1)%nat, b') }.
Proof.
  rewrite Z.log2_shiftr by lia.
  assert (7 <= Z.log2 v) by (apply (Z.log2_le_mono 0x80 v); lia).
  lia.
Qed.

Definition marshal_uint (n : nat) (b : list byte) (value : Z)
  : result (nat * list byte) :=
  marshal_uint_while value n b.

(** The [for i in range(MAX_VARINT_LEN)] loop of [unmarshal_uint] over the
    indices still to visit, from the accumulators [(x, s)]; falling out of
    the loop reaches the final [raise]. *)
Fixpoint unmarshal_uint_for (range : list nat) (n : nat) (buf : list byte)
    (x s : Z) : result (nat * Z) :=
  match range with
  | [] => Raise (BencException OVERFLOW)
  | i :: range' =>
      if Z.of_nat (n + i) >=? len buf then Raise (BencException BUF_TOO_SMALL)
      else
        match getitem buf (n + i) with
        | Raise e => Raise e
        | Ok byte_val =>
            if byte_val <? 0x80 then
              if Nat.eqb i (MAX_VARINT_LEN - 1) && (byte_val >? 1)
              then Raise (BencException OVERFLOW)
              else Ok ((n + i + 1)%nat, Z.lor x (Z.shiftl byte_val s))
            else
              unmarshal_uint_for range' n buf
                (Z.lor x (Z.shiftl (Z.land byte_val 0x7F) s)) (s + 7)
        end
  end.

Definition unmarshal_uint (n : nat) (buf : list byte) : result (nat * Z) :=
  unmarshal_uint_for (seq 0 MAX_VARINT_LEN) n buf 0 0.

(** *** Signed varints *)

Definition encode_zigzag (value : Z) : Z :=
  if value <? 0 then Z.shiftl (Z.abs value) 1 - 1 else Z.shiftl value 1.

(** [value & 1] is tested for truth, that is, for being non-zero. *)
Definition decode_zigzag (value : Z) : Z :=
  if negb (Z.land value 1 =? 0) then - (Z.shiftr value 1) - 1
  else Z.shiftr value 1.

(** The [for] loop of [skip_varint]. *)
Fixpoint skip_varint_for (range : list nat) (n : nat) (buf : list byte)
  : result nat :=
  match range with
  | [] => Raise (BencException OVERFLOW)
  | i :: range' =>
      if Z.of_nat (n + i) >=? len buf then Raise (BencException BUF_TOO_SMALL)
      else
        match getitem buf (n + i) with
        | Raise e => Raise e
        | Ok c =>
            if c <? 0x80 then
              if Nat.eqb i (MAX_VARINT_LEN - 1) && (c >? 1)
              then Raise (BencException OVERFLOW)
              else Ok (n + i + 1)%nat
            else skip_varint_for range' n buf
        end
  end.

Definition skip_varint (n : nat) (buf : list byte) : result nat :=
  skip_varint_for (seq 0 MAX_VARINT_LEN) n buf.

Definition size_int (value : Z) : Z := size_uint (encode_zigzag value).

Definition marshal_int (n : nat) (b : list byte) (value : Z) :=
  marshal_uint n b (encode_zigzag value).

Definition unmarshal_int (n : nat) (buf : list byte) : result (nat * Z) :=
  '(n, unsigned_val) ← unmarshal_uint n buf;
  Ok (n, decode_zigzag unsigned_val).

(** *** Single bytes *)

Definition skip_byte (n : nat) (b : list byte) : result nat :=
  if len b - Z.of_nat n <? 1 then Raise (BencException BUF_TOO_SMALL)
  else Ok (n + 1)%nat.

Definition size_byte : Z := 1.

Definition marshal_byte (n : nat) (b : list byte) (value : Z)
  : result (nat * list byte) :=
  if len b - Z.of_nat n <? 1 then Raise (BencException BUF_TOO_SMALL)
  else
    b' ← setitem b n (Z.land value 0xFF);
    Ok ((n + 1)%nat, b').

Definition unmarshal_byte (n : nat) (b : list byte) : result (nat * Z) :=
  if len b - Z.of_nat n <? 1 then Raise (BencException BUF_TOO_SMALL)
  else
    v ← getitem b n;
    Ok ((n + 1)%nat, v).

(** *** Strings *)

(** A Python [str] is a sequence of Unicode code points. *)
Definition str : Type := list Z.

(** [chr(c).encode('utf-8')]: one to four bytes; the surrogate code points
    are not encodable. *)
Definition utf8_encode_char (c : Z) : result (list Z) :=
  if c <? 0 then Raise UnicodeEncodeError
  else if c <? 0x80 then Ok [c]
  else if c <? 0x800 then
    Ok [Z.lor 0xC0 (Z.shiftr c 6); Z.lor 0x80 (Z.land c 0x3F)]
  else if c <? 0x10000 then
    if (0xD800 <=? c) && (c <=? 0xDFFF) then Raise UnicodeEncodeError
    else Ok [Z.lor 0xE0 (Z.shiftr c 12);
             Z.lor 0x80 (Z.land (Z.shiftr c 6) 0x3F);
             Z.lor 0x80 (Z.land c 0x3F)]
  else if c <? 0x110000 then
    Ok [Z.lor 0xF0 (Z.shiftr c 18);
        Z.lor 0x80 (Z.land (Z.shiftr c 12) 0x3F);
        Z.lor 0x80 (Z.land (Z.shiftr c 6) 0x3F);
        Z.lor 0x80 (Z.land c 0x3F)]
  else Raise UnicodeEncodeError.

(** [s.encode('utf-8')], as the integer values of the bytes. *)
Fixpoint encode_utf8 (s : str) : result (list Z) :=
  match s with
  | [] => Ok []
  | c :: s' =>
      cs ← utf8_encode_char c;
      rest ← encode_utf8 s';
      Ok (cs ++ rest)
  end.

Definition size_string (s : str) : result Z :=
  encoded_s ← encode_utf8 s;
  let str_len := Z.of_nat (length encoded_s) in
  Ok (str_len + size_uint str_len).

(** *** Slices *)

Section Slice.
Context {T : Type}.

Definition SizeFunc : Type := T -> Z.
Definition MarshalFunc : Type :=
  nat -> list byte -> T -> result (nat * list byte).
Definition UnmarshalFunc : Type := nat -> list byte -> result (nat * T).
Definition SkipFunc : Type := nat -> list byte -> result nat.

Definition size_slice (slice_data : list T) (sizer : SizeFunc) : Z :=
  fold_left (fun total item => total + sizer item) slice_data
    (4 + size_uint (Z.of_nat (length slice_data))).

(** [for item in slice_data: n = marshaler(n, b, item)] *)
Fixpoint marshal_slice_for (slice_data : list T) (marshaler : MarshalFunc)
    (n : nat) (b : list byte) : result (nat * list byte) :=
  match slice_data with
  | [] => Ok (n, b)
  | item :: rest =>
      '(n, b) ← marshaler n b item;
      marshal_slice_for rest marshaler n b
  end.

Definition marshal_slice (n : nat) (b : list byte) (slice_data : list T)
    (marshaler : MarshalFunc) : result (nat * list byte) :=
  '(n, b) ← marshal_uint n b (Z.of_nat (length slice_data));
  '(n, b) ← marshal_slice_for slice_data marshaler n b;
  if len b - Z.of_nat n <? 4 then Raise (BencException BUF_TOO_SMALL)
  else Ok ((n + 4)%nat, setslice b n (n + 4) [x01; x01; x01; x01]).

(** [for _ in range(size)]: the element unmarshaler is called once per
    iteration and its item appended to the list built so far. *)
Fixpoint unmarshal_slice_for (size : nat) (unmarshaler : UnmarshalFunc)
    (n : nat) (b : list byte) (items : list T) : result (nat * list T) :=
  match size with
  | O => Ok (n, items)
  | S size' =>
      '(n, item) ← unmarshaler n b;
      unmarshal_slice_for size' unmarshaler n b (items ++ [item])
  end.

Definition unmarshal_slice (n : nat) (b : list byte)
    (unmarshaler : UnmarshalFunc) : result (nat * list T) :=
  '(n, size) ← unmarshal_uint n b;
  '(n, items) ← unmarshal_slice_for (Z.to_nat size) unmarshaler n b [];
  if len b - Z.of_nat n <? 4 then Raise (BencException BUF_TOO_SMALL)
  else Ok ((n + 4)%nat, items).

(** [for _ in range(element_count): n = element_skipper(n, b)] *)
Fixpoint skip_slice_for (element_count : nat) (element_skipper : SkipFunc)
    (n : nat) (b : list byte) : result nat :=
  match element_count with
  | O => Ok n
  | S count' =>
      n ← element_skipper n b;
      skip_slice_for count' element_skipper n b
  end.

Definition skip_slice (n : nat) (b : list byte) (element_skipper : SkipFunc)
  : result nat :=
  '(n, element_count) ← unmarshal_uint n b;
  n ← skip_slice_for (Z.to_nat element_count) element_skipper n b;
  if len b - Z.of_nat n <? 4 then Raise (BencException BUF_TOO_SMALL)
  else Ok (n + 4)%nat.

End Slice.

(** *** Strings, continued *)

(** [s.encode('utf-8')] as a [bytes] object. *)
Definition str_encode (s : str) : result (list byte) :=
  ints ← encode_utf8 s;
  bytes_of_ints ints.

(** [lo <= z <= hi] *)
Definition between (lo z hi : Z) : bool := (lo <=? z) && (z <=? hi).

(** [bs.decode('utf-8')]: the strict decoder accepts the well-formed
    sequences only, so no overlong form, no surrogate and nothing above
    U+10FFFF. It raises [UnicodeDecodeError], a subclass of [ValueError]:
    the [ValueError] of [exn] here. *)
Fixpoint decode_utf8 (bs : list byte) : result str :=
  match bs with
  | [] => Ok []
  | c0 :: bs1 =>
      let b0 := int_of_byte c0 in
      if b0 <? 0x80 then
        s ← decode_utf8 bs1; Ok (b0 :: s)
      else if between 0xC2 b0 0xDF then
        match bs1 with
        | c1 :: bs2 =>
            let b1 := int_of_byte c1 in
            if between 0x80 b1 0xBF then
              s ← decode_utf8 bs2;
              Ok (Z.lor (Z.shiftl (Z.land b0 0x1F) 6) (Z.land b1 0x3F) :: s)
            else Raise ValueError
        | _ => Raise ValueError
        end
      else if between 0xE0 b0 0xEF then
        match bs1 with
        | c1 :: c2 :: bs3 =>
            let b1 := int_of_byte c1 in
            let b2 := int_of_byte c2 in
            if between (if b0 =? 0xE0 then 0xA0 else 0x80) b1
                       (if b0 =? 0xED then 0x9F else 0xBF)
               && between 0x80 b2 0xBF then
              s ← decode_utf8 bs3;
              Ok (Z.lor (Z.shiftl (Z.land b0 0x0F) 12)
                    (Z.lor (Z.shiftl (Z.land b1 0x3F) 6) (Z.land b2 0x3F))
                  :: s)
            else Raise ValueError
        | _ => Raise ValueError
        end
      else if between 0xF0 b0 0xF4 then
        match bs1 with
        | c1 :: c2 :: c3 :: bs4 =>
            let b1 := int_of_byte c1 in
            let b2 := int_of_byte c2 in
            let b3 := int_of_byte c3 in
            if between (if b0 =? 0xF0 then 0x90 else 0x80) b1
                       (if b0 =? 0xF4 then 0x8F else 0xBF)
               && between 0x80 b2 0xBF && between 0x80 b3 0xBF then
              s ← decode_utf8 bs4;
              Ok (Z.lor (Z.shiftl (Z.land b0 0x07) 18)
                    (Z.lor (Z.shiftl (Z.land b1 0x3F) 12)
                       (Z.lor (Z.shiftl (Z.land b2 0x3F) 6) (Z.land b3 0x3F)))
                  :: s)
            else Raise ValueError
        | _ => Raise ValueError
        end
      else Raise ValueError
  end.

Definition marshal_string (n : nat) (b : list byte) (s : str)
  : result (nat * list byte) :=
  encoded_s ← str_encode s;
  let str_len := length encoded_s in
  '(n, b) ← marshal_uint n b (Z.of_nat str_len);
  if len b - Z.of_nat n <? Z.of_nat str_len
  then Raise (BencException BUF_TOO_SMALL)
  else Ok ((n + str_len)%nat, setslice b n (n + str_len) encoded_s).

Definition unmarshal_string (n : nat) (b : list byte) : result (nat * str) :=
  '(n, str_len) ← unmarshal_uint n b;
  if len b - Z.of_nat n <? str_len then Raise (BencException BUF_TOO_SMALL)
  else
    s ← decode_utf8 (getslice b n (n + Z.to_nat str_len));
    Ok ((n + Z.to_nat str_len)%nat, s).

Definition skip_string (n : nat) (b : list byte) : result nat :=
  '(n_after_len, str_len) ← unmarshal_uint n b;
  if len b - Z.of_nat n_after_len <? str_len
  then Raise (BencException BUF_TOO_SMALL)
  else Ok (n_after_len + Z.to_nat str_len)%nat.

(** *** Byte strings *)

Definition size_bytes (bs : list byte) : Z :=
  Z.of_nat (length bs) + size_uint (Z.of_nat (length bs)).

Definition marshal_bytes (n : nat) (b : list byte) (bs : list byte)
  : result (nat * list byte) :=
  '(n, b) ← marshal_uint n b (Z.of_nat (length bs));
  if len b - Z.of_nat n <? Z.of_nat (length bs)
  then Raise (BencException BUF_TOO_SMALL)
  else Ok ((n + length bs)%nat, setslice b n (n + length bs) bs).

Definition unmarshal_bytes (n : nat) (b : list byte)
  : result (nat * list byte) :=
  '(n, size) ← unmarshal_uint n b;
  if len b - Z.of_nat n <? size then Raise (BencException BUF_TOO_SMALL)
  else Ok ((n + Z.to_nat size)%nat, getslice b n (n + Z.to_nat size)).

Definition skip_bytes (n : nat) (b : list byte) : result nat :=
  '(n, size) ← unmarshal_uint n b;
  if len b - Z.of_nat n <? size then Raise (BencException BUF_TOO_SMALL)
  else Ok (n + Z.to_nat size)%nat.

(** *** Booleans *)

Definition skip_bool (n : nat) (b : list byte) : result nat :=
  if len b - Z.of_nat n <? 1 then Raise (BencException BUF_TOO_SMALL)
  else Ok (n + 1)%nat.

Definition size_bool : Z := 1.

Definition marshal_bool (n : nat) (b : list byte) (v : bool)
  : result (nat * list byte) :=
  if len b - Z.of_nat n <? 1 then Raise (BencException BUF_TOO_SMALL)
  else
    b' ← setitem b n (if v then 1 else 0);
    Ok ((n + 1)%nat, b').

Definition unmarshal_bool (n : nat) (b : list byte) : result (nat * bool) :=
  if len b - Z.of_nat n <? 1 then Raise (BencException BUF_TOO_SMALL)
  else
    c ← getitem b n;
    Ok ((n + 1)%nat, c =? 1).

(** *** Fixed-size integers

    The functions [skip_], [marshal_] and [unmarshal_] for [int8],
    [uint16], [int16], [uint32], [int32], [uint64] and [int64] have one
    text each, up to the width and the signedness: [skip_fixed],
    [marshal_fixed] and [unmarshal_fixed] are that text. *)

Definition skip_fixed (width : nat) (n : nat) (b : list byte) : result nat :=
  if len b <? Z.of_nat n + Z.of_nat width
  then Raise (BencException BUF_TOO_SMALL)
  else Ok (n + width)%nat.

Definition marshal_fixed (width : nat) (signed : bool) (n : nat)
    (b : list byte) (v : Z) : outcome (nat * list byte) :=
  if len b <? Z.of_nat n + Z.of_nat width
  then Returns (Raise (BencException BUF_TOO_SMALL))
  else
    match int_to_bytes v width signed with
    | None => OverflowError
    | Some bs => Returns (Ok ((n + width)%nat, setslice b n (n + width) bs))
    end.

Definition unmarshal_fixed (width : nat) (signed : bool) (n : nat)
    (b : list byte) : result (nat * Z) :=
  if len b <? Z.of_nat n + Z.of_nat width
  then Raise (BencException BUF_TOO_SMALL)
  else Ok ((n + width)%nat, int_from_bytes (getslice b n (n + width)) signed).

Definition skip_int8 := skip_byte.
Definition size_int8 : Z := 1.
Definition marshal_int8 := marshal_fixed 1 true.
Definition unmarshal_int8 := unmarshal_fixed 1 true.

Definition skip_uint16 := skip_fixed 2.
Definition size_uint16 : Z := 2.
Definition marshal_uint16 := marshal_fixed 2 false.
Definition unmarshal_uint16 := unmarshal_fixed 2 false.

Definition skip_int16 := skip_fixed 2.
Definition size_int16 : Z := 2.
Definition marshal_int16 := marshal_fixed 2 true.
Definition unmarshal_int16 := unmarshal_fixed 2 true.

Definition skip_uint32 := skip_fixed 4.
Definition size_uint32 : Z := 4.
Definition marshal_uint32 := marshal_fixed 4 false.
Definition unmarshal_uint32 := unmarshal_fixed 4 false.

Definition skip_int32 := skip_fixed 4.
Definition size_int32 : Z := 4.
Definition marshal_int32 := marshal_fixed 4 true.
Definition unmarshal_int32 := unmarshal_fixed 4 true.

Definition skip_uint64 := skip_fixed 8.
Definition size_uint64 : Z := 8.
Definition marshal_uint64 := marshal_fixed 8 false.
Definition unmarshal_uint64 := unmarshal_fixed 8 false.

Definition skip_int64 := skip_fixed 8.
Definition size_int64 : Z := 8.
Definition marshal_int64 := marshal_fixed 8 true.
Definition unmarshal_int64 := unmarshal_fixed 8 true.

(** Floats and times are skipped and sized as the integers of their
    width. *)
Definition skip_float32 := skip_fixed 4.
Definition size_float32 : Z := 4.
Definition skip_float64 := skip_fixed 8.
Definition size_float64 : Z := 8.
Definition skip_time := skip_int64.
Definition size_time : Z := size_int64.

(** *** Fixed-size slices, maps and optional values *)

Section Containers.
Context {T K V : Type} `{EqDecision K}.

Definition size_fixed_slice (slice_data : list T) (elem_size : Z) : Z :=
  let count := Z.of_nat (length slice_data) in
  4 + size_uint count + count * elem_size.

(** A [dict] is the list of its items in insertion order, a key occurring
    once. *)
Definition dict : Type := list (K * V).

(** [d[key] = value]: a key already in the [dict] keeps its place. *)
Fixpoint dict_setitem (d : dict) (key : K) (value : V) : dict :=
  match d with
  | [] => [(key, value)]
  | (k, v) :: d' =>
      if decide (k = key) then (k, value) :: d'
      else (k, v) :: dict_setitem d' key value
  end.

Definition size_map (m : dict) (k_sizer : @SizeFunc K) (v_sizer : @SizeFunc V)
  : Z :=
  fold_left (fun total '(k, v) => total + (k_sizer k + v_sizer v)) m
    (4 + size_uint (Z.of_nat (length m))).

(** [for k, v in m.items()] *)
Fixpoint marshal_map_for (items : list (K * V))
    (k_marshaler : @MarshalFunc K) (v_marshaler : @MarshalFunc V)
    (n : nat) (b : list byte) : result (nat * list byte) :=
  match items with
  | [] => Ok (n, b)
  | (k, v) :: items' =>
      '(n, b) ← k_marshaler n b k;
      '(n, b) ← v_marshaler n b v;
      marshal_map_for items' k_marshaler v_marshaler n b
  end.

Definition marshal_map (n : nat) (b : list byte) (m : dict)
    (k_marshaler : @MarshalFunc K) (v_marshaler : @MarshalFunc V)
  : result (nat * list byte) :=
  '(n, b) ← marshal_uint n b (Z.of_nat (length m));
  '(n, b) ← marshal_map_for m k_marshaler v_marshaler n b;
  if len b - Z.of_nat n <? 4 then Raise (BencException BUF_TOO_SMALL)
  else Ok ((n + 4)%nat, setslice b n (n + 4) [x01; x01; x01; x01]).

(** [for _ in range(size)], from the [dict] built so far. *)
Fixpoint unmarshal_map_for (size : nat)
    (k_unmarshaler : @UnmarshalFunc K) (v_unmarshaler : @UnmarshalFunc V)
    (n : nat) (b : list byte) (d : dict) : result (nat * dict) :=
  match size with
  | O => Ok (n, d)
  | S size' =>
      '(n, key) ← k_unmarshaler n b;
      '(n, value) ← v_unmarshaler n b;
      unmarshal_map_for size' k_unmarshaler v_unmarshaler n b
        (dict_setitem d key value)
  end.

Definition unmarshal_map (n : nat) (b : list byte)
    (k_unmarshaler : @UnmarshalFunc K) (v_unmarshaler : @UnmarshalFunc V)
  : result (nat * dict) :=
  '(n, size) ← unmarshal_uint n b;
  '(n, d) ← unmarshal_map_for (Z.to_nat size) k_unmarshaler v_unmarshaler
              n b [];
  if len b - Z.of_nat n <? 4 then Raise (BencException BUF_TOO_SMALL)
  else Ok ((n + 4)%nat, d).

(** [for _ in range(pair_count)] *)
Fixpoint skip_map_for (pair_count : nat) (key_skipper value_skipper : SkipFunc)
    (n : nat) (b : list byte) : result nat :=
  match pair_count with
  | O => Ok n
  | S count' =>
      n ← key_skipper n b;
      n ← value_skipper n b;
      skip_map_for count' key_skipper value_skipper n b
  end.

Definition skip_map (n : nat) (b : list byte)
    (key_skipper value_skipper : SkipFunc) : result nat :=
  '(n, pair_count) ← unmarshal_uint n b;
  n ← skip_map_for (Z.to_nat pair_count) key_skipper value_skipper n b;
  if len b - Z.of_nat n <? 4 then Raise (BencException BUF_TOO_SMALL)
  else Ok (n + 4)%nat.

(** An [Optional[T]] is an [option T]: [None] is Python's [None]. *)
Definition skip_optional (n : nat) (b : list byte) (element_skipper : SkipFunc)
  : result nat :=
  '(n, has_value) ← unmarshal_bool n b;
  if (has_value : bool) then element_skipper n b else Ok n.

Definition size_optional (value : option T) (sizer : @SizeFunc T) : Z :=
  size_bool + match value with Some v => sizer v | None => 0 end.

Definition marshal_optional (n : nat) (b : list byte) (value : option T)
    (marshaler : @MarshalFunc T) : result (nat * list byte) :=
  '(n, b) ← marshal_bool n b (if value is Some _ then true else false);
  match value with
  | Some v => marshaler n b v
  | None => Ok (n, b)
  end.

Definition unmarshal_optional (n : nat) (b : list byte)
    (unmarshaler : @UnmarshalFunc T) : result (nat * option T) :=
  '(n, has_value) ← unmarshal_bool n b;
  if (has_value : bool) then
    '(n, v) ← unmarshaler n b; Ok (n, Some v)
  else Ok (n, None).

End Containers.

End Bstd.

(** ** The older port, [ports/python/std.py]

    Only the functions whose text differs from [bstd.py] are embedded again;
    [size_uint] and [unmarshal_uint] are the same text in both files. *)
Module Port.

Definition size_uint : Z -> Z := Bstd.size_uint.
Definition unmarshal_uint : nat -> list byte -> result (nat * Z) :=
  Bstd.unmarshal_uint.

(** [str_len = len(s)]: the number of code points of [s]. *)
Definition size_string (s : Bstd.str) : Z :=
  let str_len := Z.of_nat (length s) in
  str_len + size_uint str_len.

(** The [for i in range(n, lb - 3)] loop of [skip_slice]; [and] evaluates
    its right operand only when the left one holds. *)
Fixpoint skip_slice_for (range : list nat) (b : list byte) : result nat :=
  match range with
  | [] => Raise (BencException BUF_TOO_SMALL)
  | i :: range' =>
      b0 ← getitem b i;
      if negb (b0 =? 1) then skip_slice_for range' b else
      b1 ← getitem b (i + 1);
      if negb (b1 =? 1) then skip_slice_for range' b else
      b2 ← getitem b (i + 2);
      if negb (b2 =? 1) then skip_slice_for range' b else
      b3 ← getitem b (i + 3);
      if negb (b3 =? 1) then skip_slice_for range' b else
      Ok (i + 4)%nat
  end.

Definition skip_slice (n : nat) (b : list byte) : result nat :=
  let lb := length b in
  skip_slice_for (seq n (lb - 3 - n)) b.

(** The [while v >= 0x80] loop of the port's [marshal_uint] and
    [marshal_int]: it stores without looking at the length of the buffer,
    so that a store past the end is Python's [IndexError]. *)
Equations? marshal_uint_while (v : Z) (i : nat) (b : list byte)
  : result (nat * list byte) by wf (Z.to_nat (Z.log2 v)) lt :=
  marshal_uint_while v i b with decide (0x80 <= v) := {
    | left Hv =>
        match setitem b i (Z.lor (Z.land v 0x7F) 0x80) with
        | Ok b' => marshal_uint_while (Z.shiftr v 7) (i + 1) b'
        | Raise e => Raise e
        end
    | right _ =>
        b' ← setitem b i (Z.land v 0x7F);
        Ok ((i + 1)%nat, b') }.
Proof.
  rewrite Z.log2_shiftr by lia.
  assert (7 <= Z.log2 v) by (apply (Z.log2_le_mono 0x80 v); lia).
  lia.
Qed.

Definition marshal_uint (n : nat) (b : list byte) (value : Z)
  : result (nat * list byte) :=
  marshal_uint_while value n b.

Definition encode_zigzag (value : Z) : Z :=
  if value <? 0 then Z.shiftl (Z.abs value) 1 - 1 else Z.shiftl value 1.

Definition decode_zigzag (value : Z) : Z :=
  if negb (Z.land value 1 =? 0) then - (Z.shiftr value 1) - 1
  else Z.shiftr value 1.

(** [size_int] and [marshal_int] run the loops of [size_uint] and
    [marshal_uint] on the ZigZag code, written out again in the source. *)
Definition size_int (value : Z) : Z :=
  let v := encode_zigzag value in
  Bstd.size_uint_while v 0.

Definition marshal_int (n : nat) (b : list byte) (value : Z)
  : result (nat * list byte) :=
  let v := encode_zigzag value in
  marshal_uint_while v n b.

(** The [for] loop of the port's [unmarshal_int]. *)
Fixpoint unmarshal_int_for (range : list nat) (n : nat) (buf : list byte)
    (x s : Z) : result (nat * Z) :=
  match range with
  | [] => Raise (BencException OVERFLOW)
  | i :: range' =>
      if Z.of_nat (n + i) >=? len buf then Raise (BencException BUF_TOO_SMALL)
      else
        match getitem buf (n + i) with
        | Raise e => Raise e
        | Ok b =>
            if b <? 0x80 then
              if Nat.eqb i (Bstd.MAX_VARINT_LEN - 1) && (b >? 1)
              then Raise (BencException OVERFLOW)
              else Ok ((n + i + 1)%nat, decode_zigzag (Z.lor x (Z.shiftl b s)))
            else
              unmarshal_int_for range' n buf
                (Z.lor x (Z.shiftl (Z.land b 0x7F) s)) (s + 7)
        end
  end.

Definition unmarshal_int (n : nat) (buf : list byte) : result (nat * Z) :=
  unmarshal_int_for (seq 0 Bstd.MAX_VARINT_LEN) n buf 0 0.

(** The fixed-size integers that the port writes out byte by byte. *)

Definition marshal_uint16 (n : nat) (b : list byte) (value : Z)
  : result (nat * list byte) :=
  if len b - Z.of_nat n <? 2 then Raise (BencException BUF_TOO_SMALL)
  else if (value <? 0) || (value >? 0xFFFF)
  then Raise (BencException OVERFLOW)
  else
    b ← setitem b n (Z.land value 0xFF);
    b ← setitem b (n + 1) (Z.land (Z.shiftr value 8) 0xFF);
    Ok ((n + 2)%nat, b).

Definition unmarshal_uint16 (n : nat) (b : list byte) : result (nat * Z) :=
  if len b - Z.of_nat n <? 2 then Raise (BencException BUF_TOO_SMALL)
  else
    b0 ← getitem b n;
    b1 ← getitem b (n + 1);
    let value := Z.lor b0 (Z.shiftl b1 8) in
    Ok ((n + 2)%nat, value).

Definition marshal_uint32 (n : nat) (b : list byte) (value : Z)
  : result (nat * list byte) :=
  if len b - Z.of_nat n <? 4 then Raise (BencException BUF_TOO_SMALL)
  else if (value <? 0) || (value >? 0xFFFFFFFF)
  then Raise (BencException OVERFLOW)
  else
    b ← setitem b n (Z.land value 0xFF);
    b ← setitem b (n + 1) (Z.land (Z.shiftr value 8) 0xFF);
    b ← setitem b (n + 2) (Z.land (Z.shiftr value 16) 0xFF);
    b ← setitem b (n + 3) (Z.land (Z.shiftr value 24) 0xFF);
    Ok ((n + 4)%nat, b).

Definition unmarshal_uint32 (n : nat) (b : list byte) : result (nat * Z) :=
  if len b - Z.of_nat n <? 4 then Raise (BencException BUF_TOO_SMALL)
  else
    b0 ← getitem b n;
    b1 ← getitem b (n + 1);
    b2 ← getitem b (n + 2);
    b3 ← getitem b (n + 3);
    let value :=
      Z.lor (Z.lor (Z.lor b0 (Z.shiftl b1 8)) (Z.shiftl b2 16))
            (Z.shiftl b3 24) in
    Ok ((n + 4)%nat, value).

Definition marshal_int64 (n : nat) (b : list byte) (value : Z)
  : result (nat * list byte) :=
  if len b - Z.of_nat n <? 8 then Raise (BencException BUF_TOO_SMALL)
  else
    let unsigned_value :=
      if value <? 0 then Z.shiftl 1 64 + value else value in
    b ← setitem b n (Z.land unsigned_value 0xFF);
    b ← setitem b (n + 1) (Z.land (Z.shiftr unsigned_value 8) 0xFF);
    b ← setitem b (n + 2) (Z.land (Z.shiftr unsigned_value 16) 0xFF);
    b ← setitem b (n + 3) (Z.land (Z.shiftr unsigned_value 24) 0xFF);
    b ← setitem b (n + 4) (Z.land (Z.shiftr unsigned_value 32) 0xFF);
    b ← setitem b (n + 5) (Z.land (Z.shiftr unsigned_value 40) 0xFF);
    b ← setitem b (n + 6) (Z.land (Z.shiftr unsigned_value 48) 0xFF);
    b ← setitem b (n + 7) (Z.land (Z.shiftr unsigned_value 56) 0xFF);
    Ok ((n + 8)%nat, b).

Definition unmarshal_int64 (n : nat) (b : list byte) : result (nat * Z) :=
  if len b - Z.of_nat n <? 8 then Raise (BencException BUF_TOO_SMALL)
  else
    b0 ← getitem b n;
    b1 ← getitem b (n + 1);
    b2 ← getitem b (n + 2);
    b3 ← getitem b (n + 3);
    b4 ← getitem b (n + 4);
    b5 ← getitem b (n + 5);
    b6 ← getitem b (n + 6);
    b7 ← getitem b (n + 7);
    let unsigned_value :=
      Z.lor (Z.lor (Z.lor (Z.lor (Z.lor (Z.lor (Z.lor
        b0 (Z.shiftl b1 8)) (Z.shiftl b2 16)) (Z.shiftl b3 24))
        (Z.shiftl b4 32)) (Z.shiftl b5 40)) (Z.shiftl b6 48))
        (Z.shiftl b7 56) in
    let value :=
      if negb (Z.land unsigned_value (Z.shiftl 1 63) =? 0)
      then unsigned_value - Z.shiftl 1 64
      else unsigned_value in
    Ok ((n + 8)%nat, value).

End Port.

(** ** Vocabulary of the properties *)

Import Bstd.

(** [int.bit_length()]: the number of bits of the absolute value. *)
Definition bit_length (v : Z) : Z :=
  match v with
  | Z0 => 0
  | Zpos p | Zneg p => Z.pos (Pos.size p)
  end.

(** The longest prefix whose elements satisfy [p]. *)
Fixpoint take_while {A} (p : A -> bool) (l : list A) : list A :=
  match l with
  | [] => []
  | a :: l' => if p a then a :: take_while p l' else []
  end.

(** The continuation bit of a byte is its bit 7 (mask [0x80]). *)
Definition continuation_bit (c : byte) : bool := Z.testbit (int_of_byte c) 7.

(** The value a varint denotes: byte number [i] contributes its low seven
    bits at bit offset [7 * i]; [i] is the number of the first byte of
    [bs]. *)
Fixpoint assemble (bs : list byte) (i : nat) : Z :=
  match bs with
  | [] => 0
  | c :: bs' =>
      Z.lor (Z.shiftl (Z.land (int_of_byte c) 0x7F) (7 * Z.of_nat i))
            (assemble bs' (S i))
  end.

(** What [unmarshal_uint] is specified to do, read off the ten-byte window
    of the buffer that starts at [n]: [run] is the run of continuation bytes
    the window starts with, and the byte after it, if the window has one,
    terminates the varint. *)
Definition unmarshal_uint_spec (n : nat) (buf : list byte) : result (nat * Z) :=
  let window := take 10 (drop n buf) in
  let run := take_while continuation_bit window in
  let k := length run in
  match window !! k with
  | None =>
      if Nat.eqb k 10 then Raise (BencException OVERFLOW)
      else Raise (BencException BUF_TOO_SMALL)
  | Some t =>
      if Nat.eqb k 9 && (1 <? int_of_byte t) then Raise (BencException OVERFLOW)
      else Ok ((n + k + 1)%nat, assemble (run ++ [t]) 0)
  end.

(** The bytes [marshal_uint] writes for a value of [k] seven-bit groups:
    every group but the last carries the continuation bit. *)
Fixpoint varint_digits (k : nat) (v : Z) : list Z :=
  match k with
  | O => []
  | S k' =>
      match k' with
      | O => [Z.land v 0x7F]
      | S _ => Z.lor (Z.land v 0x7F) 0x80 :: varint_digits k' (Z.shiftr v 7)
      end
  end.

(** [count] calls of the element unmarshaler [u] on [b], one after the
    other from offset [n], each starting where the one before stopped;
    [items] lists what they returned, in order, and [n'] is where the last
    one stopped. *)
Inductive unmarshal_calls {T} (u : @UnmarshalFunc T) (b : list byte)
  : nat -> nat -> list T -> nat -> Prop :=
| calls_done n : unmarshal_calls u b 0 n [] n
| calls_next count n n1 item items n' :
    u n b = Ok (n1, item) ->
    unmarshal_calls u b count n1 items n' ->
    unmarshal_calls u b (S count) n (item :: items) n'.

(** An element unmarshaler that moves forward and whose result is decided
    by the bytes in front of the offset it returns. *)
Definition local_unmarshaler {T} (u : @UnmarshalFunc T) : Prop :=
  forall n b n' item, u n b = Ok (n', item) ->
    (n <= n')%nat /\
    forall b2, take n' b2 = take n' b -> u n b2 = Ok (n', item).

(** An element marshaler and an element skipper that match: the marshaler
    writes forward from its offset into a buffer of unchanged length, and
    the skipper steps over what the marshaler wrote, whatever follows. *)
Definition matching_codec {T} (marshaler : @MarshalFunc T) (skipper : SkipFunc)
  : Prop :=
  forall n b item n' b', marshaler n b item = Ok (n', b') ->
    (n <= n')%nat /\ length b' = length b /\ take n b' = take n b /\
    forall buf, take n' buf = take n' b' -> skipper n buf = Ok n'.

(** [k] continuation bytes from offset [n] on. *)
Definition continues (buf : list byte) (n k : nat) : Prop :=
  forall i, (i < k)%nat ->
    exists c, buf !! (n + i)%nat = Some c /\ continuation_bit c = true.

(** The offset of what an unmarshaler returns. *)
Definition offset_of {A} (r : result (nat * A)) : result nat :=
  '(n, _) ← r; Ok n.

(** A marshal call that wrote the bytes from [n] up to [n'] and nothing
    else. *)
Definition writes_exactly (n n' : nat) (b b' : list byte) : Prop :=
  length b' = length b /\ take n b' = take n b /\ drop n' b' = drop n' b.

(** The four operations of a kind of value. *)
Record codec (T : Type) : Type := Codec {
  c_size : @SizeFunc T;
  c_marshal : @MarshalFunc T;
  c_unmarshal : @UnmarshalFunc T;
  c_skip : SkipFunc
}.
Arguments Codec {T} _ _ _ _.
Arguments c_size {T} _ _.
Arguments c_marshal {T} _ _ _ _.
Arguments c_unmarshal {T} _ _ _.
Arguments c_skip {T} _ _ _.

(** The contract between the four operations, on the values that satisfy
    [P]: the size is the number of bytes that marshaling writes; marshaling
    succeeds exactly when that many bytes are left in the buffer, writes
    them and nothing else, and raises [BUF_TOO_SMALL] otherwise; and on any
    buffer that holds the bytes written, whatever follows them,
    unmarshaling returns the value and skipping steps over it, both ending
    where marshaling ended. *)
Definition lawful {T} (P : T -> Prop) (c : codec T) : Prop :=
  forall item, P item ->
    0 <= c_size c item /\
    forall n b,
      let n' := (n + Z.to_nat (c_size c item))%nat in
      ((n' <= length b)%nat ->
       exists b',
         c_marshal c n b item = Ok (n', b') /\
         writes_exactly n n' b b' /\
         forall buf, take n' buf = take n' b' ->
           c_unmarshal c n buf = Ok (n', item) /\ c_skip c n buf = Ok n') /\
      ((length b < n')%nat ->
       c_marshal c n b item = Raise (BencException BUF_TOO_SMALL)).

(** A skipper that does on every buffer what the unmarshaler does, the
    value apart. *)
Definition skip_agrees {T} (skipper : SkipFunc) (unmarshaler : @UnmarshalFunc T)
  : Prop :=
  forall n b, skipper n b = offset_of (unmarshaler n b).

Definition uint_codec : codec Z :=
  Codec size_uint marshal_uint unmarshal_uint skip_varint.

Definition int_codec : codec Z :=
  Codec size_int marshal_int unmarshal_int skip_varint.

Definition byte_codec : codec Z :=
  Codec (fun _ => size_byte) marshal_byte unmarshal_byte skip_byte.

Definition bool_codec : codec bool :=
  Codec (fun _ => size_bool) marshal_bool unmarshal_bool skip_bool.

Definition bytes_codec : codec (list byte) :=
  Codec size_bytes marshal_bytes unmarshal_bytes skip_bytes.

(** [size_string] raises what [str.encode] raises; as the size of a
    codec it is read on the strings that can be encoded. *)
Definition string_codec : codec str :=
  Codec (fun s => match size_string s with Ok z => z | Raise _ => 0 end)
        marshal_string unmarshal_string skip_string.

Definition slice_codec {T} (c : codec T) : codec (list T) :=
  Codec (fun slice_data => size_slice slice_data (c_size c))
        (fun n b slice_data => marshal_slice n b slice_data (c_marshal c))
        (fun n b => unmarshal_slice n b (c_unmarshal c))
        (fun n b => skip_slice n b (c_skip c)).


Definition optional_codec {T} (c : codec T) : codec (option T) :=
  Codec (fun value => size_optional value (c_size c))
        (fun n b value => marshal_optional n b value (c_marshal c))
        (fun n b => unmarshal_optional n b (c_unmarshal c))
        (fun n b => skip_optional n b (c_skip c)).

(** A key and the value after it, as one element: what the loops of the
    map functions handle per turn. *)
Definition pair_codec {K V} (kc : codec K) (vc : codec V) : codec (K * V) :=
  Codec (fun '(k, v) => c_size kc k + c_size vc v)
        (fun n b '(k, v) =>
           '(n, b) ← c_marshal kc n b k; c_marshal vc n b v)
        (fun n b =>
           '(n, k) ← c_unmarshal kc n b;
           '(n, v) ← c_unmarshal vc n b;
           Ok (n, (k, v)))
        (fun n b => n ← c_skip kc n b; c_skip vc n b).

(** The [dict] that assigning the pairs in order builds. *)
Definition dict_of_pairs {K V} `{EqDecision K} (pairs : list (K * V))
  : list (K * V) :=
  fold_left (fun d '(k, v) => dict_setitem d k v) pairs [].

(** The value of the first pair with key [key]. *)
Fixpoint assoc {K V} `{EqDecision K} (key : K) (pairs : list (K * V))
  : option V :=
  match pairs with
  | [] => None
  | (k, v) :: pairs' => if decide (k = key) then Some v else assoc key pairs'
  end.

(** A string that [str.encode] accepts and whose encoding has a length
    that fits a varint. *)
Definition encodable (s : str) : Prop :=
  exists encoded_s, str_encode s = Ok encoded_s /\
                    Z.of_nat (length encoded_s) < 2 ^ 64.

(** The sizes of the elements, added up. *)
Definition total_size {T} (sizer : @SizeFunc T) (slice_data : list T) : Z :=
  foldr (fun item total => sizer item + total) 0 slice_data.

(** The values of a width and signedness: what [int.to_bytes] accepts. *)
Definition fits (width : nat) (signed : bool) (v : Z) : Prop :=
  let bits := 8 * Z.of_nat width in
  if signed then - 2 ^ (bits - 1) <= v < 2 ^ (bits - 1) else 0 <= v < 2 ^ bits.

(** The two's complement value of the low 64 bits. *)
Definition wrap_int64 (v : Z) : Z := (v + 2 ^ 63) mod 2 ^ 64 - 2 ^ 63.

(** The four bytes from [i] on are the terminator. *)
Definition terminator_at (b : list byte) (i : nat) : Prop :=
  getslice b i (i + 4) = [x01; x01; x01; x01].

(** ** Properties *)

(** *** Bytes *)

Lemma int_of_byte_range (c : byte) : 0 <= int_of_byte c < 256.
Proof.
  unfold int_of_byte. pose proof (Byte.to_N_bounded c). lia.
Qed.

Lemma byte_of_int_ok (z : Z) :
  0 <= z < 256 -> exists c, byte_of_int z = Ok c /\ int_of_byte c = z.
Proof.
  intros Hz. unfold byte_of_int.
  replace ((0 <=? z) && (z <? 256)) with true
    by (symmetry; apply andb_true_iff; split; [apply Z.leb_le | apply Z.ltb_lt]; lia).
  destruct (Byte.of_N (Z.to_N z)) as [c|] eqn:Hc.
  - exists c. split; [reflexivity|].
    unfold int_of_byte. rewrite (Byte.to_of_N _ Hc). lia.
  - apply Byte.of_N_None_iff in Hc. lia.
Qed.

(** *** [size_uint] *)

Lemma size_uint_while_ge v size :
  0x80 <= v -> size_uint_while v size = size_uint_while (Z.shiftr v 7) (size + 1).
Proof.
  intros Hv. rewrite (size_uint_while_equation_1 v).
  destruct (decide (128 <= v)); [reflexivity | contradiction].
Qed.

Lemma size_uint_while_lt v size :
  v < 0x80 -> size_uint_while v size = size + 1.
Proof.
  intros Hv. rewrite (size_uint_while_equation_1 v).
  destruct (decide (128 <= v)); [lia | reflexivity].
Qed.

Lemma shiftr7_lt v : 0x80 <= v -> 0 <= Z.shiftr v 7 < v.
Proof.
  intros Hv. rewrite Z.shiftr_div_pow2 by lia. split.
  - apply Z.div_pos; lia.
  - apply Z.div_lt; lia.
Qed.

(** Induction along the loop: from [v] to [v >> 7] while [v >= 0x80]. *)
Lemma varint_ind (P : Z -> Prop) :
  (forall v, v < 0x80 -> P v) ->
  (forall v, 0x80 <= v -> P (Z.shiftr v 7) -> P v) ->
  forall v, P v.
Proof.
  intros Hbase Hstep v.
  destruct (Z_lt_le_dec v 0x80) as [Hlt|Hge]; [auto|].
  assert (H0 : 0 <= v) by lia. clear Hge. revert v H0.
  apply (Z_lt_induction P). intros v IH.
  destruct (Z_lt_le_dec v 0x80) as [Hlt|Hge]; [auto|].
  apply Hstep; [exact Hge|]. apply IH. apply shiftr7_lt, Hge.
Qed.

Lemma size_uint_while_acc v size :
  size_uint_while v size = size + size_uint v.
Proof.
  revert size. induction v as [v Hv | v Hv IH] using varint_ind; intros size.
  - unfold size_uint. rewrite !size_uint_while_lt by lia. lia.
  - unfold size_uint. rewrite !(size_uint_while_ge v) by lia.
    rewrite (IH (size + 1)), (IH (0 + 1)). lia.
Qed.

Lemma size_uint_ge v : 0x80 <= v -> size_uint v = 1 + size_uint (Z.shiftr v 7).
Proof.
  intros Hv. unfold size_uint at 1. rewrite size_uint_while_ge by lia.
  apply size_uint_while_acc.
Qed.

Lemma size_uint_lt v : v < 0x80 -> size_uint v = 1.
Proof. intros Hv. unfold size_uint. now rewrite size_uint_while_lt by lia. Qed.

Lemma size_uint_pos v : 1 <= size_uint v.
Proof.
  induction v as [v Hv | v Hv IH] using varint_ind.
  - rewrite size_uint_lt; lia.
  - rewrite size_uint_ge; lia.
Qed.

(** [size_uint v] is the number of 7-bit groups of [v]. *)
Lemma size_uint_bounds v :
  1 <= v -> 2 ^ (7 * (size_uint v - 1)) <= v < 2 ^ (7 * size_uint v).
Proof.
  induction v as [v Hv | v Hv IH] using varint_ind; intros H1.
  - rewrite size_uint_lt by lia. simpl. lia.
  - pose proof (shiftr7_lt v Hv) as Hs.
    pose proof (size_uint_pos (Z.shiftr v 7)) as Hp.
    assert (Hq : 1 <= Z.shiftr v 7).
    { rewrite Z.shiftr_div_pow2 by lia. apply Z.div_le_lower_bound; lia. }
    specialize (IH Hq). rewrite size_uint_ge by lia.
    set (k := size_uint (Z.shiftr v 7)) in *.
    rewrite Z.shiftr_div_pow2 in IH by lia.
    replace (7 * (1 + k - 1)) with (7 * (k - 1) + 7) by lia.
    replace (7 * (1 + k)) with (7 * k + 7) by lia.
    rewrite !Z.pow_add_r by lia.
    change (2 ^ 7) with 128 in *.
    pose proof (Z.div_mod v 128 ltac:(lia)) as Hdm.
    pose proof (Z.mod_pos_bound v 128 ltac:(lia)) as Hm.
    nia.
Qed.

(** *** [bit_length] and the closed form of [size_uint] *)

Lemma bit_length_bounds v :
  1 <= v -> 2 ^ (bit_length v - 1) <= v < 2 ^ bit_length v.
Proof.
  destruct v as [|p|p]; try lia. intros _. simpl bit_length.
  pose proof (Pos.size_gt p) as Hgt. pose proof (Pos.size_le p) as Hle.
  apply Pos2Z.pos_lt_pos in Hgt. apply Pos2Z.pos_le_pos in Hle.
  rewrite Pos2Z.inj_pow in Hgt, Hle.
  change (Z.pos p~0) with (2 * Z.pos p) in Hle.
  replace (Z.pos (Pos.size p)) with (Z.pos (Pos.size p) - 1 + 1) in Hle at 1 by lia.
  rewrite Z.pow_add_r in Hle by lia. change (2 ^ 1) with 2 in Hle.
  split; [lia | exact Hgt].
Qed.

Lemma size_uint_bit_length v :
  1 <= v -> size_uint v = 1 + (bit_length v - 1) / 7.
Proof.
  intros Hv.
  pose proof (size_uint_bounds v Hv) as [Hlo Hhi].
  pose proof (bit_length_bounds v Hv) as [Blo Bhi].
  pose proof (size_uint_pos v) as Hk.
  set (k := size_uint v) in *. set (bl := bit_length v) in *.
  assert (Hbl : 1 <= bl).
  { subst bl. destruct v; simpl; lia. }
  assert (H1 : 7 * (k - 1) < bl).
  { apply (Z.pow_lt_mono_r_iff 2); lia. }
  assert (H2 : bl - 1 < 7 * k).
  { apply (Z.pow_lt_mono_r_iff 2); lia. }
  assert (Hq : (bl - 1) / 7 = k - 1).
  { symmetry. apply (Z.div_unique _ _ _ (bl - 1 - 7 * (k - 1))); lia. }
  lia.
Qed.

(** *** ZigZag *)

Lemma shiftl1 x : Z.shiftl x 1 = 2 * x.
Proof. rewrite Z.shiftl_mul_pow2 by lia. change (2 ^ 1) with 2. lia. Qed.

Lemma shiftr1 x : Z.shiftr x 1 = x / 2.
Proof. rewrite Z.shiftr_div_pow2 by lia. reflexivity. Qed.

Lemma land1 x : Z.land x 1 = x mod 2.
Proof. change 1 with (Z.ones 1) at 1. now rewrite Z.land_ones by lia. Qed.

Lemma encode_zigzag_arith v :
  encode_zigzag v = if v <? 0 then 2 * Z.abs v - 1 else 2 * v.
Proof. unfold encode_zigzag. now rewrite !shiftl1. Qed.

Lemma decode_zigzag_arith u :
  decode_zigzag u = if u mod 2 =? 0 then u / 2 else - (u / 2) - 1.
Proof.
  unfold decode_zigzag. rewrite land1, !shiftr1.
  now destruct (u mod 2 =? 0).
Qed.

Lemma decode_encode_zigzag v : decode_zigzag (encode_zigzag v) = v.
Proof.
  rewrite decode_zigzag_arith, encode_zigzag_arith.
  destruct (Z.ltb_spec v 0).
  - destruct (Z.eqb_spec ((2 * Z.abs v - 1) mod 2) 0) as [E|E];
      Z.div_mod_to_equations; lia.
  - destruct (Z.eqb_spec ((2 * v) mod 2) 0) as [E|E];
      Z.div_mod_to_equations; lia.
Qed.

Lemma encode_decode_zigzag u : 0 <= u -> encode_zigzag (decode_zigzag u) = u.
Proof.
  intros Hu. rewrite decode_zigzag_arith, encode_zigzag_arith.
  destruct (Z.eqb_spec (u mod 2) 0) as [E|E].
  - destruct (Z.ltb_spec (u / 2) 0); Z.div_mod_to_equations; lia.
  - destruct (Z.ltb_spec (- (u / 2) - 1) 0); Z.div_mod_to_equations; lia.
Qed.

(** C4: on the signed 64-bit range [encode_zigzag v] is [2 * |v| - 1] for
    negative [v] and [2 * v] otherwise, lies in [[0, 2^64)], and is undone
    by [decode_zigzag]; every [u] in [[0, 2^64)] decodes into the signed
    range and is the code of what it decodes to; 0, -1, 1, -2 are encoded
    as 0, 1, 2, 3. *)
Theorem zigzag_bijection :
  (forall v, - 2 ^ 63 <= v < 2 ^ 63 ->
     encode_zigzag v = (if v <? 0 then 2 * Z.abs v - 1 else 2 * v) /\
     0 <= encode_zigzag v < 2 ^ 64 /\
     decode_zigzag (encode_zigzag v) = v) /\
  (forall u, 0 <= u < 2 ^ 64 ->
     - 2 ^ 63 <= decode_zigzag u < 2 ^ 63 /\
     encode_zigzag (decode_zigzag u) = u) /\
  encode_zigzag 0 = 0 /\ encode_zigzag (-1) = 1 /\
  encode_zigzag 1 = 2 /\ encode_zigzag (-2) = 3.
Proof.
  split; [|split; [|repeat split]].
  - intros v Hv. split; [apply encode_zigzag_arith|].
    split; [|apply decode_encode_zigzag].
    rewrite encode_zigzag_arith. destruct (Z.ltb_spec v 0); lia.
  - intros u Hu. split; [|apply encode_decode_zigzag; lia].
    rewrite decode_zigzag_arith.
    destruct (Z.eqb_spec (u mod 2) 0); Z.div_mod_to_equations; lia.
Qed.

(** *** [skip_varint] and [unmarshal_uint] walk the same bytes *)

Lemma continuation_bit_ge c : continuation_bit c = (0x80 <=? int_of_byte c).
Proof. destruct c; reflexivity. Qed.

Lemma land_0x7F_small z : 0 <= z < 0x80 -> Z.land z 0x7F = z.
Proof.
  intros Hz. change 0x7F with (Z.ones 7). rewrite Z.land_ones by lia.
  apply Z.mod_small. change (2 ^ 7) with 128. lia.
Qed.

Lemma len_ge_drop (buf : list byte) (i : nat) :
  (Z.of_nat i >=? len buf) = true -> drop i buf = [].
Proof.
  rewrite Z.geb_leb. intros H%Z.leb_le. unfold len in H.
  apply drop_ge. lia.
Qed.

Lemma len_lt_drop (buf : list byte) (i : nat) :
  (Z.of_nat i >=? len buf) = false ->
  exists c, buf !! i = Some c /\ drop i buf = c :: drop (S i) buf.
Proof.
  rewrite Z.geb_leb. intros H%Z.leb_gt. unfold len in H.
  destruct (lookup_lt_is_Some_2 buf i) as [c Hc]; [lia|].
  exists c. split; [exact Hc|]. now apply drop_S.
Qed.

Lemma skip_varint_for_agrees range n buf x s :
  skip_varint_for range n buf =
  match unmarshal_uint_for range n buf x s with
  | Ok (n', _) => Ok n'
  | Raise e => Raise e
  end.
Proof.
  revert x s. induction range as [|i range IH]; intros x s; simpl; [reflexivity|].
  destruct (Z.of_nat (n + i) >=? len buf); [reflexivity|].
  destruct (getitem buf (n + i)) as [c|e]; [|reflexivity].
  destruct (c <? 128); [|apply IH].
  destruct (_ && _); reflexivity.
Qed.

(** C3: on every buffer and offset, [skip_varint] returns the offset that
    [unmarshal_uint] returns, and raises the exception that [unmarshal_uint]
    raises. *)
Theorem skip_varint_agrees_unmarshal_uint (n : nat) (buf : list byte) :
  skip_varint n buf =
  match unmarshal_uint n buf with
  | Ok (n', _) => Ok n'
  | Raise e => Raise e
  end.
Proof. apply skip_varint_for_agrees. Qed.

(** The loop, entered at index [k] with [r] indices left, against the
    specification read on the rest of the window. *)
Lemma unmarshal_uint_for_window (n : nat) (buf : list byte) (r : nat) :
  forall (k : nat) (x : Z), (k + r = 10)%nat ->
  unmarshal_uint_for (seq k r) n buf x (7 * Z.of_nat k) =
  let window := take r (drop (n + k) buf) in
  let run := take_while continuation_bit window in
  let m := length run in
  match window !! m with
  | None =>
      if Nat.eqb (k + m) 10 then Raise (BencException OVERFLOW)
      else Raise (BencException BUF_TOO_SMALL)
  | Some t =>
      if Nat.eqb (k + m) 9 && (1 <? int_of_byte t)
      then Raise (BencException OVERFLOW)
      else Ok ((n + (k + m) + 1)%nat, Z.lor x (assemble (run ++ [t]) k))
  end.
Proof.
  induction r as [|r IH]; intros k x Hk; cbn zeta.
  - simpl. rewrite Nat.add_0_r in *. rewrite Hk. reflexivity.
  - cbn [seq unmarshal_uint_for].
    destruct (Z.of_nat (n + k) >=? len buf) eqn:Hlen.
    + rewrite (len_ge_drop _ _ Hlen). simpl. rewrite Nat.add_0_r.
      destruct (Nat.eqb_spec k 10); [lia | reflexivity].
    + destruct (len_lt_drop _ _ Hlen) as (c & Hc & Hdrop).
      rewrite Hdrop. unfold getitem. rewrite Hc.
      cbn [take take_while]. rewrite continuation_bit_ge.
      pose proof (int_of_byte_range c) as Hrange.
      destruct (Z.ltb_spec (int_of_byte c) 128) as [Hlt|Hge].
      * replace (128 <=? int_of_byte c) with false by (symmetry; apply Z.leb_gt; lia).
        cbn [length lookup list_lookup app assemble]. rewrite Nat.add_0_r.
        rewrite Z.gtb_ltb. change (MAX_VARINT_LEN - 1)%nat with 9%nat.
        destruct (Nat.eqb k 9 && (1 <? int_of_byte c)); [reflexivity|].
        rewrite land_0x7F_small, Z.lor_0_r by lia. reflexivity.
      * replace (128 <=? int_of_byte c) with true by (symmetry; apply Z.leb_le; lia).
        replace (7 * Z.of_nat k + 7) with (7 * Z.of_nat (S k)) by lia.
        rewrite IH by lia. cbn zeta.
        replace (n + S k)%nat with (S (n + k)) by lia.
        cbn [length lookup list_lookup app assemble].
        set (run := take_while continuation_bit (take r (drop (S (n + k)) buf))).
        replace (S k + length run)%nat with (k + S (length run))%nat by lia.
        destruct (take r (drop (S (n + k)) buf) !! length run) as [t|]; [|reflexivity].
        destruct (Nat.eqb (k + S (length run)) 9 && (1 <? int_of_byte t)); [reflexivity|].
        now rewrite Z.lor_assoc.
Qed.

Lemma unmarshal_uint_refines_spec (n : nat) (buf : list byte) :
  unmarshal_uint n buf = unmarshal_uint_spec n buf.
Proof.
  unfold unmarshal_uint, unmarshal_uint_spec.
  change (seq 0 MAX_VARINT_LEN) with (seq 0 10).
  change 0 with (7 * Z.of_nat 0) at 2.
  rewrite unmarshal_uint_for_window by reflexivity. cbn zeta.
  rewrite Nat.add_0_r. simpl Nat.add.
  destruct (take 10 (drop n buf) !! _) as [t|]; [|reflexivity].
  destruct (_ && _); [reflexivity|]. now rewrite Z.lor_0_l.
Qed.

(** *** The bytes [marshal_uint] writes, and reading them back *)

Lemma byte_cases (P : Z -> Prop) :
  (forall c : byte, P (int_of_byte c)) -> forall z, 0 <= z < 256 -> P z.
Proof.
  intros H z Hz. destruct (byte_of_int_ok z Hz) as (c & _ & <-). apply H.
Qed.

Lemma land_0x7F_range v : 0 <= Z.land v 0x7F < 0x80.
Proof.
  change 0x7F with (Z.ones 7). rewrite Z.land_ones by lia.
  change (2 ^ 7) with 128. apply Z.mod_pos_bound. lia.
Qed.

Lemma continuation_digit v :
  let d := Z.lor (Z.land v 0x7F) 0x80 in
  0x80 <= d < 256 /\ Z.land d 0x7F = Z.land v 0x7F.
Proof.
  pose proof (land_0x7F_range v) as Hr. cbn zeta.
  generalize dependent (Z.land v 0x7F). intros m Hm.
  assert (Hm' : 0 <= m < 256) by lia. revert Hm.
  pattern m. apply byte_cases; [|exact Hm'].
  intros c. destruct c; vm_compute; intuition congruence.
Qed.

Lemma low_high_groups v : Z.lor (Z.land v 0x7F) (Z.shiftl (Z.shiftr v 7) 7) = v.
Proof.
  apply Z.bits_inj'. intros i Hi.
  rewrite Z.lor_spec, Z.land_spec. change 0x7F with (Z.ones 7).
  rewrite Z.testbit_ones_nonneg by lia.
  destruct (Z.ltb_spec i 7).
  - rewrite Z.shiftl_spec_low by lia. now rewrite andb_true_r, orb_false_r.
  - rewrite Z.shiftl_spec, Z.shiftr_spec by lia.
    rewrite andb_false_r. simpl. f_equal. lia.
Qed.

Lemma size_uint_nat_ge v :
  0x80 <= v ->
  Z.to_nat (size_uint v) = S (Z.to_nat (size_uint (Z.shiftr v 7))) /\
  exists k, Z.to_nat (size_uint (Z.shiftr v 7)) = S k.
Proof.
  intros Hv. pose proof (size_uint_pos (Z.shiftr v 7)) as Hp.
  rewrite size_uint_ge by lia. split; [lia|].
  exists (Z.to_nat (size_uint (Z.shiftr v 7) - 1)). lia.
Qed.

Lemma varint_digits_ge v :
  0x80 <= v ->
  varint_digits (Z.to_nat (size_uint v)) v =
  Z.lor (Z.land v 0x7F) 0x80
    :: varint_digits (Z.to_nat (size_uint (Z.shiftr v 7))) (Z.shiftr v 7).
Proof.
  intros Hv. destruct (size_uint_nat_ge v Hv) as (-> & k & Hk).
  cbn [varint_digits]. now rewrite Hk.
Qed.

Lemma varint_digits_lt v :
  v < 0x80 -> varint_digits (Z.to_nat (size_uint v)) v = [Z.land v 0x7F].
Proof. intros Hv. now rewrite size_uint_lt by lia. Qed.

Lemma marshal_uint_while_ge v i b :
  0x80 <= v ->
  marshal_uint_while v i b =
  if Z.of_nat i >=? len b then Raise (BencException BUF_TOO_SMALL)
  else match setitem b i (Z.lor (Z.land v 0x7F) 0x80) with
       | Ok b' => marshal_uint_while (Z.shiftr v 7) (i + 1) b'
       | Raise e => Raise e
       end.
Proof.
  intros Hv. rewrite (marshal_uint_while_equation_1 v).
  destruct (decide (128 <= v)); [reflexivity | contradiction].
Qed.

Lemma marshal_uint_while_lt v i b :
  v < 0x80 ->
  marshal_uint_while v i b =
  if Z.of_nat i >=? len b then Raise (BencException BUF_TOO_SMALL)
  else b' ← setitem b i (Z.land v 0x7F); Ok ((i + 1)%nat, b').
Proof.
  intros Hv. rewrite (marshal_uint_while_equation_1 v).
  destruct (decide (128 <= v)); [lia | reflexivity].
Qed.

Lemma setitem_ok (b : list byte) (i : nat) (z : Z) :
  (i < length b)%nat -> 0 <= z < 256 ->
  exists c, int_of_byte c = z /\
            setitem b i z = Ok (take i b ++ c :: drop (S i) b).
Proof.
  intros Hi Hz. destruct (byte_of_int_ok z Hz) as (c & Hc & Hint).
  exists c. split; [exact Hint|]. unfold setitem.
  destruct (decide (i < length b)%nat); [|lia].
  rewrite Hc. cbn. f_equal. apply insert_take_drop. exact Hi.
Qed.

Lemma len_gt (b : list byte) (i : nat) :
  (i < length b)%nat -> (Z.of_nat i >=? len b) = false.
Proof. intros Hi. rewrite Z.geb_leb. apply Z.leb_gt. unfold len. lia. Qed.

(** [marshal_uint] writes the digits of [v] in place, given the room. *)
Lemma marshal_uint_while_digits v :
  forall (i : nat) (b : list byte),
  (i + Z.to_nat (size_uint v) <= length b)%nat ->
  exists cs,
    int_of_byte <$> cs = varint_digits (Z.to_nat (size_uint v)) v /\
    marshal_uint_while v i b =
    Ok ((i + Z.to_nat (size_uint v))%nat,
        take i b ++ cs ++ drop (i + Z.to_nat (size_uint v)) b).
Proof.
  induction v as [v Hv | v Hv IH] using varint_ind; intros i b Hroom.
  - rewrite varint_digits_lt, marshal_uint_while_lt by lia.
    rewrite size_uint_lt in * by lia. change (Z.to_nat 1) with 1%nat in *.
    rewrite len_gt by lia.
    destruct (setitem_ok b i (Z.land v 0x7F)) as (c & Hc & ->); [lia | |].
    { pose proof (land_0x7F_range v). lia. }
    exists [c]. cbn. rewrite Hc. split; [reflexivity|].
    now rewrite Nat.add_1_r.
  - rewrite varint_digits_ge, marshal_uint_while_ge by lia.
    destruct (size_uint_nat_ge v Hv) as (Hsz & _). rewrite Hsz in *.
    rewrite len_gt by lia.
    destruct (setitem_ok b i (Z.lor (Z.land v 0x7F) 0x80)) as (c & Hc & ->);
      [lia | pose proof (continuation_digit v); cbn zeta in *; lia |].
    set (b1 := take i b ++ c :: drop (S i) b).
    assert (Hlen : length b1 = length b).
    { subst b1. rewrite length_app, length_take. cbn [length].
      rewrite length_drop. lia. }
    destruct (IH (i + 1)%nat b1) as (cs & Hcs & ->); [lia|].
    exists (c :: cs). split; [cbn; now rewrite Hc, Hcs|].
    f_equal. f_equal; [lia|].
    assert (Hti : length (take i b) = i) by (rewrite length_take; lia).
    subst b1. replace (i + 1)%nat with (length (take i b) + 1)%nat at 1 by lia.
    rewrite take_app_add'  by reflexivity. cbn [take].
    rewrite take_0. rewrite <- app_assoc. cbn [app]. do 2 f_equal.
    replace (i + 1 + Z.to_nat (size_uint (Z.shiftr v 7)))%nat
      with (length (take i b) + S (Z.to_nat (size_uint (Z.shiftr v 7))))%nat by lia.
    rewrite drop_app_add' by reflexivity. cbn [drop].
    rewrite drop_drop. do 2 f_equal. lia.
Qed.

Lemma drop_cons_inv (buf : list byte) (i : nat) c tl :
  drop i buf = c :: tl ->
  (Z.of_nat i >=? len buf) = false /\ getitem buf i = Ok (int_of_byte c) /\
  drop (S i) buf = tl.
Proof.
  intros Hd.
  assert (Hc : buf !! i = Some c).
  { rewrite <- (Nat.add_0_r i), <- lookup_drop, Hd. reflexivity. }
  split; [|split].
  - apply len_gt. now apply lookup_lt_Some in Hc.
  - unfold getitem. now rewrite Hc.
  - rewrite (drop_S _ _ _ Hc) in Hd. congruence.
Qed.

(** The loop of [unmarshal_uint], entered at index [j], reads back the
    digits of [v] when they end within the ten bytes allowed. *)
Lemma unmarshal_uint_for_digits (n : nat) (buf : list byte) v :
  0 <= v ->
  forall (j : nat) (x : Z) (cs rest : list byte),
  int_of_byte <$> cs = varint_digits (Z.to_nat (size_uint v)) v ->
  drop (n + j) buf = cs ++ rest ->
  (j + Z.to_nat (size_uint v) <= 10)%nat ->
  ((j + Z.to_nat (size_uint v) = 10)%nat ->
   Z.shiftr v (7 * (size_uint v - 1)) <= 1) ->
  unmarshal_uint_for (seq j (10 - j)) n buf x (7 * Z.of_nat j) =
  Ok ((n + j + Z.to_nat (size_uint v))%nat,
      Z.lor x (Z.shiftl v (7 * Z.of_nat j))).
Proof.
  induction v as [v Hv | v Hv IH] using varint_ind;
    intros H0 j x cs rest Hcs Hdrop Hj Hlast.
  - rewrite varint_digits_lt in Hcs by lia.
    rewrite size_uint_lt in * by lia. change (Z.to_nat 1) with 1%nat in *.
    destruct cs as [|c [|? ?]]; try discriminate. cbn in Hcs, Hdrop.
    injection Hcs as Hc. rewrite land_0x7F_small in Hc by lia.
    destruct (drop_cons_inv _ _ _ _ Hdrop) as (Hlen & Hget & _).
    replace (10 - j)%nat with (S (9 - j)) by lia. cbn [seq unmarshal_uint_for].
    rewrite Hlen, Hget, Hc.
    replace (v <? 128) with true by (symmetry; apply Z.ltb_lt; lia).
    replace (Nat.eqb j (MAX_VARINT_LEN - 1) && (v >? 1)) with false; [reflexivity|].
    symmetry. apply andb_false_iff. change (MAX_VARINT_LEN - 1)%nat with 9%nat.
    destruct (Nat.eqb_spec j 9) as [->|]; [right | now left].
    rewrite Z.gtb_ltb. apply Z.ltb_ge.
    rewrite Z.shiftr_0_r in Hlast. apply Hlast. reflexivity.
  - rewrite varint_digits_ge in Hcs by lia.
    destruct (size_uint_nat_ge v Hv) as (Hsz & _). rewrite Hsz in *.
    destruct cs as [|c cs]; [discriminate|]. cbn in Hcs, Hdrop.
    injection Hcs as Hc Hcs.
    destruct (drop_cons_inv _ _ _ _ Hdrop) as (Hlen & Hget & Hdrop').
    replace (10 - j)%nat with (S (10 - S j)) by lia. cbn [seq unmarshal_uint_for].
    rewrite Hlen, Hget, Hc.
    destruct (continuation_digit v) as [Hd Hland]. cbn zeta in Hd, Hland.
    replace (_ <? 128) with false by (symmetry; apply Z.ltb_ge; lia).
    rewrite Hland.
    replace (7 * Z.of_nat j + 7) with (7 * Z.of_nat (S j)) by lia.
    pose proof (shiftr7_lt v Hv) as Hs.
    rewrite (IH ltac:(lia) (S j) _ cs rest Hcs); [| | lia |].
    + f_equal. f_equal; [lia|].
      rewrite <- Z.lor_assoc. f_equal.
      replace (7 * Z.of_nat (S j)) with (7 + 7 * Z.of_nat j) by lia.
      rewrite <- Z.shiftl_shiftl by lia. rewrite <- Z.shiftl_lor.
      now rewrite low_high_groups.
    + rewrite <- Hdrop'. f_equal. lia.
    + intros H10. pose proof (size_uint_pos (Z.shiftr v 7)).
      rewrite Z.shiftr_shiftr by lia.
      rewrite (size_uint_ge v Hv) in Hlast.
      replace (7 + 7 * (size_uint (Z.shiftr v 7) - 1))
        with (7 * (1 + size_uint (Z.shiftr v 7) - 1)) by lia.
      apply Hlast. lia.
Qed.

(** The same loop runs into [OVERFLOW] when the digits of [v] do not end
    within ten bytes, or end at the tenth with a value above 1. *)
Lemma unmarshal_uint_for_overflow (n : nat) (buf : list byte) v :
  0 <= v ->
  forall (j : nat) (x s : Z) (cs rest : list byte),
  int_of_byte <$> cs = varint_digits (Z.to_nat (size_uint v)) v ->
  drop (n + j) buf = cs ++ rest ->
  (j <= 10)%nat ->
  (10 < j + Z.to_nat (size_uint v))%nat \/
  ((j + Z.to_nat (size_uint v) = 10)%nat /\
   1 < Z.shiftr v (7 * (size_uint v - 1))) ->
  unmarshal_uint_for (seq j (10 - j)) n buf x s =
  Raise (BencException OVERFLOW).
Proof.
  induction v as [v Hv | v Hv IH] using varint_ind;
    intros H0 j x s cs rest Hcs Hdrop Hj Hover.
  - rewrite varint_digits_lt in Hcs by lia.
    rewrite size_uint_lt in * by lia. change (Z.to_nat 1) with 1%nat in *.
    destruct cs as [|c [|? ?]]; try discriminate. cbn in Hcs, Hdrop.
    injection Hcs as Hc. rewrite land_0x7F_small in Hc by lia.
    destruct (drop_cons_inv _ _ _ _ Hdrop) as (Hlen & Hget & _).
    destruct Hover as [Hover | [Hover Hlast]].
    + replace j with 10%nat by lia. reflexivity.
    + replace j with 9%nat in * by lia. cbn [Nat.sub seq unmarshal_uint_for].
      rewrite Hlen, Hget, Hc. rewrite Z.shiftr_0_r in Hlast.
      replace (v <? 128) with true by (symmetry; apply Z.ltb_lt; lia).
      replace (v >? 1) with true; [reflexivity|].
      symmetry. rewrite Z.gtb_ltb. apply Z.ltb_lt. lia.
  - destruct (Nat.eq_dec j 10%nat) as [->|Hj10]; [reflexivity|].
    rewrite varint_digits_ge in Hcs by lia.
    destruct (size_uint_nat_ge v Hv) as (Hsz & _). rewrite Hsz in *.
    destruct cs as [|c cs]; [discriminate|]. cbn in Hcs, Hdrop.
    injection Hcs as Hc Hcs.
    destruct (drop_cons_inv _ _ _ _ Hdrop) as (Hlen & Hget & Hdrop').
    replace (10 - j)%nat with (S (10 - S j)) by lia. cbn [seq unmarshal_uint_for].
    rewrite Hlen, Hget, Hc.
    destruct (continuation_digit v) as [Hd Hland]. cbn zeta in Hd, Hland.
    replace (_ <? 128) with false by (symmetry; apply Z.ltb_ge; lia).
    pose proof (shiftr7_lt v Hv) as Hs.
    apply (IH ltac:(lia) (S j) _ _ cs rest Hcs); [| lia |].
    + rewrite <- Hdrop'. f_equal. lia.
    + destruct Hover as [Hover | [Hover Hlast]]; [left; lia | right].
      split; [lia|]. pose proof (size_uint_pos (Z.shiftr v 7)).
      rewrite Z.shiftr_shiftr by lia.
      rewrite (size_uint_ge v Hv) in Hlast.
      replace (7 + 7 * (size_uint (Z.shiftr v 7) - 1))
        with (7 * (1 + size_uint (Z.shiftr v 7) - 1)) by lia.
      exact Hlast.
Qed.

Lemma size_uint_le_10 v : 0 <= v < 2 ^ 64 -> size_uint v <= 10.
Proof.
  intros Hv. destruct (Z.eq_dec v 0) as [->|Hnz]; [vm_compute; discriminate|].
  pose proof (size_uint_bounds v ltac:(lia)) as [Hlo _].
  assert (7 * (size_uint v - 1) < 64); [|lia].
  pose proof (size_uint_pos v).
  apply (Z.pow_lt_mono_r_iff 2); lia.
Qed.

Lemma size_uint_ge_10 v : 2 ^ 64 <= v -> 10 <= size_uint v.
Proof.
  intros Hv. pose proof (size_uint_bounds v ltac:(lia)) as [_ Hhi].
  pose proof (size_uint_pos v).
  assert (64 < 7 * size_uint v); [|lia].
  apply (Z.pow_lt_mono_r_iff 2); lia.
Qed.

Lemma size_uint_gt_10 v : 1 <= v -> (10 < size_uint v <-> 2 ^ 70 <= v).
Proof.
  intros Hv. pose proof (size_uint_bounds v Hv) as [Hlo Hhi].
  pose proof (size_uint_pos v). split; intros H10.
  - eapply Z.le_trans; [|exact Hlo]. apply Z.pow_le_mono_r; lia.
  - assert (70 < 7 * size_uint v); [|lia].
    apply (Z.pow_lt_mono_r_iff 2); lia.
Qed.

Lemma length_varint_digits k v : length (varint_digits k v) = k.
Proof.
  revert v. induction k as [|[|k] IH]; intros v; [reflexivity..|].
  cbn [varint_digits length]. f_equal. apply IH.
Qed.

(** Round trip at any offset, in any buffer with room for the encoding. *)
Lemma marshal_unmarshal_uint (n : nat) (b : list byte) v :
  0 <= v < 2 ^ 64 ->
  (n + Z.to_nat (size_uint v) <= length b)%nat ->
  exists b',
    marshal_uint n b v = Ok ((n + Z.to_nat (size_uint v))%nat, b') /\
    length b' = length b /\
    (forall buf, take (Z.to_nat (size_uint v)) (drop n buf)
                 = take (Z.to_nat (size_uint v)) (drop n b') ->
       unmarshal_uint n buf = Ok ((n + Z.to_nat (size_uint v))%nat, v)).
Proof.
  intros Hv Hroom.
  destruct (marshal_uint_while_digits v n b Hroom) as (cs & Hcs & Hm).
  set (k := Z.to_nat (size_uint v)) in *.
  assert (Hk : length cs = k).
  { rewrite <- (length_fmap int_of_byte), Hcs. apply length_varint_digits. }
  exists (take n b ++ cs ++ drop (n + k) b). split; [exact Hm|].
  assert (Htn : length (take n b) = n) by (rewrite length_take; lia).
  split.
  { rewrite !length_app, length_take, length_drop. lia. }
  intros buf Hbuf.
  rewrite <- Htn in Hbuf at 2. rewrite drop_app_length in Hbuf.
  rewrite <- Hk in Hbuf at 2. rewrite take_app_length in Hbuf.
  unfold unmarshal_uint. change (seq 0 MAX_VARINT_LEN) with (seq 0 (10 - 0)).
  change 0 with (7 * Z.of_nat 0) at 2.
  pose proof (size_uint_le_10 v Hv) as H10. pose proof (size_uint_pos v) as Hp.
  rewrite (unmarshal_uint_for_digits n buf v ltac:(lia) 0 0 cs
             (drop k (drop n buf)) Hcs).
  - rewrite Z.shiftl_0_r, Z.lor_0_l, Nat.add_0_r. reflexivity.
  - rewrite Nat.add_0_r, <- Hbuf. symmetry. apply take_drop.
  - lia.
  - intros Hs. replace (size_uint v) with 10 by lia.
    rewrite Z.shiftr_div_pow2 by lia.
    assert (v / 2 ^ (7 * (10 - 1)) < 2); [|lia].
    apply Z.div_lt_upper_bound; lia.
Qed.

(** *** Slices: what the decoders read of a buffer *)

Lemma take_prefix_eq {A} (b b2 : list A) (m m' : nat) :
  (m <= m')%nat -> take m' b2 = take m' b -> take m b2 = take m b.
Proof.
  intros Hm Ht. replace m with (Nat.min m m') by lia.
  rewrite <- !take_take. now rewrite Ht.
Qed.

Section SliceFacts.
Context {T : Type} (u : @UnmarshalFunc T).

Lemma unmarshal_slice_for_calls count : forall n b acc n' items,
  unmarshal_slice_for count u n b acc = Ok (n', items) <->
  exists new, items = acc ++ new /\ unmarshal_calls u b count n new n'.
Proof.
  induction count as [|count IH]; intros n b acc n' items; cbn.
  - split.
    + intros [= <- <-]. exists []. rewrite app_nil_r. split; [reflexivity | constructor].
    + intros (new & -> & Hc). inversion Hc; subst. now rewrite app_nil_r.
  - destruct (u n b) as [[n1 item]|e] eqn:Hu; cbn.
    + rewrite IH. split.
      * intros (new & -> & Hc). exists (item :: new).
        rewrite <- app_assoc. split; [reflexivity|]. econstructor; eassumption.
      * intros (new & -> & Hc).
        inversion Hc as [|? ? n2 item2 items2 ? Hu2 Hc2]; subst.
        rewrite Hu in Hu2. injection Hu2 as <- <-.
        exists items2. now rewrite <- app_assoc.
    + split; [discriminate|]. intros (new & _ & Hc). inversion Hc; congruence.
Qed.

Lemma unmarshal_calls_length b count n items n' :
  unmarshal_calls u b count n items n' -> length items = count.
Proof. induction 1; cbn; congruence. Qed.

Lemma unmarshal_calls_local b count n items n' :
  local_unmarshaler u ->
  unmarshal_calls u b count n items n' ->
  (n <= n')%nat /\
  forall b2, take n' b2 = take n' b -> unmarshal_calls u b2 count n items n'.
Proof.
  intros Hloc. induction 1 as [n | count n n1 item items n' Hu Hc [Hle IH]].
  - split; [lia | constructor].
  - destruct (Hloc _ _ _ _ Hu) as [Hle1 Hu2]. split; [lia|].
    intros b2 Hb2. econstructor; [|now apply IH].
    apply Hu2. now apply (take_prefix_eq b b2 n1 n').
Qed.
End SliceFacts.

Lemma take_lookup_eq (b b2 : list byte) (m i : nat) :
  take m b2 = take m b -> (i < m)%nat -> b2 !! i = b !! i.
Proof.
  intros Ht Hi.
  rewrite <- (lookup_take_lt b2 m i), <- (lookup_take_lt b m i) by lia.
  now rewrite Ht.
Qed.

Lemma len_check_lookup (b : list byte) (i : nat) :
  (Z.of_nat i >=? len b) = match b !! i with Some _ => false | None => true end.
Proof.
  destruct (b !! i) eqn:Hc.
  - apply len_gt. now apply lookup_lt_Some in Hc.
  - apply lookup_ge_None in Hc. rewrite Z.geb_leb. apply Z.leb_le. unfold len. lia.
Qed.

Lemma unmarshal_uint_for_local (n : nat) (b : list byte) (r : nat) :
  forall (k : nat) (x s : Z) n' v,
  unmarshal_uint_for (seq k r) n b x s = Ok (n', v) ->
  (n + k < n')%nat /\
  forall b2, take n' b2 = take n' b ->
             unmarshal_uint_for (seq k r) n b2 x s = Ok (n', v).
Proof.
  induction r as [|r IH]; intros k x s n' v; cbn [seq unmarshal_uint_for];
    [discriminate|].
  rewrite len_check_lookup. unfold getitem.
  destruct (b !! (n + k)%nat) as [c|] eqn:Hc; [|discriminate].
  destruct (int_of_byte c <? 128) eqn:Hterm.
  - destruct (_ && _) eqn:Hchk; [discriminate|]. intros [= <- <-].
    split; [lia|]. intros b2 Hb2.
    rewrite len_check_lookup, (take_lookup_eq b b2 (n + k + 1)) by (assumption || lia).
    now rewrite Hc, Hterm, Hchk.
  - intros Hrec. destruct (IH _ _ _ _ _ Hrec) as [Hlt Hb]. split; [lia|].
    intros b2 Hb2.
    rewrite len_check_lookup, (take_lookup_eq b b2 n') by (assumption || lia).
    rewrite Hc, Hterm. now apply Hb.
Qed.

Lemma unmarshal_uint_local : local_unmarshaler unmarshal_uint.
Proof.
  intros n b n' v H. destruct (unmarshal_uint_for_local _ _ _ _ _ _ _ _ H) as [Hlt Hb].
  split; [lia | exact Hb].
Qed.

Lemma unmarshal_byte_local : local_unmarshaler unmarshal_byte.
Proof.
  intros n b n' v. unfold unmarshal_byte, getitem.
  destruct (Z.ltb_spec (len b - Z.of_nat n) 1) as [|Hlen]; [discriminate|].
  unfold len in Hlen.
  destruct (lookup_lt_is_Some_2 b n) as [c Hc]; [lia|]. rewrite Hc. cbn.
  intros [= <- <-]. split; [lia|]. intros b2 Hb2.
  assert (Hc2 : b2 !! n = Some c).
  { rewrite (take_lookup_eq b b2 (n + 1)) by (assumption || lia). exact Hc. }
  pose proof (lookup_lt_Some _ _ _ Hc2) as Hl2.
  destruct (Z.ltb_spec (len b2 - Z.of_nat n) 1) as [Hlt|_]; [unfold len in Hlt; lia|].
  now rewrite Hc2.
Qed.

Lemma terminator_check (b : list byte) (n : nat) :
  (len b - Z.of_nat n <? 4) = negb (n + 4 <=? length b)%nat.
Proof.
  unfold len. destruct (Nat.leb_spec (n + 4) (length b));
    [apply Z.ltb_ge | apply Z.ltb_lt]; lia.
Qed.

Lemma take_agree_outside (b b' : list byte) (m : nat) :
  (forall i, (i < m - 4 \/ m <= i)%nat -> b' !! i = b !! i) ->
  take (m - 4) b' = take (m - 4) b.
Proof.
  intros Hagree. apply list_eq. intros i.
  destruct (Nat.lt_ge_cases i (m - 4)) as [Hlt|Hge].
  - rewrite !lookup_take_lt by lia. apply Hagree. now left.
  - now rewrite !lookup_take_ge by lia.
Qed.

Section UnmarshalSlice.
Context {T : Type} (u : @UnmarshalFunc T).

Lemma unmarshal_slice_for_nil count n b n' items :
  unmarshal_slice_for count u n b [] = Ok (n', items) <->
  unmarshal_calls u b count n items n'.
Proof.
  rewrite unmarshal_slice_for_calls. cbn. split.
  - now intros (new & -> & Hc).
  - intros Hc. now exists items.
Qed.

Lemma unmarshal_slice_ok n b m items :
  unmarshal_slice n b u = Ok (m, items) <->
  exists n0 size n1,
    unmarshal_uint n b = Ok (n0, size) /\
    unmarshal_calls u b (Z.to_nat size) n0 items n1 /\
    (n1 + 4 <= length b)%nat /\ m = (n1 + 4)%nat.
Proof.
  unfold unmarshal_slice. split.
  - destruct (unmarshal_uint n b) as [[n0 size]|e]; cbn; [|discriminate].
    destruct (unmarshal_slice_for (Z.to_nat size) u n0 b [])
      as [[n1 items1]|e] eqn:Hfor; cbn; [|discriminate].
    rewrite terminator_check.
    destruct (Nat.leb_spec (n1 + 4) (length b)) as [Hle|Hgt]; cbn; [|discriminate].
    intros [= <- <-]. exists n0, size, n1.
    apply unmarshal_slice_for_nil in Hfor. auto.
  - intros (n0 & size & n1 & -> & Hcalls & Hle & ->). cbn.
    apply unmarshal_slice_for_nil in Hcalls. rewrite Hcalls. cbn.
    rewrite terminator_check.
    destruct (Nat.leb_spec (n1 + 4) (length b)); [reflexivity | lia].
Qed.

Lemma unmarshal_slice_no_terminator n b n0 size items n1 :
  unmarshal_uint n b = Ok (n0, size) ->
  unmarshal_calls u b (Z.to_nat size) n0 items n1 ->
  (length b < n1 + 4)%nat ->
  unmarshal_slice n b u = Raise (BencException BUF_TOO_SMALL).
Proof.
  intros Hu Hcalls Hlt. unfold unmarshal_slice. rewrite Hu. cbn.
  apply unmarshal_slice_for_nil in Hcalls. rewrite Hcalls. cbn.
  rewrite terminator_check.
  destruct (Nat.leb_spec (n1 + 4) (length b)); [lia | reflexivity].
Qed.

(** What [unmarshal_slice] reads of a buffer it accepts lies in front of
    the terminator. *)
Lemma unmarshal_slice_prefix n b m items b' :
  local_unmarshaler u ->
  unmarshal_slice n b u = Ok (m, items) ->
  take (m - 4) b' = take (m - 4) b ->
  exists n0 size,
    (4 <= m)%nat /\
    unmarshal_uint n b' = Ok (n0, size) /\
    unmarshal_calls u b' (Z.to_nat size) n0 items (m - 4).
Proof.
  intros Hloc (n0 & size & n1 & Hu & Hcalls & Hle & ->)%unmarshal_slice_ok Hb'.
  replace (n1 + 4 - 4)%nat with n1 in * by lia.
  destruct (unmarshal_calls_local u _ _ _ _ _ Hloc Hcalls) as [Hn0 Hcalls'].
  destruct (unmarshal_uint_local _ _ _ _ Hu) as [_ Hu'].
  exists n0, size. split; [lia|]. split; [|now apply Hcalls'].
  apply Hu'. now apply (take_prefix_eq b b' n0 n1).
Qed.
End UnmarshalSlice.

(** C8: [unmarshal_slice] reads the count, has the element unmarshaler read
    that many items in order, then wants four more bytes in the buffer and
    steps over them, whatever they hold: with fewer than four bytes left it
    raises [BUF_TOO_SMALL] (so it does on an accepted buffer cut short by
    one byte), and changing the four bytes changes nothing. *)
Theorem unmarshal_slice_count_items_terminator {T} (u : @UnmarshalFunc T) :
  (forall n b m items,
     unmarshal_slice n b u = Ok (m, items) <->
     exists n0 size n1,
       unmarshal_uint n b = Ok (n0, size) /\
       unmarshal_calls u b (Z.to_nat size) n0 items n1 /\
       length items = Z.to_nat size /\
       (n1 + 4 <= length b)%nat /\ m = (n1 + 4)%nat) /\
  (forall n b n0 size items n1,
     unmarshal_uint n b = Ok (n0, size) ->
     unmarshal_calls u b (Z.to_nat size) n0 items n1 ->
     (length b < n1 + 4)%nat ->
     unmarshal_slice n b u = Raise (BencException BUF_TOO_SMALL)) /\
  (local_unmarshaler u ->
   (forall n b m items b',
      unmarshal_slice n b u = Ok (m, items) ->
      take (m - 4) b' = take (m - 4) b -> (length b' < m)%nat ->
      unmarshal_slice n b' u = Raise (BencException BUF_TOO_SMALL)) /\
   (forall n b items,
      unmarshal_slice n b u = Ok (length b, items) ->
      unmarshal_slice n (take (length b - 1) b) u
      = Raise (BencException BUF_TOO_SMALL)) /\
   (forall n b m items b',
      unmarshal_slice n b u = Ok (m, items) ->
      length b' = length b ->
      (forall i, (i < m - 4 \/ m <= i)%nat -> b' !! i = b !! i) ->
      unmarshal_slice n b' u = Ok (m, items))).
Proof.
  split; [|split; [apply unmarshal_slice_no_terminator|]].
  - intros n b m items. rewrite unmarshal_slice_ok. split.
    + intros (n0 & size & n1 & Hu & Hc & Hle & ->). exists n0, size, n1.
      pose proof (unmarshal_calls_length u _ _ _ _ _ Hc). auto.
    + intros (n0 & size & n1 & Hu & Hc & _ & Hle & ->). exists n0, size, n1. auto.
  - intros Hloc.
    assert (Htrunc : forall n b m items b',
      unmarshal_slice n b u = Ok (m, items) ->
      take (m - 4) b' = take (m - 4) b -> (length b' < m)%nat ->
      unmarshal_slice n b' u = Raise (BencException BUF_TOO_SMALL)).
    { intros n b m items b' Hok Hb' Hlen.
      destruct (unmarshal_slice_prefix u _ _ _ _ _ Hloc Hok Hb')
        as (n0 & size & Hm & Hu & Hc).
      eapply unmarshal_slice_no_terminator; [exact Hu | exact Hc | lia]. }
    split; [exact Htrunc|]. split.
    + intros n b items Hok.
      assert (4 <= length b)%nat.
      { apply unmarshal_slice_ok in Hok as (? & ? & ? & _ & _ & _ & ->). lia. }
      apply (Htrunc n b (length b) items); [exact Hok | |].
      * rewrite take_take. f_equal. lia.
      * rewrite length_take. lia.
    + intros n b m items b' Hok Hlen Hagree.
      destruct (unmarshal_slice_prefix u _ _ _ _ b' Hloc Hok)
        as (n0 & size & Hm & Hu & Hc); [now apply take_agree_outside|].
      apply unmarshal_slice_ok. exists n0, size, (m - 4)%nat.
      apply unmarshal_slice_ok in Hok as (? & ? & ? & _ & _ & ? & ->).
      repeat split; [exact Hu | exact Hc | lia | lia].
Qed.

Lemma unmarshal_slice_witness :
  local_unmarshaler unmarshal_byte /\
  unmarshal_slice 0 [x02; x07; x08; x01; x01; x01; x01] unmarshal_byte
  = Ok (7%nat, [7; 8]) /\
  unmarshal_slice 0 [x02; x07; x08; x00; xff; x02; x03] unmarshal_byte
  = Ok (7%nat, [7; 8]) /\
  unmarshal_slice 0 [x02; x07; x08; x01; x01; x01] unmarshal_byte
  = Raise (BencException BUF_TOO_SMALL).
Proof.
  pose proof (unmarshal_slice_count_items_terminator (@unmarshal_byte))
    as (_ & _ & Hloc).
  destruct (Hloc unmarshal_byte_local) as (_ & Htrunc & Hsame).
  split; [exact unmarshal_byte_local|]. split; [reflexivity|]. split.
  - apply (Hsame 0%nat [x02; x07; x08; x01; x01; x01; x01]);
      [reflexivity | reflexivity |].
    intros i [Hi|Hi]; cbn in Hi.
    + destruct i as [|[|[|i]]]; [reflexivity.. | lia].
    + do 7 (destruct i as [|i]; [lia|]). reflexivity.
  - apply (Htrunc 0%nat [x02; x07; x08; x01; x01; x01; x01] [7; 8]).
    reflexivity.
Defined.

(** *** Slices: skipping what [marshal_slice] wrote *)

Lemma setitem_length b i z b' : setitem b i z = Ok b' -> length b' = length b.
Proof.
  unfold setitem. destruct (decide _); [|discriminate].
  destruct (byte_of_int z); cbn; [|discriminate].
  intros [= <-]. apply length_insert.
Qed.

Lemma marshal_uint_while_room v : forall i b r,
  marshal_uint_while v i b = Ok r ->
  (i + Z.to_nat (size_uint v) <= length b)%nat.
Proof.
  induction v as [v Hv | v Hv IH] using varint_ind; intros i b r.
  - rewrite marshal_uint_while_lt, size_uint_lt by lia.
    rewrite len_check_lookup.
    destruct (b !! i) eqn:Hc; [|discriminate].
    apply lookup_lt_Some in Hc. lia.
  - rewrite marshal_uint_while_ge by lia.
    destruct (size_uint_nat_ge v Hv) as (-> & _).
    rewrite len_check_lookup.
    destruct (b !! i) eqn:Hc; [|discriminate].
    apply lookup_lt_Some in Hc.
    destruct (setitem b i _) as [b1|] eqn:Hset; [|discriminate].
    apply setitem_length in Hset. intros Hrec%IH. lia.
Qed.

Lemma marshal_uint_skippable n b v n0 b0 :
  0 <= v < 2 ^ 64 ->
  marshal_uint n b v = Ok (n0, b0) ->
  (n <= n0)%nat /\ length b0 = length b /\ take n b0 = take n b /\
  forall buf, take n0 buf = take n0 b0 -> unmarshal_uint n buf = Ok (n0, v).
Proof.
  intros Hv Hm. pose proof (marshal_uint_while_room _ _ _ _ Hm) as Hroom.
  destruct (marshal_uint_while_digits v n b Hroom) as (cs & Hcs & Hm').
  destruct (marshal_unmarshal_uint n b v Hv Hroom) as (b' & Hm2 & Hlen & Hun).
  unfold marshal_uint in *. rewrite Hm in Hm2, Hm'.
  injection Hm2 as -> <-. injection Hm' as Hb0.
  split; [lia|]. split; [exact Hlen|]. split.
  - rewrite Hb0. rewrite take_app_le by (rewrite length_take; lia).
    rewrite take_take. f_equal. lia.
  - intros buf Hbuf. apply Hun. rewrite !take_drop_commute. now rewrite Hbuf.
Qed.

Lemma setslice_terminator (b : list byte) (n : nat) data :
  length data = 4%nat -> (n + 4 <= length b)%nat ->
  length (setslice b n (n + 4) data) = length b /\
  take n (setslice b n (n + 4) data) = take n b.
Proof.
  intros Hd Hn. unfold setslice. split.
  - rewrite !length_app, length_take, length_drop. lia.
  - rewrite take_app_le by (rewrite length_take; lia).
    rewrite take_take. f_equal. lia.
Qed.

Section SkipSlice.
Context {T : Type} (marshaler : @MarshalFunc T) (skipper : SkipFunc).
Hypothesis Hcodec : matching_codec marshaler skipper.

Lemma marshal_slice_for_skippable slice_data : forall n b n1 b1,
  marshal_slice_for slice_data marshaler n b = Ok (n1, b1) ->
  (n <= n1)%nat /\ length b1 = length b /\ take n b1 = take n b /\
  forall buf, take n1 buf = take n1 b1 ->
              skip_slice_for (length slice_data) skipper n buf = Ok n1.
Proof.
  induction slice_data as [|item rest IH]; intros n b n1 b1; cbn.
  - intros [= <- <-]. auto.
  - destruct (marshaler n b item) as [[n' b']|e] eqn:Hm; cbn; [|discriminate].
    intros Hrest.
    destruct (Hcodec _ _ _ _ _ Hm) as (Hle & Hlen & Htake & Hskip).
    destruct (IH _ _ _ _ Hrest) as (Hle' & Hlen' & Htake' & Hskip').
    split; [lia|]. split; [congruence|]. split.
    + rewrite <- Htake. now apply (take_prefix_eq b' b1 n n').
    + intros buf Hbuf. rewrite (Hskip buf); [cbn; now apply Hskip'|].
      rewrite <- Htake'. now apply (take_prefix_eq b1 buf n' n1).
Qed.

(** In [bstd.py], skipping a slice that [marshal_slice] wrote ends exactly
    where the marshaling ended. *)
Lemma skip_slice_marshal_slice n b slice_data m b' :
  Z.of_nat (length slice_data) < 2 ^ 64 ->
  marshal_slice n b slice_data marshaler = Ok (m, b') ->
  skip_slice n b' skipper = Ok m.
Proof.
  intros Hcount Hms. unfold marshal_slice in Hms.
  destruct (marshal_uint n b _) as [[n0 b0]|e] eqn:Hm; cbn in Hms;
    [|discriminate].
  destruct (marshal_slice_for _ _ n0 b0) as [[n1 b1]|e] eqn:Hfor; cbn in Hms;
    [|discriminate].
  rewrite terminator_check in Hms.
  destruct (Nat.leb_spec (n1 + 4) (length b1)) as [Hle|]; cbn in Hms;
    [|discriminate].
  injection Hms as <- <-.
  assert (Hrange : 0 <= Z.of_nat (length slice_data) < 2 ^ 64) by lia.
  destruct (marshal_uint_skippable _ _ _ _ _ Hrange Hm)
    as (Hn0 & Hlen0 & _ & Hun).
  destruct (marshal_slice_for_skippable _ _ _ _ _ Hfor)
    as (Hn1 & Hlen1 & Htake1 & Hskip).
  destruct (setslice_terminator b1 n1 [x01; x01; x01; x01] eq_refl Hle)
    as [Hlen Htake].
  unfold skip_slice. rewrite (Hun _).
  2: { rewrite <- Htake1. now apply (take_prefix_eq b1 _ n0 n1). }
  cbn [mbind result_bind]. rewrite Nat2Z.id, (Hskip _ Htake).
  cbn [mbind result_bind]. rewrite terminator_check, Hlen.
  destruct (Nat.leb_spec (n1 + 4) (length b1)); [reflexivity | lia].
Qed.
End SkipSlice.

Lemma byte_codec_matching : matching_codec marshal_byte skip_byte.
Proof.
  intros n b v n' b'. unfold marshal_byte, skip_byte.
  destruct (Z.ltb_spec (len b - Z.of_nat n) 1) as [|Hlen]; [discriminate|].
  unfold len in Hlen.
  destruct (setitem b n _) as [b1|] eqn:Hset; cbn; [|discriminate].
  intros [= <- <-]. pose proof (setitem_length _ _ _ _ Hset) as Hl.
  split; [lia|]. split; [exact Hl|]. split.
  - unfold setitem in Hset. destruct (decide _); [|discriminate].
    destruct (byte_of_int _); cbn in Hset; [|discriminate].
    injection Hset as <-. apply take_insert_ge. lia.
  - intros buf Hbuf.
    assert (Hlb : (n + 1 <= length buf)%nat).
    { apply (f_equal length) in Hbuf. rewrite !length_take in Hbuf. lia. }
    destruct (Z.ltb_spec (len buf - Z.of_nat n) 1) as [Hlt|_];
      [unfold len in Hlt; lia | reflexivity].
Qed.

(** *** [unmarshal_uint] by cases *)

Lemma take_while_run (window : list byte) : forall k,
  continues window 0 k ->
  match window !! k with Some t => continuation_bit t = false | None => True end ->
  take_while continuation_bit window = take k window /\ (k <= length window)%nat.
Proof.
  unfold continues.
  induction window as [|c window IH]; intros k Hrun Hend.
  - destruct k as [|k]; [split; [reflexivity | cbn; lia]|].
    destruct (Hrun 0%nat ltac:(lia)) as (c & Hc & _). now rewrite lookup_nil in Hc.
  - destruct k as [|k].
    + cbn in Hend |- *. rewrite Hend. split; [reflexivity | lia].
    + destruct (Hrun 0%nat ltac:(lia)) as (c' & Hc' & Hcont).
      cbn in Hc'. injection Hc' as <-. cbn [take_while take length].
      rewrite Hcont.
      destruct (IH k) as [-> Hk]; [|exact Hend|split; [reflexivity | lia]].
      intros i Hi. apply (Hrun (S i)). lia.
Qed.

Lemma window_lookup (buf : list byte) (n i : nat) :
  (i < 10)%nat -> take 10 (drop n buf) !! i = buf !! (n + i)%nat.
Proof. intros Hi. now rewrite lookup_take_lt, lookup_drop by lia. Qed.

Lemma window_run (buf : list byte) (n k : nat) :
  (k <= 10)%nat -> continues buf n k ->
  match take 10 (drop n buf) !! k with
  | Some t => continuation_bit t = false
  | None => True
  end ->
  let window := take 10 (drop n buf) in
  take_while continuation_bit window = take k (drop n buf) /\
  length (take_while continuation_bit window) = k.
Proof.
  intros Hk Hrun Hend. cbn zeta.
  destruct (take_while_run (take 10 (drop n buf)) k) as [-> Hlen]; [|exact Hend|].
  - intros i Hi. rewrite window_lookup by lia. now apply Hrun.
  - rewrite take_take, Nat.min_l by lia. split; [reflexivity|].
    rewrite length_take in *. lia.
Qed.

Lemma unmarshal_uint_buffer_ends (n : nat) (buf : list byte) (k : nat) :
  (k < 10)%nat -> continues buf n k -> buf !! (n + k)%nat = None ->
  unmarshal_uint n buf = Raise (BencException BUF_TOO_SMALL).
Proof.
  intros Hk Hrun Hend. rewrite unmarshal_uint_refines_spec. unfold unmarshal_uint_spec.
  destruct (window_run buf n k) as [_ ->]; [lia | exact Hrun | |].
  - now rewrite window_lookup, Hend by lia.
  - rewrite window_lookup, Hend by lia.
    destruct (Nat.eqb_spec k 10); [lia | reflexivity].
Qed.

Lemma unmarshal_uint_no_terminator (n : nat) (buf : list byte) :
  continues buf n 10 ->
  unmarshal_uint n buf = Raise (BencException OVERFLOW).
Proof.
  intros Hrun. rewrite unmarshal_uint_refines_spec. unfold unmarshal_uint_spec.
  assert (Hnone : take 10 (drop n buf) !! 10%nat = None)
    by (apply lookup_take_ge; lia).
  destruct (window_run buf n 10) as [_ ->]; [lia | exact Hrun | now rewrite Hnone |].
  now rewrite Hnone.
Qed.

Lemma unmarshal_uint_terminated (n : nat) (buf : list byte) (k : nat) t :
  (k < 10)%nat -> continues buf n k ->
  buf !! (n + k)%nat = Some t -> continuation_bit t = false ->
  unmarshal_uint n buf =
  if Nat.eqb k 9 && (1 <? int_of_byte t) then Raise (BencException OVERFLOW)
  else Ok ((n + k + 1)%nat, assemble (take (k + 1) (drop n buf)) 0).
Proof.
  intros Hk Hrun Ht Hterm. rewrite unmarshal_uint_refines_spec.
  unfold unmarshal_uint_spec.
  destruct (window_run buf n k) as [Hrun' Hlen]; [lia | exact Hrun | |].
  - now rewrite window_lookup, Ht by lia.
  - cbn zeta in Hrun', Hlen. rewrite Hlen, Hrun', window_lookup, Ht by lia.
    destruct (_ && _); [reflexivity|]. do 3 f_equal.
    rewrite Nat.add_1_r. symmetry. apply take_S_r. now rewrite lookup_drop.
Qed.

(** C1: [unmarshal_uint] by cases on the bytes from offset [n]: the buffer
    ends after fewer than ten continuation bytes; ten continuation bytes;
    a tenth byte that terminates with a value above 1; and otherwise
    success, with the offset past the terminating byte and the value
    assembled from the low seven bits of each byte read; then the five
    boundary encodings. *)
Theorem unmarshal_uint_cases :
  (forall n buf k,
     (k < 10)%nat -> continues buf n k -> buf !! (n + k)%nat = None ->
     unmarshal_uint n buf = Raise (BencException BUF_TOO_SMALL)) /\
  (forall n buf,
     continues buf n 10 ->
     unmarshal_uint n buf = Raise (BencException OVERFLOW)) /\
  (forall n buf t,
     continues buf n 9 -> buf !! (n + 9)%nat = Some t ->
     continuation_bit t = false -> 1 < int_of_byte t ->
     unmarshal_uint n buf = Raise (BencException OVERFLOW)) /\
  (forall n buf k t,
     (k < 10)%nat -> continues buf n k ->
     buf !! (n + k)%nat = Some t -> continuation_bit t = false ->
     (k = 9%nat -> int_of_byte t <= 1) ->
     unmarshal_uint n buf =
     Ok ((n + k + 1)%nat, assemble (take (k + 1) (drop n buf)) 0)) /\
  unmarshal_uint 0 [x05] = Ok (1%nat, 5) /\
  unmarshal_uint 0 [x80; x01] = Ok (2%nat, 128) /\
  unmarshal_uint 0 [x80] = Raise (BencException BUF_TOO_SMALL) /\
  unmarshal_uint 0 (replicate 10 x80) = Raise (BencException OVERFLOW) /\
  unmarshal_uint 0 (replicate 9 x80 ++ [x02]) = Raise (BencException OVERFLOW).
Proof.
  split; [exact unmarshal_uint_buffer_ends|].
  split; [exact unmarshal_uint_no_terminator|].
  split; [|split; [|repeat split]].
  - intros n buf t Hrun Ht Hterm Hbig.
    rewrite (unmarshal_uint_terminated n buf 9 t) by (assumption || lia).
    now replace (1 <? int_of_byte t) with true by (symmetry; apply Z.ltb_lt; lia).
  - intros n buf k t Hk Hrun Ht Hterm Hsmall.
    rewrite (unmarshal_uint_terminated n buf k t) by (assumption || lia).
    destruct (Nat.eqb_spec k 9) as [H9|]; [|reflexivity].
    now replace (1 <? int_of_byte t) with false
      by (symmetry; apply Z.ltb_ge; auto).
Qed.

Lemma unmarshal_uint_cases_witness :
  unmarshal_uint 3 [x00; x00; x00; xac; x02; xff]
  = Ok (5%nat, assemble [xac; x02] 0) /\
  assemble [xac; x02] 0 = 300 /\
  unmarshal_uint 1 [x00; xac] = Raise (BencException BUF_TOO_SMALL).
Proof.
  destruct unmarshal_uint_cases as (Hend & _ & _ & Hok & _).
  split; [|split; [reflexivity|]].
  - apply (Hok 3%nat [x00; x00; x00; xac; x02; xff] 1%nat x02);
      [lia | | reflexivity | reflexivity | lia].
    intros i Hi. exists xac. replace i with 0%nat by lia. split; reflexivity.
  - apply (Hend 1%nat [x00; xac] 1%nat); [lia | | reflexivity].
    intros i Hi. exists xac. replace i with 0%nat by lia. split; reflexivity.
Defined.

(** ** The claims on [size_uint], [marshal_uint] and round trips *)

(** C2: every [v] with [0 <= v < 2^64], marshaled by [marshal_uint] at
    offset 0 into a fresh zero-filled buffer of [size_uint v] bytes, is
    written with returned offset [size_uint v], and [unmarshal_uint] at
    offset 0 on the buffer written returns that offset and [v]. *)
Theorem uint_round_trip (v : Z) :
  0 <= v < 2 ^ 64 ->
  exists b',
    marshal_uint 0 (replicate (Z.to_nat (size_uint v)) x00) v
    = Ok (Z.to_nat (size_uint v), b') /\
    Z.of_nat (Z.to_nat (size_uint v)) = size_uint v /\
    unmarshal_uint 0 b' = Ok (Z.to_nat (size_uint v), v).
Proof.
  intros Hv.
  destruct (marshal_unmarshal_uint 0 (replicate (Z.to_nat (size_uint v)) x00) v Hv)
    as (b' & Hm & _ & Hun).
  { rewrite length_replicate. lia. }
  exists b'. split; [exact Hm|]. split.
  - pose proof (size_uint_pos v). lia.
  - now apply Hun.
Qed.

Lemma uint_round_trip_witness :
  0 <= 2 ^ 64 - 1 < 2 ^ 64 /\
  exists b',
    marshal_uint 0 (replicate (Z.to_nat (size_uint (2 ^ 64 - 1))) x00) (2 ^ 64 - 1)
    = Ok (Z.to_nat (size_uint (2 ^ 64 - 1)), b') /\
    Z.of_nat (Z.to_nat (size_uint (2 ^ 64 - 1))) = size_uint (2 ^ 64 - 1) /\
    unmarshal_uint 0 b' = Ok (Z.to_nat (size_uint (2 ^ 64 - 1)), 2 ^ 64 - 1).
Proof.
  split; [lia|]. apply (uint_round_trip (2 ^ 64 - 1)). lia.
Defined.

(** C7, as the code has it: [size_uint 0 = 1], and for [1 <= v < 2^64]
    [size_uint v] is [1 + floor((bit_length v - 1) / 7)], the number of
    seven-bit groups of [v]. *)
Theorem size_uint_closed_form (v : Z) :
  0 <= v < 2 ^ 64 ->
  size_uint v = if v =? 0 then 1 else 1 + (bit_length v - 1) / 7.
Proof.
  intros Hv. destruct (Z.eqb_spec v 0) as [->|Hnz]; [reflexivity|].
  apply size_uint_bit_length. lia.
Qed.

Lemma size_uint_closed_form_witness :
  size_uint 127 = 1 /\ size_uint 128 = 2 /\ size_uint 0 = 1.
Proof.
  split; [|split].
  - apply (size_uint_closed_form 127). lia.
  - apply (size_uint_closed_form 128). lia.
  - apply (size_uint_closed_form 0). lia.
Defined.

(** [size_uint 127] is 1, while [1 + floor(bit_length 127 / 7)] is 2. *)
Lemma size_uint_not_one_plus_bit_length_div_7 :
  ~ (forall v, 0 <= v < 2 ^ 64 -> size_uint v = 1 + bit_length v / 7).
Proof.
  intros H. specialize (H 127 ltac:(lia)). vm_compute in H. discriminate.
Qed.

(** C9, as the code has it: for [v >= 2^64], [size_uint v] is at least 10,
    and more than 10 exactly from [2^70] on; [marshal_uint], given the room,
    writes [size_uint v] bytes without an error; and [unmarshal_uint] on
    what it wrote raises [OVERFLOW]. *)
Theorem uint_above_64_bits_overflows (v : Z) (n : nat) (b : list byte) :
  2 ^ 64 <= v ->
  (n + Z.to_nat (size_uint v) <= length b)%nat ->
  10 <= size_uint v /\
  (10 < size_uint v <-> 2 ^ 70 <= v) /\
  exists b',
    marshal_uint n b v = Ok ((n + Z.to_nat (size_uint v))%nat, b') /\
    unmarshal_uint n b' = Raise (BencException OVERFLOW).
Proof.
  intros Hv Hroom. pose proof (size_uint_ge_10 v Hv) as H10.
  split; [exact H10|]. split; [apply size_uint_gt_10; lia|].
  destruct (marshal_uint_while_digits v n b Hroom) as (cs & Hcs & Hm).
  eexists. split; [exact Hm|].
  assert (Htn : length (take n b) = n) by (rewrite length_take; lia).
  unfold unmarshal_uint. change (seq 0 MAX_VARINT_LEN) with (seq 0 (10 - 0)).
  apply (unmarshal_uint_for_overflow n _ v ltac:(lia) 0 0 0 cs
           (drop (n + Z.to_nat (size_uint v)) b) Hcs).
  - rewrite Nat.add_0_r. rewrite <- Htn at 1. now rewrite drop_app_length.
  - lia.
  - destruct (Z.eq_dec (size_uint v) 10) as [E|E]; [right | left; lia].
    split; [lia|]. rewrite E, Z.shiftr_div_pow2 by lia.
    assert (2 <= v / 2 ^ (7 * (10 - 1))); [|lia].
    apply Z.div_le_lower_bound; lia.
Qed.

Lemma uint_above_64_bits_overflows_witness :
  size_uint (2 ^ 64) = 10 /\
  exists b',
    marshal_uint 0 (replicate 10 x00) (2 ^ 64) = Ok (10%nat, b') /\
    unmarshal_uint 0 b' = Raise (BencException OVERFLOW).
Proof.
  split; [reflexivity|].
  apply (uint_above_64_bits_overflows (2 ^ 64) 0 (replicate 10 x00)).
  - lia.
  - vm_compute. lia.
Defined.

(** [2^64] is encoded on ten bytes, not more. *)
Lemma size_uint_two_pow_64_is_10 :
  ~ (forall v, 2 ^ 64 <= v ->
       10 < size_uint v /\
       forall b n' b', marshal_uint 0 b v = Ok (n', b') -> (10 < n')%nat).
Proof.
  intros H. destruct (H (2 ^ 64) ltac:(lia)) as [Hsize _].
  vm_compute in Hsize. discriminate.
Qed.

(** ** Single bytes *)

Lemma land_0xFF v : Z.land v 0xFF = v mod 256.
Proof. change 0xFF with (Z.ones 8). now rewrite Z.land_ones by lia. Qed.

(** C10: with a byte of room at [n], [marshal_byte] succeeds on every
    integer, negative or above 255, and stores [value & 0xFF]; reading the
    byte back with [unmarshal_byte] gives [value mod 256], which is [value]
    only for [0 <= value <= 255]. *)
Theorem marshal_byte_masks (n : nat) (b : list byte) (value : Z) :
  (n < length b)%nat ->
  exists b',
    marshal_byte n b value = Ok ((n + 1)%nat, b') /\
    getitem b' n = Ok (Z.land value 0xFF) /\
    unmarshal_byte n b' = Ok ((n + 1)%nat, value mod 256) /\
    (value mod 256 = value <-> 0 <= value <= 255).
Proof.
  intros Hn. pose proof (Z.mod_pos_bound value 256 ltac:(lia)) as Hmod.
  destruct (setitem_ok b n (Z.land value 0xFF)) as (c & Hc & Hset);
    [exact Hn | rewrite land_0xFF; lia |].
  set (b' := take n b ++ c :: drop (S n) b) in *.
  assert (Hget : getitem b' n = Ok (Z.land value 0xFF)).
  { unfold getitem, b'. rewrite lookup_app_r by (rewrite length_take; lia).
    rewrite length_take. replace (n - n `min` length b)%nat with 0%nat by lia.
    cbn. now rewrite Hc. }
  assert (Hlen : length b' = length b).
  { unfold b'. rewrite length_app, length_take. cbn [length].
    rewrite length_drop. lia. }
  exists b'. unfold marshal_byte, unmarshal_byte.
  replace (len b - Z.of_nat n <? 1) with false
    by (symmetry; apply Z.ltb_ge; unfold len; lia).
  replace (len b' - Z.of_nat n <? 1) with false
    by (symmetry; apply Z.ltb_ge; unfold len; lia).
  rewrite Hset, Hget, land_0xFF. cbn [mbind result_bind].
  split; [reflexivity|]. split; [reflexivity|]. split; [reflexivity|].
  split; [intros <-; lia | intros Hr; apply Z.mod_small; lia].
Qed.

Lemma marshal_byte_masks_witness :
  exists b',
    marshal_byte 1 [x00; x00] (-1) = Ok (2%nat, b') /\
    getitem b' 1 = Ok (Z.land (-1) 0xFF) /\
    unmarshal_byte 1 b' = Ok (2%nat, (-1) mod 256) /\
    ((-1) mod 256 = -1 <-> 0 <= -1 <= 255).
Proof.
  apply (marshal_byte_masks 1 [x00; x00] (-1)). cbn. lia.
Defined.

Lemma zigzag_bijection_witness :
  encode_zigzag (- 2 ^ 63) = 2 ^ 64 - 1 /\
  decode_zigzag (encode_zigzag (- 2 ^ 63)) = - 2 ^ 63 /\
  encode_zigzag (decode_zigzag (2 ^ 64 - 1)) = 2 ^ 64 - 1.
Proof.
  destruct zigzag_bijection as (Henc & Hdec & _).
  destruct (Henc (- 2 ^ 63)) as (_ & _ & Hinv); [lia|].
  destruct (Hdec (2 ^ 64 - 1)) as (_ & Hinv'); [lia|].
  split; [reflexivity|]. split; [exact Hinv | exact Hinv'].
Defined.

(** ** The port's [skip_slice] and [size_string] *)

(** C5, where the port departs from it: the slice of the four bytes
    [1, 1, 1, 1] is marshaled on nine bytes; the port's [skip_slice], which
    scans for the terminator pattern, finds it inside the payload and
    returns offset 5, where [skip_slice] of [bstd.py], driven by the count,
    returns 9. *)
Theorem port_skip_slice_stops_inside_payload :
  let buf := [x04; x01; x01; x01; x01; x01; x01; x01; x01] in
  marshal_slice 0 (replicate 9 x00) [1; 1; 1; 1] marshal_byte = Ok (9%nat, buf) /\
  Port.skip_slice 0 buf = Ok 5%nat /\
  skip_slice 0 buf skip_byte = Ok 9%nat.
Proof. repeat split. Qed.

(** C6, where the port departs from it: the one-character string U+00E9
    is two bytes of UTF-8, so its marshaled size is 3, which [size_string]
    of [bstd.py] returns; the port's [size_string] counts code points and
    returns 2. *)
Theorem port_size_string_counts_code_points :
  encode_utf8 [0xE9] = Ok [0xC3; 0xA9] /\
  Port.size_string [0xE9] = 2 /\
  size_string [0xE9] = Ok 3.
Proof. repeat split. Qed.

(** [size_string] of [bstd.py] is computed over the UTF-8 payload. *)
Lemma size_string_utf8 (s : str) (encoded_s : list Z) :
  encode_utf8 s = Ok encoded_s ->
  size_string s =
  Ok (Z.of_nat (length encoded_s) + size_uint (Z.of_nat (length encoded_s))).
Proof. intros H. unfold size_string. now rewrite H. Qed.

Lemma encode_utf8_ascii (s : str) :
  Forall (fun c => 0 <= c < 0x80) s -> encode_utf8 s = Ok s.
Proof.
  induction 1 as [|c s Hc _ IH]; [reflexivity|]. cbn [encode_utf8].
  unfold utf8_encode_char.
  replace (c <? 0) with false by (symmetry; apply Z.ltb_ge; lia).
  replace (c <? 128) with true by (symmetry; apply Z.ltb_lt; lia).
  cbn. now rewrite IH.
Qed.

(** On ASCII strings the two versions of [size_string] agree. *)
Lemma size_string_ascii (s : str) :
  Forall (fun c => 0 <= c < 0x80) s ->
  size_string s = Ok (Port.size_string s).
Proof.
  intros H. now rewrite (size_string_utf8 s s (encode_utf8_ascii s H)).
Qed.

(** ** The rest of the library *)

(** *** Writing in sequence *)

Lemma writes_exactly_refl (n : nat) (b : list byte) : writes_exactly n n b b.
Proof. repeat split. Qed.

Lemma writes_exactly_trans (n n1 n2 : nat) (b b1 b2 : list byte) :
  (n <= n1 <= n2)%nat ->
  writes_exactly n n1 b b1 -> writes_exactly n1 n2 b1 b2 ->
  writes_exactly n n2 b b2.
Proof.
  intros Hn (Hl1 & Ht1 & Hd1) (Hl2 & Ht2 & Hd2). split; [congruence|]. split.
  - rewrite <- Ht1. now apply (take_prefix_eq b1 b2 n n1).
  - rewrite Hd2. replace n2 with (n1 + (n2 - n1))%nat by lia.
    rewrite <- !drop_drop. now rewrite Hd1.
Qed.

Lemma writes_exactly_prefix (n n' : nat) (b b' buf : list byte) (m : nat) :
  (m <= n <= n')%nat -> writes_exactly n n' b b' ->
  take n' buf = take n' b' -> take m buf = take m b.
Proof.
  intros Hm (_ & Ht & _) Hbuf. transitivity (take m b').
  - apply (take_prefix_eq b' buf m n'); [lia | exact Hbuf].
  - apply (take_prefix_eq b b' m n); [lia | exact Ht].
Qed.

Lemma setslice_writes_exactly (b : list byte) (n : nat) (data : list byte) :
  (n + length data <= length b)%nat ->
  writes_exactly n (n + length data) b (setslice b n (n + length data) data) /\
  getslice (setslice b n (n + length data) data) n (n + length data) = data.
Proof.
  intros Hroom. unfold setslice, getslice, writes_exactly.
  rewrite Nat.max_r by lia.
  assert (Htn : length (take n b) = n) by (rewrite length_take; lia).
  repeat split.
  - rewrite !length_app, length_take, length_drop. lia.
  - rewrite take_app_le by lia. rewrite take_take. f_equal. lia.
  - rewrite app_assoc. rewrite drop_app_length'; [reflexivity|].
    rewrite length_app. lia.
  - rewrite app_assoc, take_app_length' by (rewrite length_app; lia).
    now rewrite drop_app_length' by lia.
Qed.

Lemma getslice_prefix (b buf : list byte) (lo hi : nat) :
  take hi buf = take hi b -> getslice buf lo hi = getslice b lo hi.
Proof. intros H. unfold getslice. now rewrite H. Qed.

Lemma setitem_writes_exactly (b : list byte) (i : nat) (z : Z) :
  (i < length b)%nat -> 0 <= z < 256 ->
  exists b', setitem b i z = Ok b' /\ writes_exactly i (i + 1) b b' /\
             forall buf, take (i + 1) buf = take (i + 1) b' ->
                         getitem buf i = Ok z /\ (i < length buf)%nat.
Proof.
  intros Hi Hz. destruct (setitem_ok b i z Hi Hz) as (c & Hc & Hset).
  rewrite <- insert_take_drop in Hset by exact Hi.
  eexists. split; [exact Hset|]. split; [repeat split|].
  - apply length_insert.
  - apply take_insert_ge. lia.
  - apply drop_insert_lt. lia.
  - intros buf Hbuf.
    assert (Hl : buf !! i = Some c).
    { rewrite (take_lookup_eq _ buf (i + 1) i Hbuf) by lia.
      now apply list_lookup_insert_eq. }
    split; [unfold getitem; now rewrite Hl, Hc|].
    now apply lookup_lt_Some in Hl.
Qed.

(** *** [marshal_uint]: room, failure and frame *)

Lemma marshal_uint_while_short v : forall (i : nat) (b : list byte),
  (length b < i + Z.to_nat (size_uint v))%nat ->
  marshal_uint_while v i b = Raise (BencException BUF_TOO_SMALL).
Proof.
  induction v as [v Hv | v Hv IH] using varint_ind; intros i b Hshort.
  - rewrite marshal_uint_while_lt by lia. rewrite size_uint_lt in Hshort by lia.
    rewrite len_check_lookup.
    now rewrite (proj2 (lookup_ge_None b i)) by lia.
  - rewrite marshal_uint_while_ge by lia.
    destruct (size_uint_nat_ge v Hv) as (Hsz & _). rewrite Hsz in Hshort.
    rewrite len_check_lookup.
    destruct (b !! i) eqn:Hc; [|reflexivity].
    apply lookup_lt_Some in Hc.
    destruct (setitem_ok b i (Z.lor (Z.land v 0x7F) 0x80)) as (c & _ & ->);
      [lia | pose proof (continuation_digit v); cbn zeta in *; lia |].
    apply IH. rewrite length_app, length_take. cbn [length].
    rewrite length_drop. lia.
Qed.

Lemma uint_codec_lawful : lawful (fun v => 0 <= v < 2 ^ 64) uint_codec.
Proof.
  intros v Hv. cbn [c_size c_marshal c_unmarshal c_skip uint_codec].
  pose proof (size_uint_pos v) as Hpos. split; [lia|].
  intros n b. cbn zeta. split; [|apply marshal_uint_while_short].
  intros Hroom.
  destruct (marshal_uint_while_digits v n b Hroom) as (cs & Hcs & Hm).
  destruct (marshal_unmarshal_uint n b v Hv Hroom) as (b' & Hm' & Hlen & Hun).
  unfold marshal_uint in *. rewrite Hm in Hm'. injection Hm' as <-.
  eexists. split; [exact Hm|].
  set (k := Z.to_nat (size_uint v)) in *.
  assert (Hk : length cs = k).
  { rewrite <- (length_fmap int_of_byte), Hcs. apply length_varint_digits. }
  assert (Htn : length (take n b) = n) by (rewrite length_take; lia).
  split; [repeat split|].
  - exact Hlen.
  - now rewrite take_app_length' by lia.
  - rewrite app_assoc. rewrite drop_app_length'; [reflexivity|].
    rewrite length_app. lia.
  - intros buf Hbuf.
    assert (Hu : unmarshal_uint n buf = Ok ((n + k)%nat, v)).
    { apply Hun. rewrite !take_drop_commute. now rewrite Hbuf. }
    split; [exact Hu|]. unfold skip_varint.
    rewrite (skip_varint_for_agrees _ _ _ 0 0).
    unfold unmarshal_uint in Hu. now rewrite Hu.
Qed.


(** X1: for [0 <= value < 2^64], [marshal_uint] succeeds exactly when
    [size_uint value] bytes are left from [n] on, and raises
    [BUF_TOO_SMALL] otherwise; it changes these bytes and no other, and
    returns the offset after them; on every buffer that holds the same
    bytes up to that offset, [unmarshal_uint] returns the value and
    [skip_varint] the offset. *)
Theorem marshal_uint_contract (n : nat) (b : list byte) (value : Z) :
  0 <= value < 2 ^ 64 ->
  let n' := (n + Z.to_nat (size_uint value))%nat in
  ((n' <= length b)%nat ->
   exists b',
     marshal_uint n b value = Ok (n', b') /\
     writes_exactly n n' b b' /\
     forall buf, take n' buf = take n' b' ->
       unmarshal_uint n buf = Ok (n', value) /\ skip_varint n buf = Ok n') /\
  ((length b < n')%nat ->
   marshal_uint n b value = Raise (BencException BUF_TOO_SMALL)).
Proof.
  intros Hv. destruct (uint_codec_lawful value Hv) as [_ Hlaw].
  exact (Hlaw n b).
Qed.

Lemma marshal_uint_contract_witness :
  0 <= 300 < 2 ^ 64 /\
  marshal_uint 1 [x00; x00; x00; x00] 300 = Ok (3%nat, [x00; xac; x02; x00]) /\
  unmarshal_uint 1 [x00; xac; x02; xff] = Ok (3%nat, 300) /\
  skip_varint 1 [x00; xac; x02; xff] = Ok 3%nat /\
  marshal_uint 3 [x00; x00; x00; x00] 300 = Raise (BencException BUF_TOO_SMALL).
Proof.
  assert (Hv : 0 <= 300 < 2 ^ 64) by lia. split; [exact Hv|].
  destruct (marshal_uint_contract 1 [x00; x00; x00; x00] 300 Hv)
    as [Hroom _].
  destruct Hroom as (b' & Hm & _ & Hread); [vm_compute; lia|].
  assert (b' = [x00; xac; x02; x00]) as -> by (vm_compute in Hm; congruence).
  split; [exact Hm|].
  destruct (Hread [x00; xac; x02; xff]) as [Hu Hs]; [reflexivity|].
  split; [exact Hu|]. split; [exact Hs|].
  destruct (marshal_uint_contract 3 [x00; x00; x00; x00] 300 Hv)
    as [_ Hshort].
  apply Hshort. vm_compute. lia.
Defined.

(** *** Signed varints *)

Lemma encode_zigzag_range v :
  - 2 ^ 63 <= v < 2 ^ 63 -> 0 <= encode_zigzag v < 2 ^ 64.
Proof.
  intros Hv. rewrite encode_zigzag_arith. destruct (Z.ltb_spec v 0); lia.
Qed.

(** X2: for [-2^63 <= value < 2^63], [marshal_int] succeeds exactly when
    [size_int value] bytes are left, and raises [BUF_TOO_SMALL] otherwise;
    it changes these bytes and no other; on every buffer that holds them,
    [unmarshal_int] returns the value and [skip_varint] the offset after
    them. *)
Theorem int_codec_lawful : lawful (fun v => - 2 ^ 63 <= v < 2 ^ 63) int_codec.
Proof.
  intros v Hv. cbn [c_size c_marshal c_unmarshal c_skip int_codec].
  destruct (uint_codec_lawful (encode_zigzag v) (encode_zigzag_range v Hv))
    as [Hsize Hlaw].
  cbn [c_size c_marshal c_unmarshal c_skip uint_codec] in Hsize, Hlaw.
  split; [exact Hsize|]. intros n b. cbn zeta.
  destruct (Hlaw n b) as [Hok Hshort]. cbn zeta in Hok, Hshort.
  split; [|exact Hshort].
  intros Hroom. destruct (Hok Hroom) as (b' & Hm & Hw & Hread).
  exists b'. split; [exact Hm|]. split; [exact Hw|].
  intros buf Hbuf. destruct (Hread buf Hbuf) as [Hu Hs].
  split; [|exact Hs]. unfold unmarshal_int. rewrite Hu. cbn.
  now rewrite decode_encode_zigzag.
Qed.


Lemma int_codec_lawful_witness :
  marshal_int 0 [x00; x00] (-300) = Ok (2%nat, [xd7; x04]) /\
  unmarshal_int 0 [xd7; x04; xff] = Ok (2%nat, -300) /\
  marshal_int 1 [x00; x00] (-300) = Raise (BencException BUF_TOO_SMALL).
Proof.
  destruct (int_codec_lawful (-300)) as [_ Hlaw]; [lia|].
  destruct (Hlaw 0%nat [x00; x00]) as [Hroom _].
  destruct Hroom as (b' & Hm & _ & Hread); [vm_compute; lia|].
  cbn [c_marshal c_unmarshal c_skip int_codec] in Hm, Hread.
  assert (b' = [xd7; x04]) as -> by (vm_compute in Hm; congruence).
  split; [exact Hm|].
  destruct (Hread [xd7; x04; xff]) as [Hu _]; [reflexivity|].
  split; [exact Hu|].
  destruct (Hlaw 1%nat [x00; x00]) as [_ Hshort].
  apply Hshort. vm_compute. lia.
Defined.

Lemma size_uint_one v : size_uint v = 1 <-> v < 0x80.
Proof.
  split; intros H.
  - destruct (Z_lt_le_dec v 0x80) as [|Hge]; [assumption|].
    rewrite size_uint_ge in H by lia.
    pose proof (size_uint_pos (Z.shiftr v 7)). lia.
  - now apply size_uint_lt.
Qed.

(** X3: [size_int] is 1 exactly for the integers from -64 to 63. *)
Theorem size_int_one v : size_int v = 1 <-> - 64 <= v <= 63.
Proof.
  unfold size_int. rewrite size_uint_one, encode_zigzag_arith.
  destruct (Z.ltb_spec v 0); lia.
Qed.

(** *** Bounds checks *)

Lemma room_check (b : list byte) (n k : nat) :
  (len b - Z.of_nat n <? Z.of_nat k) = negb (n + k <=? length b)%nat.
Proof.
  unfold len. destruct (Nat.leb_spec (n + k) (length b));
    [apply Z.ltb_ge | apply Z.ltb_lt]; lia.
Qed.

Lemma room_check_1 (b : list byte) (n : nat) :
  (len b - Z.of_nat n <? 1) = negb (n + 1 <=? length b)%nat.
Proof. apply (room_check b n 1). Qed.

Lemma room_check_Z (b : list byte) (n : nat) (size : Z) :
  0 <= size ->
  (len b - Z.of_nat n <? size) = negb (n + Z.to_nat size <=? length b)%nat.
Proof.
  intros Hs. rewrite <- (Z2Nat.id size) at 1 by exact Hs. apply room_check.
Qed.

(** *** Bytes and booleans *)

(** X4: for [0 <= value < 256], [marshal_byte] succeeds exactly when one
    byte is left, and raises [BUF_TOO_SMALL] otherwise; it changes that
    byte and no other; on every buffer that holds it, [unmarshal_byte]
    returns the value and [skip_byte] the next offset. *)
Theorem byte_codec_lawful : lawful (fun v => 0 <= v < 256) byte_codec.
Proof.
  intros v Hv. cbn [c_size c_marshal c_unmarshal c_skip byte_codec].
  unfold size_byte. split; [lia|]. intros n b. cbn zeta.
  change (Z.to_nat 1) with 1%nat. unfold marshal_byte, unmarshal_byte, skip_byte.
  rewrite room_check_1. split; intros Hroom.
  - replace (n + 1 <=? length b)%nat with true by (symmetry; apply Nat.leb_le; lia).
    cbn [negb]. rewrite land_0xFF, Z.mod_small by lia.
    destruct (setitem_writes_exactly b n v) as (b' & -> & Hw & Hread); [lia..|].
    exists b'. split; [reflexivity|]. split; [exact Hw|].
    intros buf Hbuf. destruct (Hread buf Hbuf) as [Hget Hlen].
    rewrite room_check_1, Hget.
    now replace (n + 1 <=? length buf)%nat with true
      by (symmetry; apply Nat.leb_le; lia).
  - now replace (n + 1 <=? length b)%nat with false
      by (symmetry; apply Nat.leb_gt; lia).
Qed.


Lemma byte_codec_lawful_witness :
  marshal_byte 1 [x00; x00] 200 = Ok (2%nat, [x00; xc8]) /\
  unmarshal_byte 1 [x00; xc8; xff] = Ok (2%nat, 200) /\
  marshal_byte 2 [x00; x00] 200 = Raise (BencException BUF_TOO_SMALL).
Proof.
  destruct (byte_codec_lawful 200) as [_ Hlaw]; [lia|].
  destruct (Hlaw 1%nat [x00; x00]) as [Hroom _].
  destruct Hroom as (b' & Hm & _ & Hread); [vm_compute; lia|].
  cbn [c_marshal c_unmarshal c_skip byte_codec] in Hm, Hread.
  assert (b' = [x00; xc8]) as -> by (vm_compute in Hm; congruence).
  split; [exact Hm|].
  destruct (Hread [x00; xc8; xff]) as [Hu _]; [reflexivity|].
  split; [exact Hu|].
  destruct (Hlaw 2%nat [x00; x00]) as [_ Hshort].
  apply Hshort. vm_compute. lia.
Defined.

Lemma bool_codec_lawful : lawful (fun _ => True) bool_codec.
Proof.
  intros v _. cbn [c_size c_marshal c_unmarshal c_skip bool_codec].
  unfold size_bool. split; [lia|]. intros n b. cbn zeta.
  change (Z.to_nat 1) with 1%nat. unfold marshal_bool, unmarshal_bool, skip_bool.
  rewrite room_check_1. split; intros Hroom.
  - replace (n + 1 <=? length b)%nat with true by (symmetry; apply Nat.leb_le; lia).
    cbn [negb].
    destruct (setitem_writes_exactly b n (if v then 1 else 0))
      as (b' & -> & Hw & Hread); [lia | destruct v; lia |].
    exists b'. split; [reflexivity|]. split; [exact Hw|].
    intros buf Hbuf. destruct (Hread buf Hbuf) as [Hget Hlen].
    rewrite room_check_1, Hget.
    replace (n + 1 <=? length buf)%nat with true
      by (symmetry; apply Nat.leb_le; lia).
    now destruct v.
  - now replace (n + 1 <=? length b)%nat with false
      by (symmetry; apply Nat.leb_gt; lia).
Qed.


(** X5: [marshal_bool] succeeds exactly when one byte is left, and raises
    [BUF_TOO_SMALL] otherwise; it changes that byte and no other; on every
    buffer that holds it, [unmarshal_bool] returns the value and
    [skip_bool] the next offset. *)
Theorem marshal_bool_contract (n : nat) (b : list byte) (v : bool) :
  let n' := (n + 1)%nat in
  ((n' <= length b)%nat ->
   exists b',
     marshal_bool n b v = Ok (n', b') /\
     writes_exactly n n' b b' /\
     forall buf, take n' buf = take n' b' ->
       unmarshal_bool n buf = Ok (n', v) /\ skip_bool n buf = Ok n') /\
  ((length b < n')%nat ->
   marshal_bool n b v = Raise (BencException BUF_TOO_SMALL)).
Proof.
  destruct (bool_codec_lawful v I) as [_ Hlaw]. exact (Hlaw n b).
Qed.

(** X6: [unmarshal_bool] returns [True] exactly when the byte at [n] is
    1: every other byte, also a non-zero one, reads as [False]. *)
Theorem unmarshal_bool_true (n : nat) (b : list byte) n' :
  unmarshal_bool n b = Ok (n', true) <-> n' = (n + 1)%nat /\ b !! n = Some x01.
Proof.
  unfold unmarshal_bool, getitem. rewrite room_check_1.
  destruct (Nat.leb_spec (n + 1) (length b)) as [Hle|Hgt]; cbn [negb].
  - destruct (lookup_lt_is_Some_2 b n) as [c Hc]; [lia|]. rewrite Hc. cbn.
    split.
    + intros [= <- Heq]. split; [reflexivity|]. f_equal.
      apply Z.eqb_eq in Heq. destruct c; vm_compute in Heq; congruence.
    + intros [-> [= ->]]. reflexivity.
  - split; [discriminate|]. intros [_ Hc]. apply lookup_lt_Some in Hc. lia.
Qed.

(** *** Byte strings *)

Lemma take_eq_length {A} (b buf : list A) (m : nat) :
  take m buf = take m b -> (m <= length b)%nat -> (m <= length buf)%nat.
Proof.
  intros H Hm. apply (f_equal length) in H. rewrite !length_take in H. lia.
Qed.

Lemma leb_true (n m : nat) : (n <= m)%nat -> (n <=? m)%nat = true.
Proof. apply Nat.leb_le. Qed.

Lemma leb_false (n m : nat) : (m < n)%nat -> (n <=? m)%nat = false.
Proof. apply Nat.leb_gt. Qed.

Lemma bytes_codec_lawful :
  lawful (fun bs => Z.of_nat (length bs) < 2 ^ 64) bytes_codec.
Proof.
  intros bs Hbs. cbn [c_size c_marshal c_unmarshal c_skip bytes_codec].
  unfold size_bytes. set (L := length bs) in *.
  assert (HL : 0 <= Z.of_nat L < 2 ^ 64) by lia.
  destruct (uint_codec_lawful (Z.of_nat L) HL) as [Hsize Hlaw].
  cbn [c_size c_marshal c_unmarshal c_skip uint_codec] in Hsize, Hlaw.
  split; [lia|]. intros n b. cbn zeta.
  set (k := Z.to_nat (size_uint (Z.of_nat L))) in *.
  replace (Z.to_nat (Z.of_nat L + size_uint (Z.of_nat L))) with (k + L)%nat by lia.
  destruct (Hlaw n b) as [Hok Hshort]. cbn zeta in Hok, Hshort.
  unfold marshal_bytes, unmarshal_bytes, skip_bytes. fold L. split; intros Hroom.
  - destruct (Hok ltac:(lia)) as (b1 & -> & Hw1 & Hread1).
    cbn [mbind result_bind]. rewrite room_check.
    pose proof Hw1 as (Hl1 & _ & _).
    rewrite leb_true by lia. cbn [negb].
    destruct (setslice_writes_exactly b1 (n + k) bs) as [Hw2 Hget]; [fold L; lia|].
    fold L in Hw2, Hget.
    set (b2 := setslice b1 (n + k) (n + k + L) bs) in *.
    exists b2. split; [now replace (n + (k + L))%nat with (n + k + L)%nat by lia|].
    split; [eapply writes_exactly_trans; [|exact Hw1|]; [lia|];
            now replace (n + (k + L))%nat with (n + k + L)%nat by lia|].
    intros buf Hbuf. replace (n + (k + L))%nat with (n + k + L)%nat in Hbuf by lia.
    destruct (Hread1 buf) as [Hu _].
    { apply (writes_exactly_prefix (n + k) (n + k + L) b1 b2 buf (n + k));
        [lia | exact Hw2 | exact Hbuf]. }
    rewrite Hu. cbn [mbind result_bind].
    rewrite room_check_Z, Nat2Z.id by lia.
    assert (n + k + L <= length buf)%nat.
    { apply (take_eq_length _ _ _ Hbuf). destruct Hw2 as (-> & _). lia. }
    rewrite leb_true by lia. cbn [negb].
    rewrite (getslice_prefix _ buf (n + k) (n + k + L) Hbuf), Hget.
    replace (n + (k + L))%nat with (n + k + L)%nat by lia. split; reflexivity.
  - destruct (Nat.le_gt_cases (n + k) (length b)) as [Hfit|Hno].
    + destruct (Hok Hfit) as (b1 & -> & (Hl1 & _ & _) & _).
      cbn [mbind result_bind]. rewrite room_check, leb_false by lia. reflexivity.
    + now rewrite (Hshort Hno).
Qed.

(** X7: for a byte string whose length is below [2^64], [marshal_bytes]
    succeeds exactly when [size_bytes bs] bytes are left, and raises
    [BUF_TOO_SMALL] otherwise; it changes these bytes and no other; on
    every buffer that holds them, [unmarshal_bytes] returns the byte
    string and [skip_bytes] the offset after it. *)
Theorem marshal_bytes_contract (n : nat) (b : list byte) (bs : list byte) :
  Z.of_nat (length bs) < 2 ^ 64 ->
  let n' := (n + Z.to_nat (size_bytes bs))%nat in
  ((n' <= length b)%nat ->
   exists b',
     marshal_bytes n b bs = Ok (n', b') /\
     writes_exactly n n' b b' /\
     forall buf, take n' buf = take n' b' ->
       unmarshal_bytes n buf = Ok (n', bs) /\ skip_bytes n buf = Ok n') /\
  ((length b < n')%nat ->
   marshal_bytes n b bs = Raise (BencException BUF_TOO_SMALL)).
Proof.
  intros Hbs. destruct (bytes_codec_lawful bs Hbs) as [_ Hlaw].
  exact (Hlaw n b).
Qed.

Lemma marshal_bytes_contract_witness :
  marshal_bytes 0 [x00; x00; x00; x00] [x07; x08]
  = Ok (3%nat, [x02; x07; x08; x00]) /\
  unmarshal_bytes 0 [x02; x07; x08; xff] = Ok (3%nat, [x07; x08]) /\
  marshal_bytes 0 [x00; x00] [x07; x08] = Raise (BencException BUF_TOO_SMALL).
Proof.
  assert (Hbs : Z.of_nat (length [x07; x08]) < 2 ^ 64) by (cbn; lia).
  destruct (marshal_bytes_contract 0 [x00; x00; x00; x00] [x07; x08] Hbs)
    as [Hroom _].
  destruct Hroom as (b' & Hm & _ & Hread); [vm_compute; lia|].
  assert (b' = [x02; x07; x08; x00]) as -> by (vm_compute in Hm; congruence).
  split; [exact Hm|].
  destruct (Hread [x02; x07; x08; xff]) as [Hu _]; [reflexivity|].
  split; [exact Hu|].
  destruct (marshal_bytes_contract 0 [x00; x00] [x07; x08] Hbs) as [_ Hshort].
  apply Hshort. vm_compute. lia.
Defined.

(** [skip_bytes] is [unmarshal_bytes] without the payload. *)
Lemma skip_bytes_offset : skip_agrees skip_bytes unmarshal_bytes.
Proof.
  intros n b. unfold skip_bytes, unmarshal_bytes, offset_of.
  destruct (unmarshal_uint n b) as [[n1 size]|e]; cbn; [|reflexivity].
  now destruct (_ <? _).
Qed.

Lemma skip_string_skip_bytes n b : skip_string n b = skip_bytes n b.
Proof. reflexivity. Qed.

(** X8: on every buffer and offset, [skip_bytes] returns the offset that
    [unmarshal_bytes] returns and raises what it raises, and [skip_string]
    does what [skip_bytes] does. *)
Theorem skip_bytes_agrees_unmarshal_bytes (n : nat) (b : list byte) :
  skip_bytes n b = offset_of (unmarshal_bytes n b) /\
  skip_string n b = skip_bytes n b.
Proof.
  split; [apply skip_bytes_offset | apply skip_string_skip_bytes].
Qed.

(** *** UTF-8 *)

Lemma lor_high_low hi k lo :
  0 <= k -> 0 <= lo < 2 ^ k -> Z.lor (hi * 2 ^ k) lo = hi * 2 ^ k + lo.
Proof.
  intros Hk Hlo.
  assert (Hland : Z.land (hi * 2 ^ k) lo = 0).
  { apply Z.bits_inj'. intros i Hi. rewrite Z.land_spec, Z.bits_0.
    destruct (Z.ltb_spec i k).
    - now rewrite Z.mul_pow2_bits_low by lia.
    - rewrite <- (Z.mod_small lo (2 ^ k)) by lia.
      rewrite Z.mod_pow2_bits_high by lia. apply andb_false_r. }
  now rewrite Z.add_nocarry_lxor, Z.lxor_lor.
Qed.

Lemma lor_lead (lead lo : Z) (hi k : Z) :
  lead = hi * 2 ^ k -> 0 <= k -> 0 <= lo < 2 ^ k -> Z.lor lead lo = lead + lo.
Proof. intros ->. apply lor_high_low. Qed.

Lemma shiftl_lor_low a k lo :
  0 <= k -> 0 <= lo < 2 ^ k -> Z.lor (Z.shiftl a k) lo = a * 2 ^ k + lo.
Proof. intros Hk Hlo. rewrite Z.shiftl_mul_pow2 by lia. now apply lor_high_low. Qed.

Lemma land_mask x k mask :
  mask = Z.ones k -> 0 <= k -> Z.land x mask = x mod 2 ^ k.
Proof. intros -> Hk. now apply Z.land_ones. Qed.

Lemma bytes_of_ints_ok ints cs :
  bytes_of_ints ints = Ok cs -> int_of_byte <$> cs = ints.
Proof.
  revert cs. induction ints as [|z ints IH]; intros cs; cbn.
  - now intros [= <-].
  - unfold byte_of_int.
    destruct ((0 <=? z) && (z <? 256)) eqn:Hr; [|discriminate].
    destruct (Byte.of_N (Z.to_N z)) as [c|] eqn:Hc; [|discriminate].
    cbn. destruct (bytes_of_ints ints) as [cs'|]; [|discriminate]. cbn.
    intros [= <-]. cbn. rewrite (IH cs' eq_refl). f_equal.
    unfold int_of_byte. rewrite (Byte.to_of_N _ Hc).
    apply andb_true_iff in Hr as [H0%Z.leb_le _]. lia.
Qed.

Lemma bytes_of_ints_app ints1 ints2 cs :
  bytes_of_ints (ints1 ++ ints2) = Ok cs ->
  exists cs1 cs2, cs = cs1 ++ cs2 /\
    bytes_of_ints ints1 = Ok cs1 /\ bytes_of_ints ints2 = Ok cs2.
Proof.
  revert cs. induction ints1 as [|z ints1 IH]; intros cs; cbn.
  - intros H. now exists [], cs.
  - destruct (byte_of_int z) as [c|]; cbn; [|discriminate].
    destruct (bytes_of_ints (ints1 ++ ints2)) as [cs'|] eqn:Happ; [|discriminate].
    cbn. intros [= <-]. destruct (IH cs' eq_refl) as (cs1 & cs2 & -> & -> & ->).
    now exists (c :: cs1), cs2.
Qed.

Ltac arith := Z.div_mod_to_equations; lia.

Ltac decide_tests :=
  repeat (cbn [andb]; cbv beta iota;
          match goal with
          | |- context [?a =? ?b] => destruct (Z.eqb_spec a b); try arith
          | |- context [?a <? ?b] => destruct (Z.ltb_spec a b); try arith
          | |- context [?a <=? ?b] => destruct (Z.leb_spec a b); try arith
          end);
  cbn [andb]; cbv beta iota.

(** One step of [decode_utf8]. *)
Lemma decode_utf8_cons (c0 : byte) (bs1 : list byte) :
  decode_utf8 (c0 :: bs1) =
  let b0 := int_of_byte c0 in
  if b0 <? 0x80 then
    s ← decode_utf8 bs1; Ok (b0 :: s)
  else if between 0xC2 b0 0xDF then
    match bs1 with
    | c1 :: bs2 =>
        let b1 := int_of_byte c1 in
        if between 0x80 b1 0xBF then
          s ← decode_utf8 bs2;
          Ok (Z.lor (Z.shiftl (Z.land b0 0x1F) 6) (Z.land b1 0x3F) :: s)
        else Raise ValueError
    | _ => Raise ValueError
    end
  else if between 0xE0 b0 0xEF then
    match bs1 with
    | c1 :: c2 :: bs3 =>
        let b1 := int_of_byte c1 in
        let b2 := int_of_byte c2 in
        if between (if b0 =? 0xE0 then 0xA0 else 0x80) b1
                   (if b0 =? 0xED then 0x9F else 0xBF)
           && between 0x80 b2 0xBF then
          s ← decode_utf8 bs3;
          Ok (Z.lor (Z.shiftl (Z.land b0 0x0F) 12)
                (Z.lor (Z.shiftl (Z.land b1 0x3F) 6) (Z.land b2 0x3F))
              :: s)
        else Raise ValueError
    | _ => Raise ValueError
    end
  else if between 0xF0 b0 0xF4 then
    match bs1 with
    | c1 :: c2 :: c3 :: bs4 =>
        let b1 := int_of_byte c1 in
        let b2 := int_of_byte c2 in
        let b3 := int_of_byte c3 in
        if between (if b0 =? 0xF0 then 0x90 else 0x80) b1
                   (if b0 =? 0xF4 then 0x8F else 0xBF)
           && between 0x80 b2 0xBF && between 0x80 b3 0xBF then
          s ← decode_utf8 bs4;
          Ok (Z.lor (Z.shiftl (Z.land b0 0x07) 18)
                (Z.lor (Z.shiftl (Z.land b1 0x3F) 12)
                   (Z.lor (Z.shiftl (Z.land b2 0x3F) 6) (Z.land b3 0x3F)))
              :: s)
        else Raise ValueError
    | _ => Raise ValueError
    end
  else Raise ValueError.
Proof. reflexivity. Qed.

(** Decoding what [utf8_encode_char] produced gives the character back. *)
Lemma decode_utf8_char (c : Z) (ints : list Z) (cs rest : list byte) :
  utf8_encode_char c = Ok ints -> int_of_byte <$> cs = ints ->
  decode_utf8 (cs ++ rest) = s ← decode_utf8 rest; Ok (c :: s).
Proof.
  unfold utf8_encode_char. intros Henc Hcs.
  destruct (Z.ltb_spec c 0); [discriminate|].
  destruct (Z.ltb_spec c 0x80).
  { injection Henc as <-. destruct cs as [|c0 [|? ?]]; try discriminate.
    injection Hcs as Hc0. cbn [app]. rewrite decode_utf8_cons. cbn zeta.
    rewrite Hc0. now destruct (Z.ltb_spec c 128); [|lia]. }
  destruct (Z.ltb_spec c 0x800).
  { injection Henc as <-. destruct cs as [|c0 [|c1 [|? ?]]]; try discriminate.
    injection Hcs as Hc0 Hc1. cbn [app]. rewrite decode_utf8_cons. cbn zeta.
    rewrite Z.shiftr_div_pow2 in Hc0 by lia.
    rewrite (land_mask c 6) in Hc1 by (reflexivity || lia).
    rewrite (lor_lead _ _ 3 6) in Hc0 by (reflexivity || lia || arith).
    rewrite (lor_lead _ _ 2 6) in Hc1 by (reflexivity || lia || arith).
    rewrite Hc0, Hc1. unfold between. decide_tests.
    rewrite (land_mask _ 5), (land_mask _ 6) by (reflexivity || lia).
    rewrite shiftl_lor_low by (lia || arith).
    now replace (_ * 2 ^ 6 + _) with c by arith. }
  destruct (Z.ltb_spec c 0x10000).
  { destruct ((0xD800 <=? c) && (c <=? 0xDFFF)) eqn:Hsur; [discriminate|].
    assert (Hns : c < 0xD800 \/ 0xDFFF < c).
    { apply andb_false_iff in Hsur as [?%Z.leb_gt|?%Z.leb_gt]; lia. }
    clear Hsur.
    injection Henc as <-.
    destruct cs as [|c0 [|c1 [|c2 [|? ?]]]]; try discriminate.
    injection Hcs as Hc0 Hc1 Hc2. cbn [app]. rewrite decode_utf8_cons. cbn zeta.
    rewrite !Z.shiftr_div_pow2 in * by lia.
    rewrite (land_mask _ 6) in Hc1 by (reflexivity || lia).
    rewrite (land_mask _ 6) in Hc2 by (reflexivity || lia).
    rewrite (lor_lead _ _ 14 4) in Hc0 by (reflexivity || lia || arith).
    rewrite (lor_lead _ _ 2 6) in Hc1 by (reflexivity || lia || arith).
    rewrite (lor_lead _ _ 2 6) in Hc2 by (reflexivity || lia || arith).
    rewrite Hc0, Hc1, Hc2. unfold between. decide_tests.
    all: rewrite (land_mask _ 4), !(land_mask _ 6) by (reflexivity || lia).
    all: rewrite (shiftl_lor_low _ 6) by (lia || arith).
    all: rewrite (shiftl_lor_low _ 12) by (lia || arith).
    all: now replace (_ * 2 ^ 12 + _) with c by arith. }
  destruct (Z.ltb_spec c 0x110000); [|discriminate].
  injection Henc as <-.
  destruct cs as [|c0 [|c1 [|c2 [|c3 [|? ?]]]]]; try discriminate.
  injection Hcs as Hc0 Hc1 Hc2 Hc3. cbn [app]. rewrite decode_utf8_cons. cbn zeta.
  rewrite !Z.shiftr_div_pow2 in * by lia.
  rewrite (land_mask _ 6) in Hc1 by (reflexivity || lia).
  rewrite (land_mask _ 6) in Hc2 by (reflexivity || lia).
  rewrite (land_mask _ 6) in Hc3 by (reflexivity || lia).
  rewrite (lor_lead _ _ 30 3) in Hc0 by (reflexivity || lia || arith).
  rewrite (lor_lead _ _ 2 6) in Hc1 by (reflexivity || lia || arith).
  rewrite (lor_lead _ _ 2 6) in Hc2 by (reflexivity || lia || arith).
  rewrite (lor_lead _ _ 2 6) in Hc3 by (reflexivity || lia || arith).
  rewrite Hc0, Hc1, Hc2, Hc3. unfold between. decide_tests.
  all: rewrite (land_mask _ 3), !(land_mask _ 6) by (reflexivity || lia).
  all: rewrite (shiftl_lor_low _ 6) by (lia || arith).
  all: rewrite (shiftl_lor_low _ 12) by (lia || arith).
  all: rewrite (shiftl_lor_low _ 18) by (lia || arith).
  all: now replace (_ * 2 ^ 18 + _) with c by arith.
Qed.

Lemma decode_encode_utf8 (s : str) (ints : list Z) (cs : list byte) :
  encode_utf8 s = Ok ints -> int_of_byte <$> cs = ints ->
  decode_utf8 cs = Ok s.
Proof.
  revert ints cs. induction s as [|c s IH]; intros ints cs; cbn [encode_utf8].
  - intros [= <-]. now destruct cs.
  - destruct (utf8_encode_char c) as [ints1|] eqn:Hc; [|discriminate].
    cbn [mbind result_bind].
    destruct (encode_utf8 s) as [ints2|]; [|discriminate]. cbn [mbind result_bind].
    intros [= <-] Hcs.
    apply fmap_app_inv in Hcs as (cs1 & cs2 & H1 & H2 & ->).
    rewrite (decode_utf8_char c ints1 cs1 cs2 Hc (eq_sym H1)).
    now rewrite (IH ints2 cs2 eq_refl (eq_sym H2)).
Qed.

Lemma str_encode_decode (s : str) (encoded_s : list byte) :
  str_encode s = Ok encoded_s -> decode_utf8 encoded_s = Ok s.
Proof.
  unfold str_encode. destruct (encode_utf8 s) as [ints|] eqn:He; [|discriminate].
  cbn. intros Hb%bytes_of_ints_ok. exact (decode_encode_utf8 s ints _ He Hb).
Qed.

(** *** Strings *)

Lemma marshal_string_bytes n b s encoded_s :
  str_encode s = Ok encoded_s ->
  marshal_string n b s = marshal_bytes n b encoded_s.
Proof. intros H. unfold marshal_string. now rewrite H. Qed.

Lemma unmarshal_string_bytes n b :
  unmarshal_string n b =
  '(n', bs) ← unmarshal_bytes n b; s ← decode_utf8 bs; Ok (n', s).
Proof.
  unfold unmarshal_string, unmarshal_bytes.
  destruct (unmarshal_uint n b) as [[n1 size]|e]; cbn; [|reflexivity].
  now destruct (_ <? _).
Qed.

Lemma size_string_bytes s encoded_s :
  str_encode s = Ok encoded_s -> size_string s = Ok (size_bytes encoded_s).
Proof.
  unfold str_encode, size_string, size_bytes.
  destruct (encode_utf8 s) as [ints|]; cbn; [|discriminate].
  intros Hb%bytes_of_ints_ok. rewrite <- Hb, length_fmap. reflexivity.
Qed.

(** X9: for a string that [str.encode] accepts, with an encoding
    shorter than [2^64] bytes, [size_string] is the number of bytes that
    [marshal_string] writes; [marshal_string] succeeds exactly when that
    many bytes are left, and raises [BUF_TOO_SMALL] otherwise; it changes
    these bytes and no other; on every buffer that holds them,
    [unmarshal_string] returns the string and [skip_string] the offset
    after it. *)
Theorem string_codec_lawful : lawful encodable string_codec.
Proof.
  intros s (encoded_s & Henc & Hlen).
  cbn [c_size c_marshal c_unmarshal c_skip string_codec].
  rewrite (size_string_bytes s encoded_s Henc).
  destruct (bytes_codec_lawful encoded_s Hlen) as [Hsize Hlaw].
  cbn [c_size c_marshal c_unmarshal c_skip bytes_codec] in Hsize, Hlaw.
  split; [exact Hsize|]. intros n b. cbn zeta.
  destruct (Hlaw n b) as [Hok Hshort]. cbn zeta in Hok, Hshort.
  rewrite (marshal_string_bytes n b s encoded_s Henc).
  split; [|exact Hshort].
  intros Hroom. destruct (Hok Hroom) as (b' & Hm & Hw & Hread).
  exists b'. split; [exact Hm|]. split; [exact Hw|].
  intros buf Hbuf. destruct (Hread buf Hbuf) as [Hu Hs].
  split; [|exact Hs].
  rewrite unmarshal_string_bytes, Hu. cbn [mbind result_bind].
  now rewrite (str_encode_decode s encoded_s Henc).
Qed.

Lemma string_codec_lawful_witness :
  encodable [0x68; 0xE9] /\
  size_string [0x68; 0xE9] = Ok 4 /\
  marshal_string 0 [x00; x00; x00; x00; x00] [0x68; 0xE9]
  = Ok (4%nat, [x03; x68; xc3; xa9; x00]) /\
  unmarshal_string 0 [x03; x68; xc3; xa9; xff] = Ok (4%nat, [0x68; 0xE9]) /\
  marshal_string 0 [x00; x00; x00] [0x68; 0xE9]
  = Raise (BencException BUF_TOO_SMALL).
Proof.
  assert (Hs : encodable [0x68; 0xE9]).
  { exists [x68; xc3; xa9]. split; [reflexivity | cbn; lia]. }
  split; [exact Hs|]. split; [reflexivity|].
  destruct (string_codec_lawful [0x68; 0xE9] Hs) as [_ Hlaw].
  cbn [c_size c_marshal c_unmarshal c_skip string_codec] in Hlaw.
  destruct (Hlaw 0%nat [x00; x00; x00; x00; x00]) as [Hroom _].
  destruct Hroom as (b' & Hm & _ & Hread); [vm_compute; lia|].
  assert (b' = [x03; x68; xc3; xa9; x00]) as ->
    by (vm_compute in Hm; congruence).
  split; [exact Hm|].
  destruct (Hread [x03; x68; xc3; xa9; xff]) as [Hu _]; [reflexivity|].
  split; [exact Hu|].
  destruct (Hlaw 0%nat [x00; x00; x00]) as [_ Hshort].
  apply Hshort. vm_compute. lia.
Defined.

Lemma decode_utf8_raises_aux (k : nat) : forall bs e,
  (length bs <= k)%nat -> decode_utf8 bs = Raise e -> e = ValueError.
Proof.
  induction k as [|k IH]; intros bs e Hk.
  - destruct bs; [discriminate | cbn in Hk; lia].
  - destruct bs as [|c0 bs1]; [discriminate|]. cbn [length] in Hk.
    rewrite decode_utf8_cons. cbn zeta.
    assert (Hrec : forall bs' (f : str -> result str),
      (length bs' <= k)%nat -> (forall s, exists s', f s = Ok s') ->
      (s ← decode_utf8 bs'; f s) = Raise e -> e = ValueError).
    { intros bs' f Hl Hf. destruct (decode_utf8 bs') as [s|e'] eqn:Hd; cbn.
      - destruct (Hf s) as [s' ->]. discriminate.
      - intros [= <-]. exact (IH bs' e' Hl Hd). }
    destruct (_ <? _).
    { apply Hrec; [lia | eauto]. }
    destruct (between 194 _ 223).
    { destruct bs1 as [|c1 bs2]; [now intros [= <-]|].
      destruct (between _ _ _); [|now intros [= <-]].
      apply Hrec; [cbn in Hk; lia | eauto]. }
    destruct (between 224 _ 239).
    { destruct bs1 as [|c1 [|c2 bs3]]; try (now intros [= <-]).
      destruct (_ && _); [|now intros [= <-]].
      apply Hrec; [cbn in Hk; lia | eauto]. }
    destruct (between 240 _ 244); [|now intros [= <-]].
    destruct bs1 as [|c1 [|c2 [|c3 bs4]]]; try (now intros [= <-]).
    destruct (_ && _); [|now intros [= <-]].
    apply Hrec; [cbn in Hk; lia | eauto].
Qed.

Lemma decode_utf8_raises bs e : decode_utf8 bs = Raise e -> e = ValueError.
Proof. apply (decode_utf8_raises_aux (length bs)). lia. Qed.

Lemma unmarshal_uint_raises n b e :
  unmarshal_uint n b = Raise e ->
  e = BencException OVERFLOW \/ e = BencException BUF_TOO_SMALL.
Proof.
  rewrite unmarshal_uint_refines_spec. unfold unmarshal_uint_spec.
  destruct (_ !! _).
  - destruct (_ && _); [|discriminate]. intros [= <-]. now left.
  - destruct (Nat.eqb _ _); intros [= <-]; auto.
Qed.

Lemma unmarshal_bytes_raises n b e :
  unmarshal_bytes n b = Raise e ->
  e = BencException OVERFLOW \/ e = BencException BUF_TOO_SMALL.
Proof.
  unfold unmarshal_bytes.
  destruct (unmarshal_uint n b) as [[n1 size]|e'] eqn:Hu; cbn.
  - destruct (_ <? _); [|discriminate]. intros [= <-]. now right.
  - intros [= <-]. exact (unmarshal_uint_raises n b e' Hu).
Qed.

(** X10: [skip_string] does not decode: it ends where [unmarshal_string] ends
    whenever that succeeds, it raises only what [unmarshal_string] raises,
    and where it succeeds [unmarshal_string] succeeds too unless the payload
    is not UTF-8, which the decoder's exception reports. *)
Theorem skip_string_unmarshal_string (n : nat) (b : list byte) :
  (forall n' s, unmarshal_string n b = Ok (n', s) -> skip_string n b = Ok n') /\
  (forall e, skip_string n b = Raise e ->
             unmarshal_string n b = Raise e /\
             (e = BencException OVERFLOW \/ e = BencException BUF_TOO_SMALL)) /\
  (forall n', skip_string n b = Ok n' ->
              (exists s, unmarshal_string n b = Ok (n', s)) \/
              unmarshal_string n b = Raise ValueError).
Proof.
  rewrite skip_string_skip_bytes, skip_bytes_offset, unmarshal_string_bytes.
  unfold offset_of.
  destruct (unmarshal_bytes n b) as [[n1 bs]|e] eqn:Hu; cbn [mbind result_bind].
  - destruct (decode_utf8 bs) as [s|e] eqn:Hd; cbn [mbind result_bind].
    + split; [now intros ? ? [= <- <-]|]. split; [discriminate|].
      intros n' [= <-]. left. now exists s.
    + apply decode_utf8_raises in Hd as ->.
      split; [discriminate|]. split; [discriminate|]. intros n' _. now right.
  - split; [discriminate|]. split; [|discriminate].
    intros e' [= <-]. split; [reflexivity|].
    exact (unmarshal_bytes_raises n b e Hu).
Qed.

(** *** Slices *)

Lemma fold_left_total_size {T} (sizer : @SizeFunc T) (l : list T) (a : Z) :
  fold_left (fun total item => total + sizer item) l a = a + total_size sizer l.
Proof.
  unfold total_size.
  revert a. induction l as [|x l IH]; intros a; cbn [fold_left foldr]; [lia|].
  rewrite IH. lia.
Qed.

Lemma size_slice_total {T} (sizer : @SizeFunc T) (l : list T) :
  size_slice l sizer
  = 4 + size_uint (Z.of_nat (length l)) + total_size sizer l.
Proof. unfold size_slice. apply fold_left_total_size. Qed.

Section SliceCodec.
Context {T : Type} (P : T -> Prop) (c : codec T).
Hypothesis Hc : lawful P c.

Lemma total_size_nonneg l : Forall P l -> 0 <= total_size (c_size c) l.
Proof.
  unfold total_size.
  induction 1 as [|x l Hx _ IH]; cbn [foldr]; [lia|].
  destruct (Hc x Hx) as [? _]. lia.
Qed.

Lemma marshal_slice_for_lawful l :
  Forall P l ->
  forall n b,
    let n' := (n + Z.to_nat (total_size (c_size c) l))%nat in
    ((n' <= length b)%nat ->
     exists b',
       marshal_slice_for l (c_marshal c) n b = Ok (n', b') /\
       writes_exactly n n' b b' /\
       forall buf, take n' buf = take n' b' ->
         (forall acc, unmarshal_slice_for (length l) (c_unmarshal c) n buf acc
                      = Ok (n', acc ++ l)) /\
         skip_slice_for (length l) (c_skip c) n buf = Ok n') /\
    ((n <= length b < n')%nat ->
     marshal_slice_for l (c_marshal c) n b
     = Raise (BencException BUF_TOO_SMALL)).
Proof.
  induction 1 as [|item l Hitem Hl IH]; intros n b; cbn zeta.
  - cbn. rewrite Nat.add_0_r. split; [|lia]. intros _. exists b.
    split; [reflexivity|]. split; [apply writes_exactly_refl|].
    intros buf _. split; [intros acc; now rewrite app_nil_r | reflexivity].
  - cbn [total_size foldr]. fold (total_size (c_size c) l).
    destruct (Hc item Hitem) as [Hsz Hlaw].
    pose proof (total_size_nonneg l Hl) as Htot.
    set (sz := Z.to_nat (c_size c item)).
    set (tot := Z.to_nat (total_size (c_size c) l)).
    replace (Z.to_nat (c_size c item + total_size (c_size c) l))
      with (sz + tot)%nat by lia.
    destruct (Hlaw n b) as [Hok Hshort]. cbn zeta in Hok, Hshort. fold sz in Hok, Hshort.
    cbn [marshal_slice_for unmarshal_slice_for skip_slice_for length].
    split; intros Hroom.
    + destruct (Hok ltac:(lia)) as (b1 & -> & Hw1 & Hread1).
      cbn [mbind result_bind]. pose proof Hw1 as (Hl1 & _ & _).
      destruct (IH (n + sz)%nat b1) as [Hok2 _]. cbn zeta in Hok2. fold tot in Hok2.
      destruct (Hok2 ltac:(lia)) as (b2 & Hm2 & Hw2 & Hread2).
      replace (n + (sz + tot))%nat with (n + sz + tot)%nat by lia.
      exists b2. split; [exact Hm2|].
      split; [eapply writes_exactly_trans; [|exact Hw1|exact Hw2]; lia|].
      intros buf Hbuf.
      destruct (Hread1 buf) as [Hu Hs].
      { apply (writes_exactly_prefix (n + sz) (n + sz + tot) b1 b2 buf (n + sz));
          [lia | exact Hw2 | exact Hbuf]. }
      destruct (Hread2 buf Hbuf) as [Hu2 Hs2].
      rewrite Hu, Hs. cbn [mbind result_bind]. split; [|exact Hs2].
      intros acc. rewrite Hu2, <- app_assoc. reflexivity.
    + destruct (Nat.le_gt_cases (n + sz) (length b)) as [Hfit|Hno].
      * destruct (Hok Hfit) as (b1 & -> & (Hl1 & _ & _) & _).
        cbn [mbind result_bind].
        destruct (IH (n + sz)%nat b1) as [_ Hshort2]. apply Hshort2.
        fold tot. lia.
      * rewrite Hshort; [reflexivity | lia].
Qed.

(** Slices of lawful elements are lawful, as long as the count fits a
    varint. *)
Lemma slice_codec_lawful :
  lawful (fun l => Forall P l /\ Z.of_nat (length l) < 2 ^ 64) (slice_codec c).
Proof.
  intros l [Hl Hcount]. cbn [c_size c_marshal c_unmarshal c_skip slice_codec].
  rewrite size_slice_total.
  pose proof (total_size_nonneg l Hl) as Htot.
  assert (HL : 0 <= Z.of_nat (length l) < 2 ^ 64) by lia.
  destruct (uint_codec_lawful _ HL) as [Hsize Hlaw].
  cbn [c_size c_marshal c_unmarshal c_skip uint_codec] in Hsize, Hlaw.
  split; [lia|]. intros n b. cbn zeta.
  set (k := Z.to_nat (size_uint (Z.of_nat (length l)))) in *.
  set (tot := Z.to_nat (total_size (c_size c) l)).
  replace (Z.to_nat (4 + size_uint (Z.of_nat (length l)) + total_size (c_size c) l))
    with (k + tot + 4)%nat by lia.
  destruct (Hlaw n b) as [Hok Hshort]. cbn zeta in Hok, Hshort.
  unfold marshal_slice, unmarshal_slice, skip_slice. split; intros Hroom.
  - destruct (Hok ltac:(lia)) as (b1 & -> & Hw1 & Hread1).
    cbn [mbind result_bind]. pose proof Hw1 as (Hl1 & _ & _).
    destruct (marshal_slice_for_lawful l Hl (n + k)%nat b1) as [Hok2 _].
    cbn zeta in Hok2. fold tot in Hok2.
    destruct (Hok2 ltac:(lia)) as (b2 & -> & Hw2 & Hread2).
    cbn [mbind result_bind]. pose proof Hw2 as (Hl2 & _ & _).
    rewrite terminator_check, leb_true by lia. cbn [negb].
    destruct (setslice_writes_exactly b2 (n + k + tot) [x01; x01; x01; x01])
      as [Hw3 _]; [cbn [length]; lia|].
    cbn [length] in Hw3.
    set (b3 := setslice b2 (n + k + tot) (n + k + tot + 4) [x01; x01; x01; x01]) in *.
    replace (n + (k + tot + 4))%nat with (n + k + tot + 4)%nat by lia.
    exists b3. split; [reflexivity|]. split.
    { eapply writes_exactly_trans; [|exact Hw1|].
      - assert (n <= n + k <= n + k + tot + 4)%nat by lia. eassumption.
      - eapply writes_exactly_trans; [|exact Hw2|exact Hw3]. lia. }
    intros buf Hbuf.
    assert (Hbuf2 : take (n + k + tot) buf = take (n + k + tot) b2).
    { apply (writes_exactly_prefix (n + k + tot) (n + k + tot + 4) b2 b3 buf);
        [lia | exact Hw3 | exact Hbuf]. }
    assert (Hbuf1 : take (n + k) buf = take (n + k) b1).
    { apply (writes_exactly_prefix (n + k) (n + k + tot) b1 b2 buf);
        [lia | exact Hw2 | exact Hbuf2]. }
    destruct (Hread1 buf Hbuf1) as [Hu _].
    destruct (Hread2 buf Hbuf2) as [Hu2 Hs2].
    rewrite Hu. cbn [mbind result_bind]. rewrite Nat2Z.id, (Hu2 []), Hs2.
    cbn [mbind result_bind app].
    assert (n + k + tot + 4 <= length buf)%nat.
    { apply (take_eq_length _ _ _ Hbuf). destruct Hw3 as (-> & _). lia. }
    rewrite terminator_check, leb_true by lia. split; reflexivity.
  - destruct (Nat.le_gt_cases (n + k) (length b)) as [Hfit|Hno];
      [|now rewrite (Hshort Hno)].
    destruct (Hok Hfit) as (b1 & -> & (Hl1 & _ & _) & _).
    cbn [mbind result_bind].
    destruct (marshal_slice_for_lawful l Hl (n + k)%nat b1) as [Hok2 Hshort2].
    cbn zeta in Hok2, Hshort2. fold tot in Hok2, Hshort2.
    destruct (Nat.le_gt_cases (n + k + tot) (length b1)) as [Hfit2|Hno2];
      [|rewrite Hshort2; [reflexivity | lia]].
    destruct (Hok2 Hfit2) as (b2 & -> & (Hl2 & _ & _) & _).
    cbn [mbind result_bind].
    now rewrite terminator_check, leb_false by lia.
Qed.
End SliceCodec.

(** X11: when the four operations of the elements keep their contract on
    the values that satisfy [P], those of slices keep it on the lists of
    such values with fewer than [2^64] elements: [size_slice] is the
    number of bytes that [marshal_slice] writes; [marshal_slice] succeeds
    exactly when that many bytes are left, and raises [BUF_TOO_SMALL]
    otherwise; it changes these bytes and no other; on every buffer that
    holds them, [unmarshal_slice] returns the list and [skip_slice] the
    offset after it. The conclusion is the hypothesis again, so slices
    nest. *)
Theorem marshal_slice_contract {T} (P : T -> Prop) (c : codec T) :
  lawful P c ->
  lawful (fun l => Forall P l /\ Z.of_nat (length l) < 2 ^ 64) (slice_codec c).
Proof. intros Hc. exact (slice_codec_lawful P c Hc). Qed.

Lemma marshal_slice_contract_witness :
  exists b',
    marshal_slice 0 (replicate 20 x00) [[1; 2]; [300]]
      (fun n b l => marshal_slice n b l marshal_uint) = Ok (19%nat, b') /\
    unmarshal_slice 0 b' (fun n b => unmarshal_slice n b unmarshal_uint)
    = Ok (19%nat, [[1; 2]; [300]]) /\
    skip_slice 0 b' (fun n b => skip_slice n b skip_varint) = Ok 19%nat.
Proof.
  pose proof (marshal_slice_contract _ _
                (marshal_slice_contract _ _ uint_codec_lawful)) as Hlaw.
  destruct (Hlaw [[1; 2]; [300]]) as [_ Hnb].
  { cbn [length]. split; [|lia].
    repeat constructor; cbn [length]; lia. }
  destruct (Hnb 0%nat (replicate 20 x00)) as [Hroom _].
  destruct Hroom as (b' & Hm & _ & Hread); [vm_compute; lia|].
  cbn [c_size c_marshal c_unmarshal c_skip slice_codec uint_codec]
    in Hm, Hread.
  exists b'. split; [exact Hm|]. exact (Hread b' eq_refl).
Defined.

(** [skip_varint] is [unmarshal_uint] without the value. *)
Lemma skip_varint_offset : skip_agrees skip_varint unmarshal_uint.
Proof.
  intros n buf. unfold offset_of, skip_varint, unmarshal_uint.
  rewrite (skip_varint_for_agrees _ _ _ 0 0).
  now destruct (unmarshal_uint_for _ _ _ _ _) as [[n' v]|e].
Qed.

(** Skipping a slice is unmarshaling it without its items, on every
    buffer, when that holds of the elements. *)
Lemma skip_slice_offset {T} (skipper : SkipFunc) (unmarshaler : @UnmarshalFunc T) :
  skip_agrees skipper unmarshaler ->
  skip_agrees (fun n b => skip_slice n b skipper)
              (fun n b => unmarshal_slice n b unmarshaler).
Proof.
  intros Hel n b. unfold skip_slice, unmarshal_slice, offset_of.
  destruct (unmarshal_uint n b) as [[n0 size]|e]; cbn [mbind result_bind];
    [|reflexivity].
  assert (Hfor : forall count n acc,
    skip_slice_for count skipper n b
    = offset_of (unmarshal_slice_for count unmarshaler n b acc)).
  { induction count as [|count IH]; intros m acc; cbn; [reflexivity|].
    rewrite (Hel m b). unfold offset_of.
    destruct (unmarshaler m b) as [[m' item]|e]; cbn; [apply IH | reflexivity]. }
  rewrite (Hfor _ _ []). unfold offset_of.
  destruct (unmarshal_slice_for _ _ _ _ _) as [[n1 items]|e]; cbn; [|reflexivity].
  now destruct (_ <? _).
Qed.

(** X12: when the element skipper returns on every buffer the offset that
    the element unmarshaler returns, and raises what it raises, then
    [skip_slice] does so for [unmarshal_slice], on every buffer and
    offset. *)
Theorem skip_slice_agrees {T} (skipper : SkipFunc)
    (unmarshaler : @UnmarshalFunc T) :
  skip_agrees skipper unmarshaler ->
  forall n b, skip_slice n b skipper
              = offset_of (unmarshal_slice n b unmarshaler).
Proof. intros Hel n b. exact (skip_slice_offset skipper unmarshaler Hel n b). Qed.

Lemma skip_slice_agrees_witness :
  skip_agrees skip_varint unmarshal_uint /\
  skip_slice 0 [x02; xac; x02; x05; x01; x01; x01] skip_varint
  = offset_of (unmarshal_slice 0 [x02; xac; x02; x05; x01; x01; x01]
                 unmarshal_uint).
Proof.
  split; [exact skip_varint_offset|].
  exact (skip_slice_agrees skip_varint unmarshal_uint skip_varint_offset
           0%nat [x02; xac; x02; x05; x01; x01; x01]).
Defined.

(** X13: [size_fixed_slice] with the size [elem_size] is [size_slice]
    with the sizer that returns [elem_size] for every element. *)
Theorem size_fixed_slice_size_slice {T} (slice_data : list T) (elem_size : Z) :
  size_fixed_slice slice_data elem_size
  = size_slice slice_data (fun _ => elem_size).
Proof.
  rewrite size_slice_total. unfold size_fixed_slice. f_equal.
  induction slice_data as [|x l IH]; [reflexivity|].
  cbn [length total_size foldr]. fold (total_size (fun _ : T => elem_size) l).
  rewrite <- IH. lia.
Qed.

(** *** Maps *)

Section PairCodec.
Context {K V : Type} (PK : K -> Prop) (PV : V -> Prop).
Context (kc : codec K) (vc : codec V).
Hypothesis Hk : lawful PK kc.
Hypothesis Hv : lawful PV vc.

End PairCodec.

Section MapAsSlice.
Context {K V : Type} `{EqDecision K} (kc : codec K) (vc : codec V).

Lemma size_map_size_slice (m : list (K * V)) :
  size_map m (c_size kc) (c_size vc) = size_slice m (c_size (pair_codec kc vc)).
Proof.
  unfold size_map, size_slice. generalize (4 + size_uint (Z.of_nat (length m))).
  induction m as [|[k v] m IH]; intros a; [reflexivity|]. cbn [fold_left].
  apply IH.
Qed.

Lemma marshal_map_marshal_slice (n : nat) (b : list byte) (m : list (K * V)) :
  marshal_map n b m (c_marshal kc) (c_marshal vc)
  = marshal_slice n b m (c_marshal (pair_codec kc vc)).
Proof.
  unfold marshal_map, marshal_slice.
  destruct (marshal_uint n b _) as [[n0 b0]|e]; cbn [mbind result_bind];
    [|reflexivity].
  f_equal. clear. revert n0 b0. induction m as [|[k v] m IH]; intros n b;
    [reflexivity|].
  cbn [marshal_map_for marshal_slice_for c_marshal pair_codec].
  destruct (c_marshal kc n b k) as [[n1 b1]|e]; cbn [mbind result_bind];
    [|reflexivity].
  destruct (c_marshal vc n1 b1 v) as [[n2 b2]|e]; cbn [mbind result_bind];
    [apply IH | reflexivity].
Qed.

Lemma skip_map_skip_slice (n : nat) (b : list byte) :
  skip_map n b (c_skip kc) (c_skip vc)
  = skip_slice n b (c_skip (pair_codec kc vc)).
Proof.
  unfold skip_map, skip_slice.
  destruct (unmarshal_uint n b) as [[n0 size]|e]; cbn [mbind result_bind];
    [|reflexivity].
  f_equal. generalize (Z.to_nat size). clear. intros count. revert n0.
  induction count as [|count IH]; intros n; [reflexivity|].
  cbn [skip_map_for skip_slice_for c_skip pair_codec].
  destruct (c_skip kc n b) as [n1|e]; cbn [mbind result_bind]; [|reflexivity].
  destruct (c_skip vc n1 b) as [n2|e]; cbn [mbind result_bind];
    [apply IH | reflexivity].
Qed.

Lemma dict_of_pairs_snoc (pairs : list (K * V)) k v :
  dict_of_pairs (pairs ++ [(k, v)]) = dict_setitem (dict_of_pairs pairs) k v.
Proof. unfold dict_of_pairs. now rewrite fold_left_app. Qed.

Lemma unmarshal_map_for_slice (b : list byte) (count : nat) :
  forall n acc,
  unmarshal_map_for count (c_unmarshal kc) (c_unmarshal vc) n b
    (dict_of_pairs acc)
  = '(n', pairs) ← unmarshal_slice_for count (c_unmarshal (pair_codec kc vc))
                     n b acc;
    Ok (n', dict_of_pairs pairs).
Proof.
  induction count as [|count IH]; intros n acc; [reflexivity|].
  cbn [unmarshal_map_for unmarshal_slice_for c_unmarshal pair_codec].
  destruct (c_unmarshal kc n b) as [[n1 k]|e]; cbn [mbind result_bind];
    [|reflexivity].
  destruct (c_unmarshal vc n1 b) as [[n2 v]|e]; cbn [mbind result_bind];
    [|reflexivity].
  rewrite <- dict_of_pairs_snoc. apply IH.
Qed.

Lemma unmarshal_map_unmarshal_slice (n : nat) (b : list byte) :
  unmarshal_map n b (c_unmarshal kc) (c_unmarshal vc)
  = '(n', pairs) ← unmarshal_slice n b (c_unmarshal (pair_codec kc vc));
    Ok (n', dict_of_pairs pairs).
Proof.
  unfold unmarshal_map, unmarshal_slice.
  destruct (unmarshal_uint n b) as [[n0 size]|e]; cbn [mbind result_bind];
    [|reflexivity].
  change (@nil (K * V)) with (dict_of_pairs (@nil (K * V))) at 1.
  rewrite unmarshal_map_for_slice.
  destruct (unmarshal_slice_for _ _ _ _ _) as [[n1 pairs]|e];
    cbn [mbind result_bind]; [|reflexivity].
  now destruct (_ <? _).
Qed.

(** *** The [dict] that unmarshaling builds *)

Lemma assoc_dict_setitem (d : list (K * V)) k v key :
  assoc key (dict_setitem d k v)
  = if decide (k = key) then Some v else assoc key d.
Proof.
  induction d as [|[k' v'] d IH]; cbn [dict_setitem assoc].
  - now destruct (decide (k = key)).
  - destruct (decide (k' = k)) as [->|Hne]; cbn [assoc].
    + now destruct (decide (k = key)).
    + rewrite IH. destruct (decide (k' = key)) as [->|]; [|reflexivity].
      destruct (decide (k = key)); [congruence | reflexivity].
Qed.

Lemma keys_dict_setitem (d : list (K * V)) k v :
  (dict_setitem d k v).*1 = if decide (k ∈ d.*1) then d.*1 else d.*1 ++ [k].
Proof.
  induction d as [|[k' v'] d IH]; cbn [dict_setitem fmap list_fmap fst].
  - destruct (decide (k ∈ [])) as [Hin|]; [|reflexivity].
    now apply elem_of_nil in Hin.
  - destruct (decide (k' = k)) as [->|Hne]; cbn [fmap list_fmap fst].
    + destruct (decide (k ∈ k :: d.*1)) as [|Hn]; [reflexivity|].
      exfalso. apply Hn. left.
    + change (list_fmap _ _ fst ?l) with (l.*1). rewrite IH.
      destruct (decide (k ∈ d.*1)) as [Hin|Hnin].
      * destruct (decide (k ∈ k' :: d.*1)) as [|Hn]; [reflexivity|].
        exfalso. apply Hn. now right.
      * destruct (decide (k ∈ k' :: d.*1)) as [Hin|]; [|reflexivity].
        apply elem_of_cons in Hin as [->|]; congruence.
Qed.


Lemma dict_setitem_NoDup (d : list (K * V)) k v :
  NoDup d.*1 -> NoDup (dict_setitem d k v).*1.
Proof.
  intros Hd. rewrite keys_dict_setitem.
  destruct (decide (k ∈ d.*1)); [exact Hd|].
  apply NoDup_app. split; [exact Hd|]. split; [|apply NoDup_singleton].
  intros x Hx Hx'. apply list_elem_of_singleton in Hx'. congruence.
Qed.

Lemma fold_dict_setitem_NoDup (pairs d : list (K * V)) :
  NoDup d.*1 ->
  NoDup (fold_left (fun d '(k, v) => dict_setitem d k v) pairs d).*1.
Proof.
  revert d. induction pairs as [|[k v] pairs IH]; intros d Hd; [exact Hd|].
  cbn [fold_left]. apply IH. now apply dict_setitem_NoDup.
Qed.



Lemma assoc_dict_of_pairs (pairs : list (K * V)) key :
  assoc key (dict_of_pairs pairs) = assoc key (reverse pairs).
Proof.
  induction pairs as [|[k v] pairs IH] using rev_ind; [reflexivity|].
  rewrite dict_of_pairs_snoc, assoc_dict_setitem, reverse_snoc.
  cbn [assoc]. now rewrite IH.
Qed.
End MapAsSlice.

(** X14: the four map functions are the slice functions on the pairs of
    a key and a value: [size_map], [marshal_map] and [skip_map] return
    what [size_slice], [marshal_slice] and [skip_slice] return with the
    key operation followed by the value operation as the element
    operation, and [unmarshal_map] returns the [dict] built by assigning,
    in order, the pairs that [unmarshal_slice] returns. *)
Theorem map_is_slice_of_pairs {K V} `{EqDecision K}
    (kc : codec K) (vc : codec V) (n : nat) (b : list byte)
    (m : list (K * V)) :
  size_map m (c_size kc) (c_size vc)
  = size_slice m (c_size (pair_codec kc vc)) /\
  marshal_map n b m (c_marshal kc) (c_marshal vc)
  = marshal_slice n b m (c_marshal (pair_codec kc vc)) /\
  skip_map n b (c_skip kc) (c_skip vc)
  = skip_slice n b (c_skip (pair_codec kc vc)) /\
  unmarshal_map n b (c_unmarshal kc) (c_unmarshal vc)
  = ('(n', pairs) ← unmarshal_slice n b (c_unmarshal (pair_codec kc vc));
     Ok (n', dict_of_pairs pairs)).
Proof.
  split; [apply size_map_size_slice|].
  split; [apply marshal_map_marshal_slice|].
  split; [apply skip_map_skip_slice | apply unmarshal_map_unmarshal_slice].
Qed.

Section MapCodec.
Context {K V : Type} `{EqDecision K} (PK : K -> Prop) (PV : V -> Prop).
Context (kc : codec K) (vc : codec V).
Hypothesis Hk : lawful PK kc.
Hypothesis Hv : lawful PV vc.


(** X16: whatever the buffer holds, the [dict] that [unmarshal_map]
    returns has distinct keys, and each key has the value of the last pair
    with that key among the pairs read from the buffer: a repeated key is
    not an error. *)
Theorem unmarshal_map_last_wins (n : nat) (b : list byte) n' (d : list (K * V)) :
  unmarshal_map n b (c_unmarshal kc) (c_unmarshal vc) = Ok (n', d) ->
  NoDup d.*1 /\
  exists pairs,
    unmarshal_slice n b (c_unmarshal (pair_codec kc vc)) = Ok (n', pairs) /\
    forall key, assoc key d = assoc key (reverse pairs).
Proof.
  rewrite unmarshal_map_unmarshal_slice.
  destruct (unmarshal_slice n b _) as [[n1 pairs]|e]; cbn [mbind result_bind];
    [|discriminate].
  intros [= <- <-]. split.
  - apply (fold_dict_setitem_NoDup pairs []). constructor.
  - exists pairs. split; [reflexivity|]. intros key. apply assoc_dict_of_pairs.
Qed.
End MapCodec.


Lemma unmarshal_map_last_wins_witness :
  unmarshal_map 0 [x02; x01; x05; x01; x07; x01; x01; x01; x01]
    unmarshal_uint unmarshal_uint = Ok (9%nat, [(1, 7)]) /\
  exists pairs,
    unmarshal_slice 0 [x02; x01; x05; x01; x07; x01; x01; x01; x01]
      (c_unmarshal (pair_codec uint_codec uint_codec)) = Ok (9%nat, pairs) /\
    forall key, assoc key [(1, 7)] = assoc key (reverse pairs).
Proof.
  assert (Hd : unmarshal_map 0 [x02; x01; x05; x01; x07; x01; x01; x01; x01]
                 unmarshal_uint unmarshal_uint = Ok (9%nat, [(1, 7)]))
    by reflexivity.
  split; [exact Hd|].
  exact (proj2 (unmarshal_map_last_wins uint_codec uint_codec 0%nat
                  [x02; x01; x05; x01; x07; x01; x01; x01; x01]
                  9%nat [(1, 7)] Hd)).
Defined.



(** *** Optional values *)

Section OptionalCodec.
Context {T : Type} (P : T -> Prop) (c : codec T).
Hypothesis Hc : lawful P c.

(** X18: when the operations of the element keep their contract on the
    values that satisfy [P], those of optional values keep it on [None]
    and on such values: [size_optional] is the number of bytes that
    [marshal_optional] writes, one for [None]; [marshal_optional] succeeds
    exactly when that many bytes are left, and raises [BUF_TOO_SMALL]
    otherwise; it changes these bytes and no other; on every buffer that
    holds them, [unmarshal_optional] returns the value and
    [skip_optional] the offset after it. *)
Theorem optional_codec_lawful :
  lawful (fun value => forall v, value = Some v -> P v) (optional_codec c).
Proof.
  intros value Hvalue.
  cbn [c_size c_marshal c_unmarshal c_skip optional_codec].
  unfold size_optional, marshal_optional, unmarshal_optional, skip_optional.
  destruct value as [v|].
  - destruct (Hc v (Hvalue v eq_refl)) as [Hsz Hlaw].
    destruct (bool_codec_lawful true I) as [_ Hb].
    cbn [c_size c_marshal c_unmarshal c_skip bool_codec] in Hb.
    unfold size_bool in *. change (Z.to_nat 1) with 1%nat in Hb.
    split; [lia|]. intros n b. cbn zeta.
    set (sz := Z.to_nat (c_size c v)).
    replace (Z.to_nat (1 + c_size c v)) with (1 + sz)%nat by lia.
    destruct (Hb n b) as [Hok Hshort]. cbn zeta in Hok, Hshort.
    split; intros Hroom.
    + destruct (Hok ltac:(lia)) as (b1 & -> & Hw1 & Hread1).
      cbn [mbind result_bind]. pose proof Hw1 as (Hl1 & _ & _).
      destruct (Hlaw (n + 1)%nat b1) as [Hok2 _]. cbn zeta in Hok2. fold sz in Hok2.
      destruct (Hok2 ltac:(lia)) as (b2 & Hm2 & Hw2 & Hread2).
      replace (n + (1 + sz))%nat with (n + 1 + sz)%nat by lia.
      exists b2. split; [exact Hm2|].
      split; [eapply writes_exactly_trans; [|exact Hw1|exact Hw2]; lia|].
      intros buf Hbuf.
      destruct (Hread1 buf) as [Hu _].
      { apply (writes_exactly_prefix (n + 1) (n + 1 + sz) b1 b2 buf (n + 1));
          [lia | exact Hw2 | exact Hbuf]. }
      destruct (Hread2 buf Hbuf) as [Hu2 Hs2].
      rewrite Hu. cbn [mbind result_bind]. rewrite Hu2, Hs2. split; reflexivity.
    + destruct (Nat.le_gt_cases (n + 1) (length b)) as [Hfit|Hno];
        [|now rewrite (Hshort Hno)].
      destruct (Hok Hfit) as (b1 & -> & (Hl1 & _ & _) & _).
      cbn [mbind result_bind].
      destruct (Hlaw (n + 1)%nat b1) as [_ Hshort2]. apply Hshort2. fold sz. lia.
  - destruct (bool_codec_lawful false I) as [_ Hb].
    cbn [c_size c_marshal c_unmarshal c_skip bool_codec] in Hb.
    unfold size_bool in *. change (Z.to_nat 1) with 1%nat in Hb.
    split; [lia|]. intros n b. cbn zeta.
    change (Z.to_nat (1 + 0)) with 1%nat.
    destruct (Hb n b) as [Hok Hshort]. cbn zeta in Hok, Hshort.
    split; intros Hroom.
    + destruct (Hok Hroom) as (b1 & -> & Hw1 & Hread1).
      cbn [mbind result_bind]. exists b1. split; [reflexivity|].
      split; [exact Hw1|]. intros buf Hbuf.
      destruct (Hread1 buf Hbuf) as [Hu _]. rewrite Hu. split; reflexivity.
    + now rewrite (Hshort Hroom).
Qed.
End OptionalCodec.

Lemma optional_codec_lawful_witness :
  marshal_optional 0 [x00; x00; x00] (Some 300) marshal_uint
  = Ok (3%nat, [x01; xac; x02]) /\
  unmarshal_optional 0 [x01; xac; x02] unmarshal_uint
  = Ok (3%nat, Some 300) /\
  marshal_optional 0 [xff; xff] None marshal_uint
  = Ok (1%nat, [x00; xff]) /\
  unmarshal_optional 0 [x00; xee] unmarshal_uint = Ok (1%nat, None) /\
  marshal_optional 0 [x00; x00] (Some 300) marshal_uint
  = Raise (BencException BUF_TOO_SMALL).
Proof.
  pose proof (optional_codec_lawful _ uint_codec uint_codec_lawful) as Hlaw.
  destruct (Hlaw (Some 300)) as [_ Hsome]; [intros v [= <-]; lia|].
  destruct (Hlaw None) as [_ Hnone]; [discriminate|].
  cbn [c_size c_marshal c_unmarshal c_skip optional_codec uint_codec]
    in Hsome, Hnone.
  destruct (Hsome 0%nat [x00; x00; x00]) as [Hroom _].
  destruct Hroom as (b' & Hm & _ & Hread); [vm_compute; lia|].
  assert (b' = [x01; xac; x02]) as -> by (vm_compute in Hm; congruence).
  split; [exact Hm|].
  split; [exact (proj1 (Hread [x01; xac; x02] eq_refl))|].
  destruct (Hnone 0%nat [xff; xff]) as [Hroom0 _].
  destruct Hroom0 as (b0 & Hm0 & _ & Hread0); [vm_compute; lia|].
  assert (b0 = [x00; xff]) as -> by (vm_compute in Hm0; congruence).
  split; [exact Hm0|].
  split; [exact (proj1 (Hread0 [x00; xee] eq_refl))|].
  destruct (Hsome 0%nat [x00; x00]) as [_ Hshort].
  apply Hshort. vm_compute. lia.
Defined.

(** X19: when the element skipper returns on every buffer the offset
    that the element unmarshaler returns, and raises what it raises, then
    [skip_optional] does so for [unmarshal_optional], on every buffer and
    offset. *)
Theorem skip_optional_agrees {T} (skipper : SkipFunc)
    (unmarshaler : @UnmarshalFunc T) :
  skip_agrees skipper unmarshaler ->
  skip_agrees (fun n b => skip_optional n b skipper)
              (fun n b => unmarshal_optional n b unmarshaler).
Proof.
  intros Hel n b. unfold skip_optional, unmarshal_optional, offset_of.
  destruct (unmarshal_bool n b) as [[n1 [|]]|e]; cbn [mbind result_bind];
    [|reflexivity..].
  rewrite (Hel n1 b). unfold offset_of.
  now destruct (unmarshaler n1 b) as [[? ?]|].
Qed.

Lemma skip_optional_agrees_witness :
  skip_optional 0 [x01; xac; x02] skip_varint
  = offset_of (unmarshal_optional 0 [x01; xac; x02] unmarshal_uint).
Proof.
  exact (skip_optional_agrees skip_varint unmarshal_uint skip_varint_offset
           0%nat [x01; xac; x02]).
Defined.

(** X20: the value is read only behind the flag byte 1: with any other
    byte at [n], also a non-zero one, [unmarshal_optional] returns [None]
    and [skip_optional] skips nothing more, both one byte on, and the
    element functions are not called. *)
Theorem unmarshal_optional_absent {T} (unmarshaler : @UnmarshalFunc T)
    (n : nat) (b : list byte) (flag : byte) :
  b !! n = Some flag -> flag <> x01 ->
  unmarshal_optional n b unmarshaler = Ok ((n + 1)%nat, None) /\
  forall skipper, skip_optional n b skipper = Ok (n + 1)%nat.
Proof.
  intros Hflag Hne.
  assert (Hb : unmarshal_bool n b = Ok ((n + 1)%nat, false)).
  { unfold unmarshal_bool, getitem. rewrite room_check_1.
    rewrite leb_true by (apply lookup_lt_Some in Hflag; lia).
    rewrite Hflag. cbn. do 2 f_equal.
    apply Z.eqb_neq. intros Heq. apply Hne.
    destruct flag; vm_compute in Heq; congruence. }
  unfold unmarshal_optional, skip_optional. now rewrite Hb.
Qed.

Lemma unmarshal_optional_absent_witness :
  unmarshal_optional 0 [x02; x05] unmarshal_uint = Ok (1%nat, None) /\
  forall skipper, skip_optional 0 [x02; x05] skipper = Ok 1%nat.
Proof.
  apply (unmarshal_optional_absent unmarshal_uint 0%nat [x02; x05] x02).
  - reflexivity.
  - discriminate.
Defined.

(** *** What [unmarshal_uint] returns *)

Lemma lor_lt_pow2 a b m :
  0 <= a < 2 ^ m -> 0 <= b < 2 ^ m -> 0 <= Z.lor a b < 2 ^ m.
Proof.
  intros Ha Hb. assert (H0 : 0 <= Z.lor a b) by (apply Z.lor_nonneg; lia).
  split; [exact H0|].
  destruct (Z.eq_dec (Z.lor a b) 0) as [->|Hnz]; [lia|].
  assert (Hm : 0 <= m).
  { destruct (Z_lt_le_dec m 0) as [Hneg|]; [|assumption].
    rewrite Z.pow_neg_r in Ha by exact Hneg. lia. }
  apply Z.log2_lt_pow2; [lia|]. rewrite Z.log2_lor by lia.
  destruct (Z.eq_dec a 0) as [->|]; destruct (Z.eq_dec b 0) as [->|].
  - exfalso. apply Hnz. reflexivity.
  - rewrite Z.max_r by (cbn; apply Z.log2_nonneg). apply Z.log2_lt_pow2; lia.
  - rewrite Z.max_l by (cbn; apply Z.log2_nonneg). apply Z.log2_lt_pow2; lia.
  - apply Z.max_lub_lt; apply Z.log2_lt_pow2; lia.
Qed.

Lemma group_lt (c : byte) (i : nat) :
  0 <= Z.shiftl (Z.land (int_of_byte c) 0x7F) (7 * Z.of_nat i)
    < 2 ^ (7 * Z.of_nat i + 7).
Proof.
  pose proof (land_0x7F_range (int_of_byte c)) as Hr.
  rewrite Z.shiftl_mul_pow2 by lia. rewrite Z.pow_add_r by lia.
  change (2 ^ 7) with 128.
  assert (0 < 2 ^ (7 * Z.of_nat i)) by (apply Z.pow_pos_nonneg; lia). nia.
Qed.

Lemma assemble_lt (bs : list byte) : forall i : nat,
  0 <= assemble bs i < 2 ^ (7 * Z.of_nat (i + length bs)).
Proof.
  induction bs as [|c bs IH]; intros i; cbn [assemble length].
  - split; [lia|]. apply Z.pow_pos_nonneg; lia.
  - apply lor_lt_pow2.
    + pose proof (group_lt c i) as [H0 H1]. split; [exact H0|].
      eapply Z.lt_le_trans; [exact H1|]. apply Z.pow_le_mono_r; lia.
    + replace (i + S (length bs))%nat with (S i + length bs)%nat by lia. apply IH.
Qed.

Lemma assemble_app (l1 l2 : list byte) : forall i : nat,
  assemble (l1 ++ l2) i
  = Z.lor (assemble l1 i) (assemble l2 (i + length l1)).
Proof.
  induction l1 as [|c l1 IH]; intros i; cbn [app assemble length].
  - now rewrite Z.lor_0_l, Nat.add_0_r.
  - rewrite IH, Z.lor_assoc. do 2 f_equal. lia.
Qed.

Lemma take_while_length_le {A} (p : A -> bool) (l : list A) :
  (length (take_while p l) <= length l)%nat.
Proof. induction l as [|a l IH]; cbn; [lia|]. destruct (p a); cbn; lia. Qed.

(** X21: whatever the buffer holds, when [unmarshal_uint] returns, it
    has read one to ten bytes, all of them inside the buffer, and the
    value is at least 0 and below [2^64]. *)
Theorem unmarshal_uint_bounds (n : nat) (buf : list byte) n' v :
  unmarshal_uint n buf = Ok (n', v) ->
  (n < n' <= n + 10)%nat /\ (n' <= length buf)%nat /\ 0 <= v < 2 ^ 64.
Proof.
  rewrite unmarshal_uint_refines_spec. unfold unmarshal_uint_spec.
  set (window := take 10 (drop n buf)).
  set (run := take_while continuation_bit window).
  destruct (window !! length run) as [t|] eqn:Ht;
    [|destruct (Nat.eqb _ _); discriminate].
  destruct (Nat.eqb (length run) 9 && (1 <? int_of_byte t)) eqn:Hchk;
    [discriminate|].
  intros [= <- <-].
  pose proof (lookup_lt_Some _ _ _ Ht) as Hk.
  assert (Hw : (length window <= 10)%nat /\ (length window <= length buf - n)%nat).
  { subst window. rewrite length_take, length_drop. lia. }
  split; [lia|]. split; [lia|].
  rewrite assemble_app. cbn [assemble].
  rewrite Z.lor_0_r, Nat.add_0_l.
  pose proof (assemble_lt run 0) as Hrun. rewrite Nat.add_0_l in Hrun.
  destruct (Nat.eq_dec (length run) 9%nat) as [H9|Hn9].
  - rewrite H9 in *. cbn [Nat.eqb andb] in Hchk. apply Z.ltb_ge in Hchk.
    pose proof (int_of_byte_range t).
    rewrite land_0x7F_small by lia. rewrite Z.shiftl_mul_pow2 by lia.
    apply lor_lt_pow2; [lia|]. change (7 * Z.of_nat 9) with 63. lia.
  - pose proof (group_lt t (length run)) as Hg.
    assert (Hle : 2 ^ (7 * Z.of_nat (length run) + 7) <= 2 ^ 64)
      by (apply Z.pow_le_mono_r; lia).
    assert (Hle' : 2 ^ (7 * Z.of_nat (length run)) <= 2 ^ 64)
      by (apply Z.pow_le_mono_r; lia).
    apply lor_lt_pow2; lia.
Qed.

Lemma unmarshal_uint_bounds_witness :
  unmarshal_uint 1 [xff; xac; x02; xff] = Ok (3%nat, 300) /\
  (1 < 3 <= 1 + 10)%nat /\ (3 <= length [xff; xac; x02; xff])%nat /\
  0 <= 300 < 2 ^ 64.
Proof.
  assert (Hu : unmarshal_uint 1 [xff; xac; x02; xff] = Ok (3%nat, 300))
    by reflexivity.
  split; [exact Hu|].
  exact (unmarshal_uint_bounds 1%nat [xff; xac; x02; xff] 3%nat 300 Hu).
Defined.

(** *** Fixed-size integers *)

Lemma int_of_low_byte v : int_of_byte (low_byte v) = v mod 256.
Proof.
  pose proof (Z.mod_pos_bound v 256 ltac:(lia)) as Hm.
  destruct (byte_of_int_ok (v mod 256) Hm) as (c & Hc & Hint).
  unfold low_byte. unfold byte_of_int in Hc.
  destruct ((0 <=? v mod 256) && (v mod 256 <? 256)); [|discriminate].
  destruct (Byte.of_N _) as [c'|]; [|discriminate]. cbn.
  injection Hc as ->. exact Hint.
Qed.

Lemma length_le_bytes k v : length (le_bytes k v) = k.
Proof. revert v. induction k as [|k IH]; intros v; cbn; [|rewrite IH]; reflexivity. Qed.

Lemma le_value_le_bytes k v : le_value (le_bytes k v) = v mod 2 ^ (8 * Z.of_nat k).
Proof.
  revert v. induction k as [|k IH]; intros v; cbn [le_bytes le_value].
  - change (2 ^ (8 * Z.of_nat 0)) with 1. now rewrite Z.mod_1_r.
  - rewrite IH, int_of_low_byte.
    replace (8 * Z.of_nat (S k)) with (8 + 8 * Z.of_nat k) by lia.
    rewrite Z.pow_add_r by lia. change (2 ^ 8) with 256.
    rewrite Z.rem_mul_r by (try apply Z.pow_nonzero; lia). reflexivity.
Qed.

Lemma le_value_range bs : 0 <= le_value bs < 2 ^ (8 * Z.of_nat (length bs)).
Proof.
  induction bs as [|c bs IH]; cbn [le_value length]; [cbn; lia|].
  pose proof (int_of_byte_range c).
  replace (8 * Z.of_nat (S (length bs))) with (8 + 8 * Z.of_nat (length bs)) by lia.
  rewrite Z.pow_add_r by lia. change (2 ^ 8) with 256. lia.
Qed.

Lemma int_to_bytes_fits width signed v :
  fits width signed v -> int_to_bytes v width signed = Some (le_bytes width v).
Proof.
  unfold fits, int_to_bytes. cbn zeta. destruct signed; intros [H1 H2].
  - now rewrite (proj2 (Z.leb_le _ _) H1), (proj2 (Z.ltb_lt _ _) H2).
  - now rewrite (proj2 (Z.leb_le _ _) H1), (proj2 (Z.ltb_lt _ _) H2).
Qed.

Lemma int_to_bytes_overflow width signed v :
  ~ fits width signed v -> int_to_bytes v width signed = None.
Proof.
  unfold fits, int_to_bytes. cbn zeta. destruct signed; intros Hn.
  - destruct (Z.leb_spec (- 2 ^ (8 * Z.of_nat width - 1)) v); [|reflexivity].
    destruct (Z.ltb_spec v (2 ^ (8 * Z.of_nat width - 1))); [|reflexivity].
    exfalso. apply Hn. lia.
  - destruct (Z.leb_spec 0 v); [|reflexivity].
    destruct (Z.ltb_spec v (2 ^ (8 * Z.of_nat width))); [|reflexivity].
    exfalso. apply Hn. lia.
Qed.

Lemma int_from_bytes_le_bytes width signed v :
  (0 < width)%nat -> fits width signed v ->
  int_from_bytes (le_bytes width v) signed = v.
Proof.
  intros Hw Hfit. unfold int_from_bytes, fits in *. cbn zeta in *.
  rewrite length_le_bytes, le_value_le_bytes.
  set (bits := 8 * Z.of_nat width) in *.
  assert (Hhalf : 2 ^ bits = 2 * 2 ^ (bits - 1)).
  { replace bits with (1 + (bits - 1)) at 1 by lia.
    rewrite Z.pow_add_r by lia. reflexivity. }
  assert (Hpos : 0 < 2 ^ (bits - 1)) by (apply Z.pow_pos_nonneg; lia).
  destruct signed; cbn [andb].
  - destruct (Z_lt_le_dec v 0) as [Hneg|Hnn].
    + assert (Hmod : v mod 2 ^ bits = v + 2 ^ bits).
      { symmetry. apply (Z.mod_unique_pos _ _ (-1)); lia. }
      rewrite Hmod. destruct (Z.leb_spec (2 ^ (bits - 1)) (v + 2 ^ bits)); lia.
    + rewrite Z.mod_small by lia.
      destruct (Z.leb_spec (2 ^ (bits - 1)) v); lia.
  - apply Z.mod_small. lia.
Qed.

Section Fixed.
Variables (width : nat) (signed : bool).
Hypothesis Hwidth : (0 < width)%nat.

Lemma skip_fixed_room n b :
  skip_fixed width n b =
  if (n + width <=? length b)%nat then Ok (n + width)%nat
  else Raise (BencException BUF_TOO_SMALL).
Proof.
  clear Hwidth. unfold skip_fixed, len.
  destruct (Nat.leb_spec (n + width) (length b));
    [rewrite (proj2 (Z.ltb_ge _ _)) | rewrite (proj2 (Z.ltb_lt _ _))];
    (reflexivity || lia).
Qed.

(** X22: the fixed-size integers [int8] to [int64]: a buffer with fewer
    than [width] bytes left is [BUF_TOO_SMALL], which is checked first;
    with room, a value that does not fit the width and signedness is
    [int.to_bytes]'s [OverflowError], not a [BencException]; a value that
    fits is written as its two's complement bytes from the least
    significant one, and no other byte changes; on every buffer that
    holds these bytes, the unmarshal function returns the value and the
    skip function the offset after it. *)
Theorem marshal_fixed_spec (n : nat) (b : list byte) (v : Z) :
  ((length b < n + width)%nat ->
   marshal_fixed width signed n b v
   = Returns (Raise (BencException BUF_TOO_SMALL))) /\
  ((n + width <= length b)%nat -> ~ fits width signed v ->
   marshal_fixed width signed n b v = OverflowError) /\
  ((n + width <= length b)%nat -> fits width signed v ->
   exists b',
     marshal_fixed width signed n b v = Returns (Ok ((n + width)%nat, b')) /\
     writes_exactly n (n + width) b b' /\
     getslice b' n (n + width) = le_bytes width v /\
     forall buf, take (n + width) buf = take (n + width) b' ->
       unmarshal_fixed width signed n buf = Ok ((n + width)%nat, v) /\
       skip_fixed width n buf = Ok (n + width)%nat).
Proof.
  unfold marshal_fixed, unmarshal_fixed. unfold len.
  split; [|split].
  - intros Hshort. now rewrite (proj2 (Z.ltb_lt _ _)) by lia.
  - intros Hroom Hnfit. rewrite (proj2 (Z.ltb_ge _ _)) by lia.
    now rewrite int_to_bytes_overflow.
  - intros Hroom Hfit. rewrite (proj2 (Z.ltb_ge _ _)) by lia.
    rewrite int_to_bytes_fits by exact Hfit.
    destruct (setslice_writes_exactly b n (le_bytes width v)) as [Hw Hget];
      [rewrite length_le_bytes; lia|].
    rewrite length_le_bytes in Hw, Hget.
    eexists. split; [reflexivity|]. split; [exact Hw|]. split; [exact Hget|].
    intros buf Hbuf.
    assert (n + width <= length buf)%nat.
    { apply (take_eq_length _ _ _ Hbuf). destruct Hw as (-> & _). lia. }
    rewrite skip_fixed_room, leb_true by lia.
    rewrite (proj2 (Z.ltb_ge _ _)) by lia.
    rewrite (getslice_prefix _ buf n (n + width) Hbuf), Hget.
    now rewrite int_from_bytes_le_bytes.
Qed.

(** X23: on every buffer and offset, the skip function of a fixed-size
    integer returns the offset that its unmarshal function returns, and
    raises what it raises. *)
Theorem skip_fixed_agrees :
  skip_agrees (skip_fixed width) (unmarshal_fixed width signed).
Proof.
  intros n b. unfold skip_fixed, unmarshal_fixed, offset_of.
  now destruct (_ <? _).
Qed.
End Fixed.

Lemma marshal_fixed_spec_witness :
  marshal_uint16 1 [x00; x00; x00] 0x1234
  = Returns (Ok (3%nat, [x00; x34; x12])) /\
  unmarshal_uint16 1 [x00; x34; x12; xff] = Ok (3%nat, 0x1234) /\
  marshal_uint16 1 [x00; x00; x00] 0x12345 = OverflowError /\
  marshal_uint16 2 [x00; x00; x00] 0x12345
  = Returns (Raise (BencException BUF_TOO_SMALL)).
Proof.
  assert (Hwidth : (0 < 2)%nat) by lia.
  destruct (marshal_fixed_spec 2 false Hwidth 1 [x00; x00; x00] 0x1234)
    as (_ & _ & Hfit).
  destruct Hfit as (b' & Hm & _ & _ & Hread);
    [cbn; lia | unfold fits; cbn; lia |].
  assert (b' = [x00; x34; x12]) as -> by (vm_compute in Hm; congruence).
  split; [exact Hm|].
  split; [exact (proj1 (Hread [x00; x34; x12; xff] eq_refl))|].
  destruct (marshal_fixed_spec 2 false Hwidth 1 [x00; x00; x00] 0x12345)
    as (_ & Hover & _).
  split; [apply Hover; [cbn; lia | unfold fits; cbn; lia]|].
  destruct (marshal_fixed_spec 2 false Hwidth 2 [x00; x00; x00] 0x12345)
    as (Hshort & _).
  apply Hshort. cbn. lia.
Defined.

Lemma skip_byte_skip_fixed n b : skip_byte n b = skip_fixed 1 n b.
Proof.
  rewrite skip_fixed_room. unfold skip_byte. rewrite room_check_1.
  now destruct (n + 1 <=? length b)%nat.
Qed.

(** The bytes of the little-endian layout. *)
Lemma le_bytes_lookup (width : nat) (v : Z) (i : nat) :
  (i < width)%nat ->
  le_bytes width v !! i = Some (low_byte (v / 256 ^ Z.of_nat i)).
Proof.
  revert v i. induction width as [|width IH]; intros v i Hi; [lia|].
  destruct i as [|i]; cbn [le_bytes lookup list_lookup].
  - now rewrite Z.div_1_r.
  - change (le_bytes width (v / 256) !! i
            = Some (low_byte (v / 256 ^ Z.of_nat (S i)))).
    rewrite IH by lia. do 2 f_equal.
    rewrite Nat2Z.inj_succ, Z.pow_succ_r by lia.
    rewrite Z.div_div by (try apply Z.pow_pos_nonneg; lia). reflexivity.
Qed.

(** *** The port's varints *)

Lemma port_unmarshal_int_for range n buf x s :
  Port.unmarshal_int_for range n buf x s
  = '(n', unsigned_val) ← unmarshal_uint_for range n buf x s;
    Ok (n', decode_zigzag unsigned_val).
Proof.
  revert x s. induction range as [|i range IH]; intros x s; [reflexivity|].
  cbn [Port.unmarshal_int_for unmarshal_uint_for].
  destruct (_ >=? _); [reflexivity|].
  destruct (getitem buf (n + i)) as [c|e]; [|reflexivity].
  destruct (c <? 128); [|apply IH].
  now destruct (_ && _).
Qed.

(** X24: the port's [unmarshal_int] and [size_int], which have the loops
    written out, return on every input what the [unmarshal_int] and
    [size_int] of [bstd.py] return, which call [unmarshal_uint] and
    [size_uint]; and [unmarshal_int] raises what that of [bstd.py]
    raises. *)
Theorem port_unmarshal_int (n : nat) (buf : list byte) (value : Z) :
  Port.unmarshal_int n buf = unmarshal_int n buf /\
  Port.size_int value = size_int value.
Proof. split; [apply port_unmarshal_int_for | reflexivity]. Qed.

Lemma port_marshal_uint_while_ge v i b :
  0x80 <= v ->
  Port.marshal_uint_while v i b =
  match setitem b i (Z.lor (Z.land v 0x7F) 0x80) with
  | Ok b' => Port.marshal_uint_while (Z.shiftr v 7) (i + 1) b'
  | Raise e => Raise e
  end.
Proof.
  intros Hv. rewrite (Port.marshal_uint_while_equation_1 v).
  destruct (decide (128 <= v)); [reflexivity | contradiction].
Qed.

Lemma port_marshal_uint_while_lt v i b :
  v < 0x80 ->
  Port.marshal_uint_while v i b =
  b' ← setitem b i (Z.land v 0x7F); Ok ((i + 1)%nat, b').
Proof.
  intros Hv. rewrite (Port.marshal_uint_while_equation_1 v).
  destruct (decide (128 <= v)); [lia | reflexivity].
Qed.

Lemma setitem_index_error b i z :
  (length b <= i)%nat -> setitem b i z = Raise IndexError.
Proof. intros H. unfold setitem. destruct (decide _); [lia | reflexivity]. Qed.

Lemma port_marshal_uint_while v : forall (i : nat) (b : list byte),
  Port.marshal_uint_while v i b =
  if (i + Z.to_nat (size_uint v) <=? length b)%nat
  then marshal_uint_while v i b else Raise IndexError.
Proof.
  induction v as [v Hv | v Hv IH] using varint_ind; intros i b.
  - rewrite port_marshal_uint_while_lt, marshal_uint_while_lt by lia.
    rewrite size_uint_lt by lia. change (Z.to_nat 1) with 1%nat.
    rewrite len_check_lookup.
    destruct (Nat.leb_spec (i + 1) (length b)) as [Hle|Hgt].
    + destruct (lookup_lt_is_Some_2 b i) as [c ->]; [lia | reflexivity].
    + now rewrite setitem_index_error by lia.
  - rewrite port_marshal_uint_while_ge, marshal_uint_while_ge by lia.
    destruct (size_uint_nat_ge v Hv) as (-> & _).
    rewrite len_check_lookup.
    destruct (Nat.le_gt_cases (length b) i) as [Hle|Hgt].
    + rewrite setitem_index_error by lia. now rewrite leb_false by lia.
    + destruct (lookup_lt_is_Some_2 b i) as [c ->]; [lia|].
      destruct (setitem b i _) as [b1|e] eqn:Hset.
      * rewrite IH. rewrite (setitem_length _ _ _ _ Hset).
        now replace (i + 1 + Z.to_nat (size_uint (Z.shiftr v 7)))%nat
          with (i + S (Z.to_nat (size_uint (Z.shiftr v 7))))%nat by lia.
      * destruct (setitem_ok b i (Z.lor (Z.land v 0x7F) 0x80)) as (c' & _ & Hs);
          [lia | pose proof (continuation_digit v); cbn zeta in *; lia |].
        congruence.
Qed.

(** X25: the port's [marshal_uint] does not look at the length of the
    buffer: with room for the encoding it returns what [marshal_uint] of
    [bstd.py] returns, and without it the store past the end raises
    [IndexError] where [bstd.py] raises [BUF_TOO_SMALL]; the port's
    [marshal_int] is its [marshal_uint] on the ZigZag code. *)
Theorem port_marshal_uint (n : nat) (b : list byte) (value : Z) :
  ((n + Z.to_nat (size_uint value) <= length b)%nat ->
   Port.marshal_uint n b value = marshal_uint n b value) /\
  ((length b < n + Z.to_nat (size_uint value))%nat ->
   Port.marshal_uint n b value = Raise IndexError /\
   marshal_uint n b value = Raise (BencException BUF_TOO_SMALL)) /\
  Port.marshal_int n b value = Port.marshal_uint n b (encode_zigzag value).
Proof.
  unfold Port.marshal_uint, marshal_uint. rewrite port_marshal_uint_while.
  split; [|split; [|reflexivity]]; intros H.
  - now rewrite leb_true by lia.
  - rewrite leb_false by lia. split; [reflexivity|].
    now apply marshal_uint_while_short.
Qed.

(** *** The port's fixed-size integers *)

Lemma land_high_low hi k lo :
  0 <= k -> 0 <= lo < 2 ^ k -> Z.land (hi * 2 ^ k) lo = 0.
Proof.
  intros Hk Hlo. apply Z.bits_inj'. intros i Hi. rewrite Z.land_spec, Z.bits_0.
  destruct (Z.ltb_spec i k).
  - now rewrite Z.mul_pow2_bits_low by lia.
  - rewrite <- (Z.mod_small lo (2 ^ k)) by lia.
    rewrite Z.mod_pow2_bits_high by lia. apply andb_false_r.
Qed.

Lemma lor_low_shiftl acc x k :
  0 <= k -> 0 <= acc < 2 ^ k -> Z.lor acc (Z.shiftl x k) = acc + x * 2 ^ k.
Proof.
  intros Hk Hacc. rewrite Z.shiftl_mul_pow2, Z.lor_comm by lia.
  rewrite lor_high_low by lia. lia.
Qed.

Lemma sign_bit_test u :
  0 <= u < 2 ^ 64 ->
  negb (Z.land u (Z.shiftl 1 63) =? 0) = (2 ^ 63 <=? u).
Proof.
  intros Hu. change (Z.shiftl 1 63) with (1 * 2 ^ 63).
  destruct (Z.leb_spec (2 ^ 63) u) as [Hge|Hlt].
  - replace u with (1 * 2 ^ 63 + (u - 2 ^ 63)) at 1 by lia.
    rewrite <- lor_high_low by lia.
    rewrite Z.land_lor_distr_l, Z.land_diag, (Z.land_comm (u - 2 ^ 63)).
    rewrite land_high_low, Z.lor_0_r by lia. reflexivity.
  - rewrite Z.land_comm, land_high_low by lia. reflexivity.
Qed.

Lemma low_byte_eq z1 z2 : z1 = z2 -> low_byte z1 = low_byte z2.
Proof. now intros ->. Qed.

Lemma setitem_low_byte (b : list byte) (i : nat) (z : Z) :
  (i < length b)%nat ->
  setitem b i (Z.land z 0xFF) = Ok (<[i := low_byte z]> b).
Proof.
  intros Hi. unfold setitem. destruct (decide _); [|lia].
  rewrite land_0xFF. pose proof (Z.mod_pos_bound z 256 ltac:(lia)) as Hm.
  destruct (byte_of_int_ok _ Hm) as (c & Hc & Hint). rewrite Hc. cbn.
  do 2 f_equal. unfold low_byte. unfold byte_of_int in Hc.
  destruct ((0 <=? z mod 256) && (z mod 256 <? 256)); [|discriminate].
  destruct (Byte.of_N _); [|discriminate]. now injection Hc as ->.
Qed.

Lemma store_first (b : list byte) (n : nat) (c : byte) :
  (n < length b)%nat -> <[n := c]> b = setslice b n (n + 1) [c].
Proof.
  intros Hn. unfold setslice. rewrite Nat.max_r by lia.
  rewrite Nat.add_1_r. now apply insert_take_drop.
Qed.

Lemma store_next (b : list byte) (n k : nat) (cs : list byte) (c : byte) :
  length cs = k -> (n + k < length b)%nat ->
  <[(n + k)%nat := c]> (setslice b n (n + k) cs)
  = setslice b n (n + S k) (cs ++ [c]).
Proof.
  intros Hk Hn. unfold setslice. rewrite !Nat.max_r by lia.
  assert (Htn : length (take n b) = n) by (rewrite length_take; lia).
  rewrite insert_app_r_alt by lia. rewrite Htn.
  rewrite insert_app_r_alt by lia.
  replace (n + k - n - length cs)%nat with 0%nat by lia.
  destruct (lookup_lt_is_Some_2 b (n + k)) as [x Hx]; [lia|].
  rewrite (drop_S _ _ _ Hx). cbn [insert list_insert].
  rewrite <- app_assoc. cbn [app]. now rewrite Nat.add_succ_r.
Qed.

Lemma window_bytes (b : list byte) (n k : nat) :
  (n + k <= length b)%nat ->
  exists cs, length cs = k /\ getslice b n (n + k) = cs /\
             forall i, (i < k)%nat ->
               exists c, cs !! i = Some c /\
                         getitem b (n + i) = Ok (int_of_byte c).
Proof.
  intros Hroom. exists (getslice b n (n + k)).
  assert (Hlen : length (getslice b n (n + k)) = k).
  { unfold getslice. rewrite length_drop, length_take. lia. }
  split; [exact Hlen|]. split; [reflexivity|].
  intros i Hi. destruct (lookup_lt_is_Some_2 (getslice b n (n + k)) i) as [c Hc];
    [lia|].
  exists c. split; [exact Hc|]. unfold getitem, getslice in *.
  rewrite lookup_drop, lookup_take_lt in Hc by lia. now rewrite Hc.
Qed.

(** The port's [unmarshal_uint16], [unmarshal_uint32] and
    [unmarshal_int64] put the bytes together with shifts; those of
    [bstd.py] call [int.from_bytes]. *)
Lemma port_unmarshal_uint16_from_bytes (n : nat) (b : list byte) :
  Port.unmarshal_uint16 n b = unmarshal_uint16 n b.
Proof.
  unfold Port.unmarshal_uint16, unmarshal_uint16, unmarshal_fixed.
  rewrite (room_check_Z b n 2) by lia. change (Z.to_nat 2) with 2%nat.
  unfold len.
  destruct (Nat.leb_spec (n + 2) (length b)) as [Hroom|Hshort]; cbn [negb].
  2: { now rewrite (proj2 (Z.ltb_lt _ _)) by lia. }
  rewrite (proj2 (Z.ltb_ge _ _)) by lia.
  destruct (window_bytes b n 2 Hroom) as (cs & Hlen & -> & Hitems).
  destruct (Hitems 0%nat ltac:(lia)) as (c0 & H0 & G0).
  destruct (Hitems 1%nat ltac:(lia)) as (c1 & H1 & G1).
  rewrite Nat.add_0_r in G0. rewrite G0, G1. cbn [mbind result_bind].
  destruct cs as [|x0 [|x1 [|? ?]]]; try discriminate.
  cbn in H0, H1. injection H0 as ->. injection H1 as ->.
  pose proof (int_of_byte_range c0). pose proof (int_of_byte_range c1).
  unfold int_from_bytes. cbn [andb le_value].
  rewrite (lor_low_shiftl _ _ 8) by lia. do 2 f_equal. lia.
Qed.

Lemma port_unmarshal_uint32_from_bytes (n : nat) (b : list byte) :
  Port.unmarshal_uint32 n b = unmarshal_uint32 n b.
Proof.
  unfold Port.unmarshal_uint32, unmarshal_uint32, unmarshal_fixed.
  rewrite (room_check_Z b n 4) by lia. change (Z.to_nat 4) with 4%nat.
  unfold len.
  destruct (Nat.leb_spec (n + 4) (length b)) as [Hroom|Hshort]; cbn [negb].
  2: { now rewrite (proj2 (Z.ltb_lt _ _)) by lia. }
  rewrite (proj2 (Z.ltb_ge _ _)) by lia.
  destruct (window_bytes b n 4 Hroom) as (cs & Hlen & -> & Hitems).
  destruct (Hitems 0%nat ltac:(lia)) as (c0 & H0 & G0).
  destruct (Hitems 1%nat ltac:(lia)) as (c1 & H1 & G1).
  destruct (Hitems 2%nat ltac:(lia)) as (c2 & H2 & G2).
  destruct (Hitems 3%nat ltac:(lia)) as (c3 & H3 & G3).
  rewrite Nat.add_0_r in G0. rewrite G0, G1, G2, G3. cbn [mbind result_bind].
  destruct cs as [|x0 [|x1 [|x2 [|x3 [|? ?]]]]]; try discriminate.
  cbn in H0, H1, H2, H3.
  injection H0 as ->. injection H1 as ->. injection H2 as ->. injection H3 as ->.
  pose proof (int_of_byte_range c0). pose proof (int_of_byte_range c1).
  pose proof (int_of_byte_range c2). pose proof (int_of_byte_range c3).
  unfold int_from_bytes. cbn [andb le_value].
  rewrite (lor_low_shiftl _ _ 8) by lia.
  rewrite (lor_low_shiftl _ _ 16) by lia.
  rewrite (lor_low_shiftl _ _ 24) by lia. do 2 f_equal. lia.
Qed.

Lemma port_unmarshal_int64_from_bytes (n : nat) (b : list byte) :
  Port.unmarshal_int64 n b = unmarshal_int64 n b.
Proof.
  unfold Port.unmarshal_int64, unmarshal_int64, unmarshal_fixed.
  rewrite (room_check_Z b n 8) by lia. change (Z.to_nat 8) with 8%nat.
  unfold len.
  destruct (Nat.leb_spec (n + 8) (length b)) as [Hroom|Hshort]; cbn [negb].
  2: { now rewrite (proj2 (Z.ltb_lt _ _)) by lia. }
  rewrite (proj2 (Z.ltb_ge _ _)) by lia.
  destruct (window_bytes b n 8 Hroom) as (cs & Hlen & -> & Hitems).
  destruct (Hitems 0%nat ltac:(lia)) as (c0 & H0 & G0).
  destruct (Hitems 1%nat ltac:(lia)) as (c1 & H1 & G1).
  destruct (Hitems 2%nat ltac:(lia)) as (c2 & H2 & G2).
  destruct (Hitems 3%nat ltac:(lia)) as (c3 & H3 & G3).
  destruct (Hitems 4%nat ltac:(lia)) as (c4 & H4 & G4).
  destruct (Hitems 5%nat ltac:(lia)) as (c5 & H5 & G5).
  destruct (Hitems 6%nat ltac:(lia)) as (c6 & H6 & G6).
  destruct (Hitems 7%nat ltac:(lia)) as (c7 & H7 & G7).
  rewrite Nat.add_0_r in G0. rewrite G0, G1, G2, G3, G4, G5, G6, G7.
  cbn [mbind result_bind].
  destruct cs as [|x0 [|x1 [|x2 [|x3 [|x4 [|x5 [|x6 [|x7 [|? ?]]]]]]]]];
    try discriminate.
  cbn in H0, H1, H2, H3, H4, H5, H6, H7.
  injection H0 as ->. injection H1 as ->. injection H2 as ->. injection H3 as ->.
  injection H4 as ->. injection H5 as ->. injection H6 as ->. injection H7 as ->.
  pose proof (int_of_byte_range c0). pose proof (int_of_byte_range c1).
  pose proof (int_of_byte_range c2). pose proof (int_of_byte_range c3).
  pose proof (int_of_byte_range c4). pose proof (int_of_byte_range c5).
  pose proof (int_of_byte_range c6). pose proof (int_of_byte_range c7).
  cbn zeta.
  rewrite (lor_low_shiftl _ _ 8) by lia.
  rewrite (lor_low_shiftl _ _ 16) by lia.
  rewrite (lor_low_shiftl _ _ 24) by lia.
  rewrite (lor_low_shiftl _ _ 32) by lia.
  rewrite (lor_low_shiftl _ _ 40) by lia.
  rewrite (lor_low_shiftl _ _ 48) by lia.
  rewrite (lor_low_shiftl _ _ 56) by lia.
  set (u := _ + _ * 2 ^ 56).
  assert (Hu : u = le_value [c0; c1; c2; c3; c4; c5; c6; c7])
    by (subst u; cbn [le_value]; lia).
  assert (Hr : 0 <= u < 2 ^ 64) by (subst u; lia).
  rewrite sign_bit_test by exact Hr.
  unfold int_from_bytes. cbn [andb length]. rewrite <- Hu.
  change (Z.shiftl 1 64) with (2 ^ 64).
  change (8 * Z.of_nat 8) with 64. change (64 - 1) with 63.
  reflexivity.
Qed.

(** X26: on every buffer and offset the port's [unmarshal_uint16],
    [unmarshal_uint32] and [unmarshal_int64], written with shifts byte by
    byte, return what those of [bstd.py] return with [int.from_bytes],
    and raise what they raise. *)
Theorem port_unmarshal_fixed (n : nat) (b : list byte) :
  Port.unmarshal_uint16 n b = unmarshal_uint16 n b /\
  Port.unmarshal_uint32 n b = unmarshal_uint32 n b /\
  Port.unmarshal_int64 n b = unmarshal_int64 n b.
Proof.
  split; [|split].
  - apply port_unmarshal_uint16_from_bytes.
  - apply port_unmarshal_uint32_from_bytes.
  - apply port_unmarshal_int64_from_bytes.
Qed.

Lemma low_byte_mod z1 z2 : z1 mod 256 = z2 mod 256 -> low_byte z1 = low_byte z2.
Proof. unfold low_byte. now intros ->. Qed.

Lemma le_bytes_add k : forall v m,
  le_bytes k (v + m * 2 ^ (8 * Z.of_nat k)) = le_bytes k v.
Proof.
  induction k as [|k IH]; intros v m; [reflexivity|]. cbn [le_bytes].
  replace (8 * Z.of_nat (S k)) with (8 + 8 * Z.of_nat k) by lia.
  rewrite Z.pow_add_r by lia. change (2 ^ 8) with 256.
  f_equal.
  - apply low_byte_mod.
    replace (v + m * (256 * 2 ^ (8 * Z.of_nat k)))
      with (v + (m * 2 ^ (8 * Z.of_nat k)) * 256) by lia.
    apply Z.mod_add. lia.
  - replace (v + m * (256 * 2 ^ (8 * Z.of_nat k)))
      with (v + (m * 2 ^ (8 * Z.of_nat k)) * 256) by lia.
    rewrite Z.div_add by lia. apply IH.
Qed.

Lemma shiftr_bytes v : 
  Z.shiftr v 8 = v / 256 /\
  Z.shiftr v 16 = v / 256 / 256 /\
  Z.shiftr v 24 = v / 256 / 256 / 256 /\
  Z.shiftr v 32 = v / 256 / 256 / 256 / 256 /\
  Z.shiftr v 40 = v / 256 / 256 / 256 / 256 / 256 /\
  Z.shiftr v 48 = v / 256 / 256 / 256 / 256 / 256 / 256 /\
  Z.shiftr v 56 = v / 256 / 256 / 256 / 256 / 256 / 256 / 256.
Proof.
  rewrite !Z.shiftr_div_pow2 by lia. rewrite !Z.div_div by lia.
  repeat split; reflexivity.
Qed.

(** The stores of the port's [marshal_uint16], [marshal_uint32] and
    [marshal_int64], one byte at a time, leave the buffer that one slice
    assignment of the little-endian bytes leaves. *)
Lemma port_store_2 (b : list byte) (n : nat) (v : Z) :
  (n + 2 <= length b)%nat ->
  (b ← setitem b n (Z.land v 0xFF);
   b ← setitem b (n + 1) (Z.land (Z.shiftr v 8) 0xFF);
   Ok ((n + 2)%nat, b))
  = Ok ((n + 2)%nat, setslice b n (n + 2) (le_bytes 2 v)).
Proof.
  intros Hroom. destruct (shiftr_bytes v) as (-> & _).
  rewrite setitem_low_byte by lia. cbn [mbind result_bind].
  rewrite setitem_low_byte by (rewrite ?length_insert; lia).
  cbn [mbind result_bind]. do 2 f_equal.
  rewrite (store_first b n) by lia.
  now rewrite (store_next b n 1) by (reflexivity || lia).
Qed.

Lemma port_store_4 (b : list byte) (n : nat) (v : Z) :
  (n + 4 <= length b)%nat ->
  (b ← setitem b n (Z.land v 0xFF);
   b ← setitem b (n + 1) (Z.land (Z.shiftr v 8) 0xFF);
   b ← setitem b (n + 2) (Z.land (Z.shiftr v 16) 0xFF);
   b ← setitem b (n + 3) (Z.land (Z.shiftr v 24) 0xFF);
   Ok ((n + 4)%nat, b))
  = Ok ((n + 4)%nat, setslice b n (n + 4) (le_bytes 4 v)).
Proof.
  intros Hroom. destruct (shiftr_bytes v) as (-> & -> & -> & _).
  do 4 (rewrite setitem_low_byte by (rewrite ?length_insert; lia);
        cbn [mbind result_bind]).
  do 2 f_equal. rewrite (store_first b n) by lia.
  rewrite (store_next b n 1) by (reflexivity || lia).
  rewrite (store_next b n 2) by (reflexivity || lia).
  now rewrite (store_next b n 3) by (reflexivity || lia).
Qed.

Lemma port_store_8 (b : list byte) (n : nat) (v : Z) :
  (n + 8 <= length b)%nat ->
  (b ← setitem b n (Z.land v 0xFF);
   b ← setitem b (n + 1) (Z.land (Z.shiftr v 8) 0xFF);
   b ← setitem b (n + 2) (Z.land (Z.shiftr v 16) 0xFF);
   b ← setitem b (n + 3) (Z.land (Z.shiftr v 24) 0xFF);
   b ← setitem b (n + 4) (Z.land (Z.shiftr v 32) 0xFF);
   b ← setitem b (n + 5) (Z.land (Z.shiftr v 40) 0xFF);
   b ← setitem b (n + 6) (Z.land (Z.shiftr v 48) 0xFF);
   b ← setitem b (n + 7) (Z.land (Z.shiftr v 56) 0xFF);
   Ok ((n + 8)%nat, b))
  = Ok ((n + 8)%nat, setslice b n (n + 8) (le_bytes 8 v)).
Proof.
  intros Hroom.
  destruct (shiftr_bytes v) as (-> & -> & -> & -> & -> & -> & ->).
  do 8 (rewrite setitem_low_byte by (rewrite ?length_insert; lia);
        cbn [mbind result_bind]).
  do 2 f_equal. rewrite (store_first b n) by lia.
  rewrite (store_next b n 1) by (reflexivity || lia).
  rewrite (store_next b n 2) by (reflexivity || lia).
  rewrite (store_next b n 3) by (reflexivity || lia).
  rewrite (store_next b n 4) by (reflexivity || lia).
  rewrite (store_next b n 5) by (reflexivity || lia).
  rewrite (store_next b n 6) by (reflexivity || lia).
  now rewrite (store_next b n 7) by (reflexivity || lia).
Qed.

(** X27: the port's [marshal_uint16] and [marshal_uint32] return what
    those of [bstd.py] return, and raise [BUF_TOO_SMALL] where they do; a
    value that does not fit is a [BencException] with [OVERFLOW] in the
    port and [int.to_bytes]'s [OverflowError] in [bstd.py]. *)
Theorem port_marshal_unsigned (n : nat) (b : list byte) (v : Z) :
  (forall r, marshal_uint16 n b v = Returns r -> Port.marshal_uint16 n b v = r) /\
  (marshal_uint16 n b v = OverflowError ->
   Port.marshal_uint16 n b v = Raise (BencException OVERFLOW)) /\
  (forall r, marshal_uint32 n b v = Returns r -> Port.marshal_uint32 n b v = r) /\
  (marshal_uint32 n b v = OverflowError ->
   Port.marshal_uint32 n b v = Raise (BencException OVERFLOW)).
Proof.
  unfold marshal_uint16, marshal_uint32, marshal_fixed, int_to_bytes.
  unfold Port.marshal_uint16, Port.marshal_uint32.
  rewrite (room_check_Z b n 2), (room_check_Z b n 4) by lia.
  change (Z.to_nat 2) with 2%nat. change (Z.to_nat 4) with 4%nat.
  unfold len. cbn zeta. rewrite !Z.gtb_ltb.
  change (8 * Z.of_nat 2) with 16. change (8 * Z.of_nat 4) with 32.
  repeat split.
  - destruct (Nat.leb_spec (n + 2) (length b)) as [Hroom|Hshort]; cbn [negb].
    2: { rewrite (proj2 (Z.ltb_lt _ _)) by lia. now intros r [= <-]. }
    rewrite (proj2 (Z.ltb_ge _ _)) by lia.
    destruct (Z.leb_spec 0 v), (Z.ltb_spec v (2 ^ 16)); cbn [andb];
      try discriminate.
    intros r [= <-].
    rewrite (proj2 (Z.ltb_ge _ _)), (proj2 (Z.ltb_ge _ _)) by lia.
    cbn [orb]. now apply port_store_2.
  - destruct (Nat.leb_spec (n + 2) (length b)) as [Hroom|Hshort]; cbn [negb].
    2: { now rewrite (proj2 (Z.ltb_lt _ _)) by lia. }
    rewrite (proj2 (Z.ltb_ge _ _)) by lia.
    destruct (Z.leb_spec 0 v), (Z.ltb_spec v (2 ^ 16)); cbn [andb];
      try discriminate; intros _.
    + now rewrite (proj2 (Z.ltb_ge _ _)), (proj2 (Z.ltb_lt 65535 v)) by lia.
    + now rewrite (proj2 (Z.ltb_lt v 0)) by lia.
    + now rewrite (proj2 (Z.ltb_lt v 0)) by lia.
  - destruct (Nat.leb_spec (n + 4) (length b)) as [Hroom|Hshort]; cbn [negb].
    2: { rewrite (proj2 (Z.ltb_lt _ _)) by lia. now intros r [= <-]. }
    rewrite (proj2 (Z.ltb_ge _ _)) by lia.
    destruct (Z.leb_spec 0 v), (Z.ltb_spec v (2 ^ 32)); cbn [andb];
      try discriminate.
    intros r [= <-].
    rewrite (proj2 (Z.ltb_ge _ _)), (proj2 (Z.ltb_ge _ _)) by lia.
    cbn [orb]. now apply port_store_4.
  - destruct (Nat.leb_spec (n + 4) (length b)) as [Hroom|Hshort]; cbn [negb].
    2: { now rewrite (proj2 (Z.ltb_lt _ _)) by lia. }
    rewrite (proj2 (Z.ltb_ge _ _)) by lia.
    destruct (Z.leb_spec 0 v), (Z.ltb_spec v (2 ^ 32)); cbn [andb];
      try discriminate; intros _.
    + now rewrite (proj2 (Z.ltb_ge _ _)), (proj2 (Z.ltb_lt 4294967295 v)) by lia.
    + now rewrite (proj2 (Z.ltb_lt v 0)) by lia.
    + now rewrite (proj2 (Z.ltb_lt v 0)) by lia.
Qed.

Lemma int_from_bytes_wrap v :
  int_from_bytes (le_bytes 8 v) true = wrap_int64 v.
Proof.
  unfold int_from_bytes, wrap_int64. rewrite length_le_bytes, le_value_le_bytes.
  change (8 * Z.of_nat 8) with 64. change (64 - 1) with 63. cbn [andb].
  destruct (Z.leb_spec (2 ^ 63) (v mod 2 ^ 64)); Z.div_mod_to_equations; lia.
Qed.

(** X28: the port's [marshal_int64] checks the buffer and nothing else: with
    eight bytes left it writes the low 64 bits of any integer, so that what
    is read back is the value wrapped into the signed 64-bit range; it is
    the value itself exactly when the value fits, which is when
    [marshal_int64] of [bstd.py] does not raise [OverflowError] and writes
    the same bytes. *)
Theorem port_marshal_int64 (n : nat) (b : list byte) (v : Z) :
  ((length b < n + 8)%nat ->
   Port.marshal_int64 n b v = Raise (BencException BUF_TOO_SMALL)) /\
  ((n + 8 <= length b)%nat ->
   exists b',
     Port.marshal_int64 n b v = Ok ((n + 8)%nat, b') /\
     writes_exactly n (n + 8) b b' /\
     Port.unmarshal_int64 n b' = Ok ((n + 8)%nat, wrap_int64 v) /\
     (wrap_int64 v = v <-> - 2 ^ 63 <= v < 2 ^ 63) /\
     (- 2 ^ 63 <= v < 2 ^ 63 ->
      marshal_int64 n b v = Returns (Ok ((n + 8)%nat, b')))).
Proof.
  unfold Port.marshal_int64. rewrite (room_check_Z b n 8) by lia.
  change (Z.to_nat 8) with 8%nat. split; intros Hroom.
  - now rewrite leb_false by lia.
  - rewrite leb_true by lia. cbn [negb]. cbn zeta.
    rewrite port_store_8 by exact Hroom.
    assert (Hle : le_bytes 8 (if v <? 0 then Z.shiftl 1 64 + v else v)
                  = le_bytes 8 v).
    { destruct (v <? 0); [|reflexivity].
      change (Z.shiftl 1 64) with (1 * 2 ^ (8 * Z.of_nat 8)).
      rewrite Z.add_comm. apply le_bytes_add. }
    rewrite Hle.
    destruct (setslice_writes_exactly b n (le_bytes 8 v)) as [Hw Hget];
      [rewrite length_le_bytes; lia|].
    rewrite length_le_bytes in Hw, Hget.
    eexists. split; [reflexivity|]. split; [exact Hw|]. split; [|split].
    + rewrite port_unmarshal_int64_from_bytes.
      unfold unmarshal_int64, unmarshal_fixed.
      rewrite (proj2 (Z.ltb_ge _ _))
        by (unfold len; destruct Hw as (-> & _); lia).
      now rewrite Hget, int_from_bytes_wrap.
    + unfold wrap_int64. split; intros H; Z.div_mod_to_equations; lia.
    + intros Hfit. unfold marshal_int64, marshal_fixed.
      rewrite (proj2 (Z.ltb_ge _ _)) by (unfold len; lia).
      now rewrite (int_to_bytes_fits 8 true v) by exact Hfit.
Qed.

(** *** The port's [skip_slice] *)

Lemma int_of_byte_1 c : (int_of_byte c =? 1) = true <-> c = x01.
Proof.
  split; [|now intros ->].
  intros H%Z.eqb_eq. destruct c; vm_compute in H; congruence.
Qed.

Lemma port_skip_slice_step (b : list byte) (i : nat) (range : list nat) :
  (i + 4 <= length b)%nat ->
  (terminator_at b i /\ Port.skip_slice_for (i :: range) b = Ok (i + 4)%nat) \/
  (~ terminator_at b i /\
   Port.skip_slice_for (i :: range) b = Port.skip_slice_for range b).
Proof.
  intros Hroom. unfold terminator_at.
  destruct (window_bytes b i 4 Hroom) as (cs & Hlen & -> & Hitems).
  destruct (Hitems 0%nat ltac:(lia)) as (c0 & H0 & G0).
  destruct (Hitems 1%nat ltac:(lia)) as (c1 & H1 & G1).
  destruct (Hitems 2%nat ltac:(lia)) as (c2 & H2 & G2).
  destruct (Hitems 3%nat ltac:(lia)) as (c3 & H3 & G3).
  rewrite Nat.add_0_r in G0.
  destruct cs as [|x0 [|x1 [|x2 [|x3 [|? ?]]]]]; try discriminate.
  cbn in H0, H1, H2, H3.
  injection H0 as ->. injection H1 as ->. injection H2 as ->. injection H3 as ->.
  cbn [Port.skip_slice_for]. rewrite G0. cbn [mbind result_bind].
  destruct (int_of_byte c0 =? 1) eqn:E0; cbn [negb].
  2: { right. split; [|reflexivity]. intros [= -> _ _ _]. discriminate. }
  rewrite G1. cbn [mbind result_bind].
  destruct (int_of_byte c1 =? 1) eqn:E1; cbn [negb].
  2: { right. split; [|reflexivity]. intros [= _ -> _ _]. discriminate. }
  rewrite G2. cbn [mbind result_bind].
  destruct (int_of_byte c2 =? 1) eqn:E2; cbn [negb].
  2: { right. split; [|reflexivity]. intros [= _ _ -> _]. discriminate. }
  rewrite G3. cbn [mbind result_bind].
  destruct (int_of_byte c3 =? 1) eqn:E3; cbn [negb].
  2: { right. split; [|reflexivity]. intros [= _ _ _ ->]. discriminate. }
  left. apply int_of_byte_1 in E0, E1, E2, E3. subst. split; reflexivity.
Qed.

Lemma port_skip_slice_for_spec (b : list byte) (k : nat) : forall n,
  (n + k + 3 <= length b)%nat \/ k = 0%nat ->
  match Port.skip_slice_for (seq n k) b with
  | Ok m =>
      (n + 4 <= m <= n + k + 3)%nat /\ terminator_at b (m - 4) /\
      forall j, (n <= j < m - 4)%nat -> ~ terminator_at b j
  | Raise e =>
      e = BencException BUF_TOO_SMALL /\
      forall j, (n <= j < n + k)%nat -> ~ terminator_at b j
  end.
Proof.
  induction k as [|k IH]; intros n Hk.
  - cbn. split; [reflexivity|]. intros j Hj. lia.
  - destruct Hk as [Hk|]; [|discriminate]. cbn [seq].
    destruct (port_skip_slice_step b n (seq (S n) k)) as [[Ht ->]|[Hnt ->]];
      [lia | |].
    + replace (n + 4 - 4)%nat with n by lia.
      split; [lia|]. split; [exact Ht|]. intros j Hj. lia.
    + specialize (IH (S n)).
      destruct (Port.skip_slice_for (seq (S n) k) b) as [m|e].
      * destruct IH as (Hm & Ht & Hfirst); [destruct k; [now right | left; lia]|].
        split; [lia|]. split; [exact Ht|]. intros j Hj.
        destruct (Nat.eq_dec j n) as [->|]; [exact Hnt|]. apply Hfirst. lia.
      * destruct IH as (-> & Hnone); [destruct k; [now right | left; lia]|].
        split; [reflexivity|]. intros j Hj.
        destruct (Nat.eq_dec j n) as [->|]; [exact Hnt|]. apply Hnone. lia.
Qed.

(** X29: the port's [skip_slice] does not read the element count: it
    returns the end of the first four bytes 01 01 01 01 at or after [n],
    wherever they are, and raises [BUF_TOO_SMALL] when there are none; it
    raises nothing else. *)
Theorem port_skip_slice_first_pattern (n : nat) (b : list byte) :
  match Port.skip_slice n b with
  | Ok m =>
      (n + 4 <= m <= length b)%nat /\ terminator_at b (m - 4) /\
      forall j, (n <= j < m - 4)%nat -> ~ terminator_at b j
  | Raise e =>
      e = BencException BUF_TOO_SMALL /\
      forall j, (n <= j)%nat -> ~ terminator_at b j
  end.
Proof.
  unfold Port.skip_slice. cbn zeta.
  pose proof (port_skip_slice_for_spec b (length b - 3 - n) n) as H.
  destruct (Port.skip_slice_for _ b) as [m|e].
  - destruct H as (Hm & Ht & Hfirst); [lia|]. split; [lia|]. now split.
  - destruct H as (-> & Hnone); [lia|]. split; [reflexivity|].
    intros j Hj. destruct (Nat.lt_ge_cases j (n + (length b - 3 - n))) as [Hlt|Hge].
    + apply Hnone. lia.
    + unfold terminator_at, getslice. intros Heq.
      apply (f_equal length) in Heq. rewrite length_drop, length_take in Heq.
      cbn in Heq. lia.
Qed.

(** *** Negative input to [marshal_uint] *)

(** X30: [size_uint] and [marshal_uint] do not reject a negative value:
    the loop does not run, [size_uint] is 1, and with a byte left
    [marshal_uint] writes one byte, the low seven bits of the value, which
    [unmarshal_uint] reads back as [value mod 128], another number. *)
Theorem marshal_uint_negative (n : nat) (b : list byte) (value : Z) :
  value < 0 -> (n < length b)%nat ->
  size_uint value = 1 /\
  exists b',
    marshal_uint n b value = Ok ((n + 1)%nat, b') /\
    unmarshal_uint n b' = Ok ((n + 1)%nat, value mod 128) /\
    value mod 128 <> value.
Proof.
  intros Hneg Hn. split; [apply size_uint_lt; lia|].
  assert (Hmod : Z.land value 0x7F = value mod 128).
  { change 0x7F with (Z.ones 7). now rewrite Z.land_ones by lia. }
  pose proof (Z.mod_pos_bound value 128 ltac:(lia)) as Hr.
  assert (Hsame : marshal_uint n b value = marshal_uint n b (value mod 128)).
  { unfold marshal_uint. rewrite !marshal_uint_while_lt by lia.
    rewrite Hmod, land_0x7F_small by lia. reflexivity. }
  assert (Hsize : size_uint (value mod 128) = 1) by (apply size_uint_lt; lia).
  destruct (marshal_unmarshal_uint n b (value mod 128)) as (b' & Hm & _ & Hu).
  { lia. }
  { rewrite Hsize. change (Z.to_nat 1) with 1%nat. lia. }
  rewrite Hsize in Hm, Hu. change (Z.to_nat 1) with 1%nat in *.
  exists b'. rewrite Hsame. split; [exact Hm|].
  split; [now apply Hu | lia].
Qed.

Lemma marshal_uint_negative_witness :
  size_uint (-1) = 1 /\
  exists b',
    marshal_uint 0 [x00] (-1) = Ok (1%nat, b') /\
    unmarshal_uint 0 b' = Ok (1%nat, 127) /\
    127 <> -1.
Proof.
  apply (marshal_uint_negative 0 [x00] (-1)); [lia | cbn; lia].
Defined.

(** ** The model against the test suite

    Cases of [bstd_test.py], evaluated on the embedding. *)

Example test_err_buf_too_small_specific :
  unmarshal_slice 0 [x0a; x00; x00; x00; x01] unmarshal_byte
  = Raise (BencException BUF_TOO_SMALL).
Proof. reflexivity. Qed.

Example test_varint_two_bytes :
  size_uint 300 = 2 /\
  marshal_uint 0 [x00; x00] 300 = Ok (2%nat, [xac; x02]) /\
  unmarshal_uint 0 [xac; x02] = Ok (2%nat, 300) /\
  skip_varint 0 [xac; x02] = Ok 2%nat.
Proof. repeat split. Qed.

Example test_optional_varint_truncated :
  unmarshal_int 1 [x01; x80] = Raise (BencException BUF_TOO_SMALL).
Proof. reflexivity. Qed.

Example test_err_buf_too_small :
  unmarshal_bool 0 [] = Raise (BencException BUF_TOO_SMALL) /\
  unmarshal_int 0 [x80] = Raise (BencException BUF_TOO_SMALL) /\
  unmarshal_int8 0 [] = Raise (BencException BUF_TOO_SMALL) /\
  unmarshal_int16 0 [x01] = Raise (BencException BUF_TOO_SMALL) /\
  unmarshal_int32 0 [x01; x02; x03] = Raise (BencException BUF_TOO_SMALL) /\
  unmarshal_int64 0 [x01; x02; x03; x04; x05; x06]
  = Raise (BencException BUF_TOO_SMALL) /\
  unmarshal_uint 0 [x80] = Raise (BencException BUF_TOO_SMALL) /\
  unmarshal_uint16 0 [x01] = Raise (BencException BUF_TOO_SMALL) /\
  unmarshal_uint32 0 [x01; x02; x03] = Raise (BencException BUF_TOO_SMALL) /\
  unmarshal_uint64 0 [x01; x02; x03; x04; x05; x06]
  = Raise (BencException BUF_TOO_SMALL) /\
  unmarshal_string 0 [x02; x00] = Raise (BencException BUF_TOO_SMALL) /\
  unmarshal_bytes 0 [x04; x01; x02] = Raise (BencException BUF_TOO_SMALL) /\
  unmarshal_bytes 0 [x08; x01; x02] = Raise (BencException BUF_TOO_SMALL) /\
  unmarshal_slice 0 [x0a; x00; x00; x00] unmarshal_byte
  = Raise (BencException BUF_TOO_SMALL) /\
  unmarshal_map 0 [x0a; x00; x00; x00] unmarshal_byte unmarshal_byte
  = Raise (BencException BUF_TOO_SMALL).
Proof. repeat split. Qed.

Example test_err_buf_too_small_string :
  unmarshal_string 0 [x02; x41] = Raise (BencException BUF_TOO_SMALL).
Proof. reflexivity. Qed.

Example test_string_edge_cases_empty :
  size_string [] = Ok 1 /\
  marshal_string 0 [xff] [] = Ok (1%nat, [x00]) /\
  skip_string 0 [x00] = Ok 1%nat /\
  unmarshal_string 0 [x00] = Ok (1%nat, []).
Proof. repeat split. Qed.

Example test_optional_none :
  size_optional None (c_size string_codec) = 1 /\
  marshal_optional 0 [xff] None marshal_string = Ok (1%nat, [x00]) /\
  skip_optional 0 [x00] skip_string = Ok 1%nat /\
  unmarshal_optional 0 [x00] unmarshal_string = Ok (1%nat, None).
Proof. repeat split. Qed.

Example test_terminator_errors :
  marshal_slice 0 (replicate 7 x00) [[0x61]] marshal_string
  = Ok (7%nat, [x01; x01; x61; x01; x01; x01; x01]) /\
  skip_slice 0 [x01; x01; x61; x01; x01; x01] skip_string
  = Raise (BencException BUF_TOO_SMALL) /\
  marshal_map 0 (replicate 9 x00) [([0x61], [0x62])]
    marshal_string marshal_string
  = Ok (9%nat, [x01; x01; x61; x01; x62; x01; x01; x01; x01]) /\
  skip_map 0 [x01; x01; x61; x01; x62; x01; x01; x01] skip_string skip_string
  = Raise (BencException BUF_TOO_SMALL).
Proof. repeat split. Qed.

Example test_size_fixed_slice :
  size_fixed_slice [1; 2; 3] 4 = size_uint 3 + 3 * 4 + 4.
Proof. reflexivity. Qed.

Example test_additional_error_paths :
  skip_optional 0 [] skip_byte = Raise (BencException BUF_TOO_SMALL) /\
  unmarshal_optional 0 [] unmarshal_int
  = Raise (BencException BUF_TOO_SMALL) /\
  unmarshal_optional 0 [x01; x80] unmarshal_int
  = Raise (BencException BUF_TOO_SMALL).
Proof. repeat split. Qed.
